(** * Tower-Defense engine: grid, A* pathfinder, targeting, effects, tick

    Shallow embedding of [src/engine/{grid,targeting,effects,sim}.ts] and of
    the tick driver of [src/state/store.ts].

    Conventions of the embedding.
    - A JavaScript [number] that holds a continuous quantity (time, world
      position, hit points, speed, money ...) is a real number [R]: exact
      arithmetic, so rounding, [NaN] and the infinities are outside the model.
      Where the source divides by a number that may be [0] and compares the
      quotient, the case is spelled out ([fireIntervalPassed]).  The driver's
      loop subtracts exactly, where the store subtracts doubles: at a whole
      number of ticks the two can differ by a tick, and the number of ticks
      of a frame is stated only away from these.
    - A [number] that is used as a grid coordinate, an array index or a
      counter is an integer [Z].  A [Vec2] holding a grid coordinate is a
      [Cell]; a [Vec2] holding a world position is a [Vec2] of reals.
    - [undefined] / [null] is [None]; truthiness of an optional number is
      spelled out ([truthy]).
    - A lookup by a string in the table of tower definitions, a plain
      object, is a [Lookup]: it finds the definitions under the object's own
      keys and the members inherited from [Object.prototype].
    - [Math.random()] is an oracle: the [k]-th call of a run returns
      [random k]; the number of calls made so far is threaded as state.
    - A [TypeError] raised by a property access on [undefined] is the
      outcome [Raised] of the monad [M].
    - Objects that the source mutates in place (the arrays of the game, the
      current wave) are values here: a function returns the game with the
      mutated array or wave written back where the source holds it.
    - [console.log] calls are left out. *)

From Stdlib Require Import ZArith List Bool Lia Reals Lra String.
From stdpp Require Import base gmap.
Import ListNotations.

#[local] Open Scope Z_scope.

(** ** constants.ts *)

Module MAP_SIZE.
Definition width : Z := 20.
Definition height : Z := 15.
End MAP_SIZE.

(** ** types.ts *)

Module TileType.
Inductive t := path | buildable | blocked.
End TileType.

(** A [Vec2] whose coordinates are grid indices. *)
Definition Cell : Type := Z * Z.

Record GameMap := mkGameMap {
  map_width : Z;
  map_height : Z;
  tiles : list (list TileType.t);
  paths : list (list Cell);
  spawnPoints : list Cell;
  basePosition : Cell
}.

(** ** grid.ts: class Grid, on grid cells *)

Module Grid.

Definition isValid (x y : Z) : bool :=
  (0 <=? x) && (x <? MAP_SIZE.width) && (0 <=? y) && (y <? MAP_SIZE.height).

Definition isValidVec (pos : Cell) : bool := isValid (fst pos) (snd pos).

Definition directions : list Cell := [(0, -1); (1, 0); (0, 1); (-1, 0)].

(** [for (const dir of directions) { ...; if (isValidVec(neighbor)) push }] *)
Definition getNeighbors (pos : Cell) : list Cell :=
  List.filter isValidVec
    (List.map (fun dir => (fst pos + fst dir, snd pos + snd dir)) directions).

Definition directions8 : list Cell :=
  [(-1, -1); (0, -1); (1, -1);
   (-1, 0);           (1, 0);
   (-1, 1);  (0, 1);  (1, 1)].

Definition getNeighbors8 (pos : Cell) : list Cell :=
  List.filter isValidVec
    (List.map (fun dir => (fst pos + fst dir, snd pos + snd dir)) directions8).

End Grid.

(** [map.tiles[pos.y][pos.x]]; [None] is [undefined].  The source only
    indexes after [Grid.isValidVec], so both indices are non-negative.  On a
    map with fewer rows than [MAP_SIZE.height] the source raises a
    [TypeError] on the missing row: [placeTower] has this raise
    ([isBuildable_call]), and what is stated of the value of [isBuildable],
    [getTileType] and the pathfinder is stated of what they return, on maps
    of the full extent ([map_wf]) where a return is asserted. *)
Definition tileAt (m : GameMap) (pos : Cell) : option TileType.t :=
  match nth_error (tiles m) (Z.to_nat (snd pos)) with
  | Some row => nth_error row (Z.to_nat (fst pos))
  | None => None
  end.

Definition map_wf (m : GameMap) : Prop :=
  length (tiles m) = Z.to_nat MAP_SIZE.height /\
  Forall (fun row => length row = Z.to_nat MAP_SIZE.width) (tiles m).

Definition isBuildable (m : GameMap) (pos : Cell) : bool :=
  if negb (Grid.isValidVec pos) then false
  else match tileAt m pos with
       | Some TileType.buildable => true
       | _ => false
       end.

(** [getTileType]: ['blocked'] off the grid, [map.tiles[pos.y][pos.x]] on
    it ([None] is [undefined], as for [tileAt]). *)
Definition getTileType (m : GameMap) (pos : Cell) : option TileType.t :=
  if negb (Grid.isValidVec pos) then Some TileType.blocked
  else tileAt m pos.

(** ** grid.ts: class AStarNode and class Pathfinder *)

(** [parent: AStarNode | null].  A node becomes a parent only after it has
    been spliced out of the open set, and only nodes still in the open set are
    ever mutated, so a parent link can hold the parent by value. *)
#[local] Unset Elimination Schemes.
Inductive AStarNode :=
| Node (pos : Cell) (g h : Z) (parent : option AStarNode).
#[local] Set Elimination Schemes.

Definition node_pos (n : AStarNode) : Cell := let (p, _, _, _) := n in p.
Definition node_g (n : AStarNode) : Z := let (_, g, _, _) := n in g.
Definition node_h (n : AStarNode) : Z := let (_, _, h, _) := n in h.
Definition node_parent (n : AStarNode) : option AStarNode :=
  let (_, _, _, p) := n in p.
(** [get f()] *)
Definition node_f (n : AStarNode) : Z := node_g n + node_h n.

Module Pathfinder.
Section WithMap.
Variable map : GameMap.

Definition isWalkable (pos : Cell) : bool :=
  if negb (Grid.isValidVec pos) then false
  else match tileAt map pos with
       | Some TileType.path | Some TileType.buildable => true
       | _ => false
       end.

Definition isGoal (pos end_ : Cell) : bool :=
  (fst pos =? fst end_) && (snd pos =? snd end_).

Definition heuristic (a b : Cell) : Z :=
  Z.abs (fst a - fst b) + Z.abs (snd a - snd b).

(** [nodeKey] prints ["x,y"], which is injective on integer cells; the key
    is the cell itself and key equality is cell equality. *)
Definition sameKey (a b : Cell) : bool :=
  (fst a =? fst b) && (snd a =? snd b).

(** [while (current) { path.unshift(current.pos); current = current.parent }] *)
Fixpoint reconstructFrom (current : AStarNode) (path : list Cell) : list Cell :=
  match current with
  | Node p _ _ None => p :: path
  | Node p _ _ (Some parent) => reconstructFrom parent (p :: path)
  end.

Definition reconstructPath (node : AStarNode) : list Cell :=
  reconstructFrom node [].

(** The scan [for (i = 1; i < openSet.length; i++)
    if (openSet[i].f < openSet[currentIndex].f) currentIndex = i]:
    [rest] is [openSet] from index [i] on, [currentF] is
    [openSet[currentIndex].f]. *)
Fixpoint scanLowest (rest : list AStarNode) (i currentIndex : nat)
         (currentF : Z) : nat :=
  match rest with
  | [] => currentIndex
  | n :: rest' =>
      if node_f n <? currentF
      then scanLowest rest' (S i) i (node_f n)
      else scanLowest rest' (S i) currentIndex currentF
  end.

Definition lowestIndex (openSet : list AStarNode) : nat :=
  match openSet with
  | [] => 0%nat
  | n0 :: rest => scanLowest rest 1 0 (node_f n0)
  end.

(** [openSet.splice(i, 1)]: what stays in the array. *)
Definition spliceOut (i : nat) (openSet : list AStarNode) : list AStarNode :=
  firstn i openSet ++ skipn (S i) openSet.

(** [existingNode.g = tentativeG; existingNode.parent = current] on the
    first node of the open set with the given key (the one [find] returns). *)
Fixpoint updateNode (openSet : list AStarNode) (key : Cell) (tentativeG : Z)
         (current : AStarNode) : list AStarNode :=
  match openSet with
  | [] => []
  | n :: rest =>
      if sameKey (node_pos n) key
      then Node (node_pos n) tentativeG (node_h n) (Some current) :: rest
      else n :: updateNode rest key tentativeG current
  end.

(** Body of [for (const neighborPos of neighbors)]. *)
Definition visitNeighbor (end_ : Cell) (closedSet : gset Cell)
           (current : AStarNode) (openSet : list AStarNode)
           (neighborPos : Cell) : list AStarNode :=
  if bool_decide (neighborPos ∈ closedSet) || negb (isWalkable neighborPos)
  then openSet
  else
    let tentativeG := node_g current + 1 in
    match List.find (fun n => sameKey (node_pos n) neighborPos) openSet with
    | None =>
        openSet ++ [Node neighborPos tentativeG (heuristic neighborPos end_)
                         (Some current)]
    | Some existingNode =>
        if tentativeG <? node_g existingNode
        then updateNode openSet neighborPos tentativeG current
        else openSet
    end.

(** [while (openSet.length > 0) { ... }].  [None]: the fuel ran out before
    the loop ended (shown below not to happen with [searchFuel]). *)
Fixpoint search (fuel : nat) (end_ : Cell) (openSet : list AStarNode)
         (closedSet : gset Cell) : option (list Cell) :=
  match fuel with
  | O => None
  | S fuel' =>
      let currentIndex := lowestIndex openSet in
      match nth_error openSet currentIndex with
      | None => Some []
      | Some current =>
          let openSet1 := spliceOut currentIndex openSet in
          if isGoal (node_pos current) end_
          then Some (reconstructPath current)
          else
            let closedSet1 := {[node_pos current]} ∪ closedSet in
            let openSet2 :=
              fold_left (visitNeighbor end_ closedSet1 current)
                        (Grid.getNeighbors (node_pos current)) openSet1 in
            search fuel' end_ openSet2 closedSet1
      end
  end.

(** One iteration per closed cell plus the last one. *)
Definition searchFuel : nat :=
  S (Z.to_nat (MAP_SIZE.width * MAP_SIZE.height)).

Definition findPath (start end_ : Cell) : list Cell :=
  if negb (Grid.isValidVec start) || negb (Grid.isValidVec end_) then []
  else
    let startNode := Node start 0 (heuristic start end_) None in
    match search searchFuel end_ [startNode] ∅ with
    | Some p => p
    | None => []
    end.

(** [findMultiplePaths] *)
Definition findMultiplePaths : list (list Cell) :=
  List.filter (fun p => negb (Nat.eqb (length p) 0))
    (List.map (fun spawnPoint => findPath spawnPoint (basePosition map))
              (spawnPoints map)).

End WithMap.
End Pathfinder.

(** The tiles [createDefaultMap] builds for the 20 x 15 grid: all
    [buildable], the middle row [pathY = 7] a [path], and four [blocked]
    tiles at (5, 5), (6, 5), (8, 9) and (9, 9). *)
Definition defaultTiles : list (list TileType.t) :=
  let pathY := 7%nat in
  List.map (fun yy =>
    List.map (fun xx =>
      if Nat.eqb yy pathY then TileType.path
      else if (Nat.eqb yy (pathY - 2) && (Nat.eqb xx 5 || Nat.eqb xx 6))
           then TileType.blocked
      else if (Nat.eqb yy (pathY + 2) && (Nat.eqb xx 8 || Nat.eqb xx 9))
           then TileType.blocked
      else TileType.buildable) (seq 0 20)) (seq 0 15).

(** [createDefaultMap]: the paths are found on the map without paths. *)
Definition createDefaultMap : GameMap :=
  let pathY := MAP_SIZE.height / 2 in
  let m0 := mkGameMap MAP_SIZE.width MAP_SIZE.height defaultTiles []
                      [(0, pathY)] (MAP_SIZE.width - 1, pathY) in
  mkGameMap MAP_SIZE.width MAP_SIZE.height defaultTiles
            (Pathfinder.findMultiplePaths m0)
            [(0, pathY)] (MAP_SIZE.width - 1, pathY).


(** ** Numbers, optional numbers, identifiers *)

#[local] Open Scope R_scope.

Definition Rltb (a b : R) : bool := if Rlt_dec a b then true else false.
Definition Rleb (a b : R) : bool := if Rle_dec a b then true else false.
Definition Reqb (a b : R) : bool := if Req_dec_T a b then true else false.

(** Truthiness of [number | undefined]: defined and not [0]. *)
Definition truthy (o : option R) : bool :=
  match o with
  | Some v => negb (Reqb v 0)
  | None => false
  end.

(** The value of an optional field that was tested to be there, [d] if it
    is not. *)
Definition orElse {A} (o : option A) (d : A) : A :=
  match o with
  | Some v => v
  | None => d
  end.

(** [Math.floor] *)
Definition Math_floor (v : R) : R := IZR (Zfloor v).

(** A world position. *)
Record Vec2 := mkVec2 { vx : R; vy : R }.

(** A grid coordinate read as a [Vec2] of numbers. *)
Definition cellVec (c : Cell) : Vec2 := mkVec2 (IZR (fst c)) (IZR (snd c)).

(** Entity ids are template strings [`mob_${t}_${Math.random()}`],
    [`projectile_${t}_${r}`], [`tower_${t}_${r}`]; a printed number holds no
    underscore, so two such strings are equal exactly when their prefix and
    their two numbers are.  [Literal] is any other string. *)
Inductive Id :=
| MobId (currentTime rnd : R)
| ProjectileId (currentTime rnd : R)
| TowerId (time rnd : R)
| Literal (s : string).

Definition Id_eq_dec (a b : Id) : {a = b} + {a <> b}.
Proof. decide equality; first [apply Req_dec_T | apply string_dec]. Defined.

Definition Id_eqb (a b : Id) : bool := if Id_eq_dec a b then true else false.

Module MobType.
Inductive t := normal | fast | tank | flying.
End MobType.

Module TowerType.
Inductive t := arrow | cannon | frost.
Definition eqb (a b : t) : bool :=
  match a, b with
  | arrow, arrow | cannon, cannon | frost, frost => true
  | _, _ => false
  end.
(** The string a [TowerType] is. *)
Definition name (k : t) : string :=
  match k with
  | arrow => "arrow"
  | cannon => "cannon"
  | frost => "frost"
  end%string.
End TowerType.

Module TargetingStrategy.
Inductive t := first | last | strongest | weakest | nearest.
End TargetingStrategy.

Module GameState.
Inductive t := menu | playing | paused | gameOver | victory.
Definition eqb (a b : t) : bool :=
  match a, b with
  | menu, menu | playing, playing | paused, paused
  | gameOver, gameOver | victory, victory => true
  | _, _ => false
  end.
End GameState.

Module Mob.
Record t := mk {
  id : Id;
  pos : Vec2;
  hp : R;
  maxHp : R;
  speed : R;
  armor : R;
  bounty : R;
  type : MobType.t;
  slowUntil : option R;
  slowMultiplier : option R;
  pathProgress : R;
  isDead : bool;
  reachedEnd : bool
}.

(** [{ ...mob, slowUntil: u, slowMultiplier: m }] *)
Definition with_slow (mob : t) (u m : option R) : t :=
  mk (id mob) (pos mob) (hp mob) (maxHp mob) (speed mob) (armor mob)
     (bounty mob) (type mob) u m (pathProgress mob) (isDead mob)
     (reachedEnd mob).

(** [{ ...mob, hp: newHp, isDead: d }] *)
Definition with_hp (mob : t) (newHp : R) (d : bool) : t :=
  mk (id mob) (pos mob) newHp (maxHp mob) (speed mob) (armor mob)
     (bounty mob) (type mob) (slowUntil mob) (slowMultiplier mob)
     (pathProgress mob) d (reachedEnd mob).

(** [mob.pathProgress = pr; mob.reachedEnd = e; mob.pos = p] *)
Definition moved (mob : t) (p : Vec2) (pr : R) (e : bool) : t :=
  mk (id mob) p (hp mob) (maxHp mob) (speed mob) (armor mob)
     (bounty mob) (type mob) (slowUntil mob) (slowMultiplier mob)
     pr (isDead mob) e.
End Mob.

Module Tower.
Record t := mk {
  id : Id;
  tile : Cell;
  range : R;
  rate : R;
  damage : R;
  projectileSpeed : option R;
  lastFiredAt : R;
  kind : TowerType.t;
  tier : Z;
  cost : R;
  targetId : option Id;
  splashRadius : option R;
  slowDuration : option R;
  slowAmount : option R
}.

(** [{ ...tower, lastFiredAt: now, targetId: target }] *)
Definition fired (tower : t) (now : R) (target : Id) : t :=
  mk (id tower) (tile tower) (range tower) (rate tower) (damage tower)
     (projectileSpeed tower) now (kind tower) (tier tower) (cost tower)
     (Some target) (splashRadius tower) (slowDuration tower)
     (slowAmount tower).
End Tower.

Module Projectile.
Record t := mk {
  id : Id;
  pos : Vec2;
  targetId : Id;
  speed : R;
  damage : R;
  splashRadius : option R;
  isInstant : option bool;
  towerId : Id;
  createdAt : R
}.

(** [{ ...projectile, pos: p }] *)
Definition with_pos (pr : t) (p : Vec2) : t :=
  mk (id pr) p (targetId pr) (speed pr) (damage pr) (splashRadius pr)
     (isInstant pr) (towerId pr) (createdAt pr).
End Projectile.

Module Entry.
Record t := mk {
  delay : R;
  kind : MobType.t;
  count : Z;
  spacing : R
}.
End Entry.

Module Wave.
Record t := mk {
  id : R;
  entries : list Entry.t;
  isActive : bool;
  isComplete : bool;
  startTime : option R;
  nextSpawnTime : option R;
  currentEntryIndex : Z;
  currentSpawnCount : Z;
  bonusGiven : option bool
}.
End Wave.

Module Game.
Record t := mk {
  time : R;
  state : GameState.t;
  speed : R;
  mobs : list Mob.t;
  towers : list Tower.t;
  projectiles : list Projectile.t;
  waves : list Wave.t;
  currentWave : Z;
  totalWaves : Z;
  money : R;
  lives : R;
  score : R;
  map : GameMap;
  selectedTower : option Id;
  hoveredTile : option Cell;
  buildMode : option TowerType.t;
  lastTickTime : R;
  frameTime : R;
  tickCount : Z
}.

Definition with_time (g : t) (v : R) (n : Z) : t :=
  mk v (state g) (speed g) (mobs g) (towers g) (projectiles g) (waves g)
     (currentWave g) (totalWaves g) (money g) (lives g) (score g) (map g)
     (selectedTower g) (hoveredTile g) (buildMode g) (lastTickTime g)
     (frameTime g) n.

Definition with_state (g : t) (v : GameState.t) : t :=
  mk (time g) v (speed g) (mobs g) (towers g) (projectiles g) (waves g)
     (currentWave g) (totalWaves g) (money g) (lives g) (score g) (map g)
     (selectedTower g) (hoveredTile g) (buildMode g) (lastTickTime g)
     (frameTime g) (tickCount g).

Definition with_speed (g : t) (v : R) : t :=
  mk (time g) (state g) v (mobs g) (towers g) (projectiles g) (waves g)
     (currentWave g) (totalWaves g) (money g) (lives g) (score g) (map g)
     (selectedTower g) (hoveredTile g) (buildMode g) (lastTickTime g)
     (frameTime g) (tickCount g).

Definition with_mobs (g : t) (v : list Mob.t) : t :=
  mk (time g) (state g) (speed g) v (towers g) (projectiles g) (waves g)
     (currentWave g) (totalWaves g) (money g) (lives g) (score g) (map g)
     (selectedTower g) (hoveredTile g) (buildMode g) (lastTickTime g)
     (frameTime g) (tickCount g).

Definition with_towers (g : t) (v : list Tower.t) : t :=
  mk (time g) (state g) (speed g) (mobs g) v (projectiles g) (waves g)
     (currentWave g) (totalWaves g) (money g) (lives g) (score g) (map g)
     (selectedTower g) (hoveredTile g) (buildMode g) (lastTickTime g)
     (frameTime g) (tickCount g).

Definition with_projectiles (g : t) (v : list Projectile.t) : t :=
  mk (time g) (state g) (speed g) (mobs g) (towers g) v (waves g)
     (currentWave g) (totalWaves g) (money g) (lives g) (score g) (map g)
     (selectedTower g) (hoveredTile g) (buildMode g) (lastTickTime g)
     (frameTime g) (tickCount g).

Definition with_waves (g : t) (v : list Wave.t) : t :=
  mk (time g) (state g) (speed g) (mobs g) (towers g) (projectiles g) v
     (currentWave g) (totalWaves g) (money g) (lives g) (score g) (map g)
     (selectedTower g) (hoveredTile g) (buildMode g) (lastTickTime g)
     (frameTime g) (tickCount g).

Definition with_currentWave (g : t) (v : Z) : t :=
  mk (time g) (state g) (speed g) (mobs g) (towers g) (projectiles g)
     (waves g) v (totalWaves g) (money g) (lives g) (score g) (map g)
     (selectedTower g) (hoveredTile g) (buildMode g) (lastTickTime g)
     (frameTime g) (tickCount g).

Definition with_money (g : t) (v : R) : t :=
  mk (time g) (state g) (speed g) (mobs g) (towers g) (projectiles g)
     (waves g) (currentWave g) (totalWaves g) v (lives g) (score g) (map g)
     (selectedTower g) (hoveredTile g) (buildMode g) (lastTickTime g)
     (frameTime g) (tickCount g).

Definition with_lives (g : t) (v : R) : t :=
  mk (time g) (state g) (speed g) (mobs g) (towers g) (projectiles g)
     (waves g) (currentWave g) (totalWaves g) (money g) v (score g) (map g)
     (selectedTower g) (hoveredTile g) (buildMode g) (lastTickTime g)
     (frameTime g) (tickCount g).

Definition with_selectedTower (g : t) (v : option Id) : t :=
  mk (time g) (state g) (speed g) (mobs g) (towers g) (projectiles g)
     (waves g) (currentWave g) (totalWaves g) (money g) (lives g) (score g)
     (map g) v (hoveredTile g) (buildMode g) (lastTickTime g)
     (frameTime g) (tickCount g).

Definition with_hoveredTile (g : t) (v : option Cell) : t :=
  mk (time g) (state g) (speed g) (mobs g) (towers g) (projectiles g)
     (waves g) (currentWave g) (totalWaves g) (money g) (lives g) (score g)
     (map g) (selectedTower g) v (buildMode g) (lastTickTime g)
     (frameTime g) (tickCount g).

Definition with_buildMode (g : t) (v : option TowerType.t) : t :=
  mk (time g) (state g) (speed g) (mobs g) (towers g) (projectiles g)
     (waves g) (currentWave g) (totalWaves g) (money g) (lives g) (score g)
     (map g) (selectedTower g) (hoveredTile g) v (lastTickTime g)
     (frameTime g) (tickCount g).
End Game.

Module BaseStats.
Record t := mk {
  range : R;
  rate : R;
  damage : R;
  projectileSpeed : option R;
  splashRadius : option R;
  slowDuration : option R;
  slowAmount : option R
}.
End BaseStats.

Module TowerDefinition.
Record t := mk {
  type : TowerType.t;
  name : string;
  baseCost : R;
  baseStats : BaseStats.t;
  targetingStrategy : TargetingStrategy.t
}.
End TowerDefinition.

Module MobDefinition.
Record t := mk {
  type : MobType.t;
  name : string;
  hp : R;
  speed : R;
  armor : R;
  bounty : R
}.
End MobDefinition.

(** ** constants.ts (the fields the engine reads) *)

Definition TICK_DURATION : R := 1000 / 60.

Definition arrowDefinition : TowerDefinition.t :=
  TowerDefinition.mk TowerType.arrow "Arrow Tower" 20
    (BaseStats.mk 3 2 25 (Some 8) None None None)
    TargetingStrategy.first.

Definition cannonDefinition : TowerDefinition.t :=
  TowerDefinition.mk TowerType.cannon "Cannon Tower" 40
    (BaseStats.mk 2.5 0.8 80 (Some 4) (Some 1.5) None None)
    TargetingStrategy.strongest.

Definition frostDefinition : TowerDefinition.t :=
  TowerDefinition.mk TowerType.frost "Frost Tower" 30
    (BaseStats.mk 2.5 1.5 15 (Some 6) None (Some 3) (Some 0.5))
    TargetingStrategy.first.

(** What [table[key]] gives on a plain object that holds definitions: the
    definition under one of the object's own keys; a member the object
    inherits from [Object.prototype] (a function, or the prototype itself
    under ['__proto__']), which is truthy and has none of a definition's
    fields; or [undefined]. *)
Inductive Lookup (A : Type) :=
| Own (definition : A)
| Inherited
| Undefined.
Arguments Own {A} definition.
Arguments Inherited {A}.
Arguments Undefined {A}.

(** The names of the members of [Object.prototype]. *)
Definition Object_prototype : list string :=
  ["constructor"; "__defineGetter__"; "__defineSetter__"; "hasOwnProperty";
   "__lookupGetter__"; "__lookupSetter__"; "isPrototypeOf";
   "propertyIsEnumerable"; "toString"; "valueOf"; "__proto__";
   "toLocaleString"]%string.

(** [TOWER_DEFINITIONS[key]] *)
Definition TOWER_DEFINITIONS (key : string) : Lookup TowerDefinition.t :=
  if String.eqb key "arrow" then Own arrowDefinition
  else if String.eqb key "cannon" then Own cannonDefinition
  else if String.eqb key "frost" then Own frostDefinition
  else if existsb (String.eqb key) Object_prototype then Inherited
  else Undefined.

(** [MOB_DEFINITIONS[kind]] for the four keys a [MobType] can be. *)
Definition MOB_DEFINITIONS (kind : MobType.t) : MobDefinition.t :=
  match kind with
  | MobType.normal => MobDefinition.mk MobType.normal "Goblin" 50 1 0 10
  | MobType.fast => MobDefinition.mk MobType.fast "Wolf" 30 2 0 15
  | MobType.tank => MobDefinition.mk MobType.tank "Ogre" 150 0.5 5 25
  | MobType.flying => MobDefinition.mk MobType.flying "Dragon" 80 1.5 2 30
  end.

(** A [WAVE_DEFINITIONS] element with the progress fields
    [createInitialGame] adds. *)
Definition initialWave (id : R) (entries : list Entry.t) : Wave.t :=
  Wave.mk id entries false false None None 0 0 None.

Definition WAVES : list Wave.t :=
  [ initialWave 1 [Entry.mk 0 MobType.normal 10 1];
    initialWave 2 [Entry.mk 0 MobType.normal 8 0.8;
                   Entry.mk 5 MobType.fast 5 0.6];
    initialWave 3 [Entry.mk 0 MobType.normal 12 0.7;
                   Entry.mk 8 MobType.tank 2 2];
    initialWave 4 [Entry.mk 0 MobType.fast 8 0.5;
                   Entry.mk 4 MobType.normal 10 0.6;
                   Entry.mk 10 MobType.tank 3 1.5];
    initialWave 5 [Entry.mk 0 MobType.flying 3 1;
                   Entry.mk 5 MobType.normal 15 0.5];
    initialWave 6 [Entry.mk 0 MobType.fast 12 0.4;
                   Entry.mk 5 MobType.tank 4 1.2;
                   Entry.mk 10 MobType.flying 5 0.8];
    initialWave 7 [Entry.mk 0 MobType.normal 20 0.4;
                   Entry.mk 8 MobType.fast 10 0.3;
                   Entry.mk 12 MobType.tank 5 1];
    initialWave 8 [Entry.mk 0 MobType.flying 8 0.6;
                   Entry.mk 5 MobType.tank 6 1;
                   Entry.mk 12 MobType.fast 15 0.3];
    initialWave 9 [Entry.mk 0 MobType.normal 25 0.3;
                   Entry.mk 8 MobType.tank 8 0.8;
                   Entry.mk 15 MobType.flying 10 0.5];
    initialWave 10 [Entry.mk 0 MobType.fast 20 0.2;
                    Entry.mk 4 MobType.tank 10 0.6;
                    Entry.mk 10 MobType.flying 15 0.4;
                    Entry.mk 16 MobType.normal 30 0.2] ].

(** ** grid.ts: class Grid, on world positions *)

Module GridW.
(** The [Vec2] returned holds two integers: it is a [Cell]. *)
Definition worldToGrid (worldX worldY : R) : Cell :=
  (Zfloor worldX, Zfloor worldY).

Definition gridToWorld (gridX gridY : R) : Vec2 :=
  mkVec2 (gridX + 0.5) (gridY + 0.5).

Definition distance (a b : Vec2) : R :=
  let dx := vx a - vx b in
  let dy := vy a - vy b in
  sqrt (dx * dx + dy * dy).

Definition distanceSquared (a b : Vec2) : R :=
  let dx := vx a - vx b in
  let dy := vy a - vy b in
  dx * dx + dy * dy.
End GridW.

(** ** effects.ts *)

Definition applySlow (mob : Mob.t) (duration amount currentTime : R) : Mob.t :=
  let newSlowUntil := currentTime + duration in
  let newSlowMultiplier := Rmax 0.1 amount in
  let replaced :=
    Mob.with_slow mob (Some newSlowUntil) (Some newSlowMultiplier) in
  match Mob.slowUntil mob with
  | Some slowUntil =>
      if truthy (Some slowUntil) && Rltb currentTime slowUntil then
        if match Mob.slowMultiplier mob with
           | Some slowMultiplier =>
               truthy (Some slowMultiplier)
               && Rltb slowMultiplier newSlowMultiplier
           | None => false
           end
        then mob
        else if Rltb newSlowUntil slowUntil then mob
        else replaced
      else replaced
  | None => replaced
  end.

Definition updateMobSpeed (mob : Mob.t) (currentTime : R) : R :=
  if match Mob.slowUntil mob with
     | Some slowUntil => truthy (Some slowUntil) && Rleb slowUntil currentTime
     | None => false
     end
  then Mob.speed mob
  else match Mob.slowMultiplier mob with
       | Some slowMultiplier =>
           if truthy (Some slowMultiplier)
           then Mob.speed mob * slowMultiplier
           else Mob.speed mob
       | None => Mob.speed mob
       end.

Definition cleanupExpiredEffects (mob : Mob.t) (currentTime : R) : Mob.t :=
  match Mob.slowUntil mob with
  | Some slowUntil =>
      if truthy (Some slowUntil) && Rleb slowUntil currentTime
      then Mob.with_slow mob None None
      else mob
  | None => mob
  end.

Definition getEffectiveDamage (baseDamage armor : R) : R :=
  Rmax 1 (baseDamage - armor).

Definition applyDamage (mob : Mob.t) (damage : R) : Mob.t :=
  let newHp := Rmax 0 (Mob.hp mob - damage) in
  Mob.with_hp mob newHp (Rleb newHp 0).

Definition isSlowed (mob : Mob.t) (currentTime : R) : bool :=
  match Mob.slowUntil mob with
  | Some slowUntil =>
      truthy (Some slowUntil) && Rltb currentTime slowUntil
      && truthy (Mob.slowMultiplier mob)
  | None => false
  end.

Definition getSlowDurationRemaining (mob : Mob.t) (currentTime : R) : R :=
  match Mob.slowUntil mob with
  | Some slowUntil =>
      if negb (truthy (Some slowUntil)) || Rleb slowUntil currentTime then 0
      else slowUntil - currentTime
  | None => 0
  end.

Definition calculateTowerDPS (tower : Tower.t) : R :=
  Tower.damage tower * Tower.rate tower.

(** [averageArmor: number = 0]: [None] is the argument left out. *)
Definition calculateEffectiveDPS (tower : Tower.t) (averageArmor : option R)
  : R :=
  let averageArmor := orElse averageArmor 0 in
  let effectiveDamage := getEffectiveDamage (Tower.damage tower) averageArmor in
  effectiveDamage * Tower.rate tower.

(** [Math.pow(tower.tier + 1, 2)] on the integer tier. *)
Definition getTowerUpgradeCost (tower : Tower.t) : R :=
  let baseCost := 50 in
  Math_floor (baseCost * (IZR (Tower.tier tower + 1)) ^ 2).

(** [maxTier: number = 3] *)
Definition canUpgradeTower (tower : Tower.t) (maxTier : option Z) : bool :=
  (Tower.tier tower <? orElse maxTier 3)%Z.

Definition upgradeTower (tower : Tower.t) : Tower.t :=
  if negb (canUpgradeTower tower None) then tower
  else
    let newTier := (Tower.tier tower + 1)%Z in
    let upgradeMultiplier := 1.5 in
    Tower.mk (Tower.id tower) (Tower.tile tower)
      (Tower.range tower * 1.2)
      (Tower.rate tower * 1.1)
      (Math_floor (Tower.damage tower * upgradeMultiplier))
      (Tower.projectileSpeed tower) (Tower.lastFiredAt tower)
      (Tower.kind tower) newTier (getTowerUpgradeCost tower)
      (Tower.targetId tower) (Tower.splashRadius tower)
      (Tower.slowDuration tower) (Tower.slowAmount tower).

(** ** targeting.ts *)

(** The filter of [findTarget], with the tower's tile as the centre. *)
Definition inRangeOf (center : Vec2) (radius : R) (mob : Mob.t) : bool :=
  negb (Mob.isDead mob) && negb (Mob.reachedEnd mob)
  && Rleb (GridW.distance center (Mob.pos mob)) radius.

(** [for (const mob of mobs) if (mob.pathProgress > bestProgress) ...],
    from the state [(best, bestProgress)]. *)
Fixpoint scanFirst (mobs : list Mob.t) (best : option Mob.t)
         (bestProgress : R) : option Mob.t :=
  match mobs with
  | [] => best
  | mob :: rest =>
      if Rltb bestProgress (Mob.pathProgress mob)
      then scanFirst rest (Some mob) (Mob.pathProgress mob)
      else scanFirst rest best bestProgress
  end.

Definition findFirstTarget (mobs : list Mob.t) : option Mob.t :=
  scanFirst mobs None (-1).

Fixpoint scanLast (mobs : list Mob.t) (best : option Mob.t)
         (bestProgress : R) : option Mob.t :=
  match mobs with
  | [] => best
  | mob :: rest =>
      if Rltb (Mob.pathProgress mob) bestProgress
      then scanLast rest (Some mob) (Mob.pathProgress mob)
      else scanLast rest best bestProgress
  end.

Definition findLastTarget (mobs : list Mob.t) : option Mob.t :=
  scanLast mobs None 2.

Fixpoint scanStrongest (mobs : list Mob.t) (best : option Mob.t)
         (bestHp : R) : option Mob.t :=
  match mobs with
  | [] => best
  | mob :: rest =>
      if Rltb bestHp (Mob.hp mob)
      then scanStrongest rest (Some mob) (Mob.hp mob)
      else scanStrongest rest best bestHp
  end.

Definition findStrongestTarget (mobs : list Mob.t) : option Mob.t :=
  scanStrongest mobs None (-1).

(** The running minimum starts at [Infinity], which every number is below:
    [None] is [Infinity]. *)
Definition belowBound (v : R) (bound : option R) : bool :=
  match bound with
  | Some b => Rltb v b
  | None => true
  end.

Fixpoint scanWeakest (mobs : list Mob.t) (best : option Mob.t)
         (bestHp : option R) : option Mob.t :=
  match mobs with
  | [] => best
  | mob :: rest =>
      if belowBound (Mob.hp mob) bestHp
      then scanWeakest rest (Some mob) (Some (Mob.hp mob))
      else scanWeakest rest best bestHp
  end.

Definition findWeakestTarget (mobs : list Mob.t) : option Mob.t :=
  scanWeakest mobs None None.

Fixpoint scanNearest (towerPos : Vec2) (mobs : list Mob.t)
         (best : option Mob.t) (bestDistance : option R) : option Mob.t :=
  match mobs with
  | [] => best
  | mob :: rest =>
      let distance := GridW.distanceSquared towerPos (Mob.pos mob) in
      if belowBound distance bestDistance
      then scanNearest towerPos rest (Some mob) (Some distance)
      else scanNearest towerPos rest best bestDistance
  end.

Definition findNearestTarget (mobs : list Mob.t) (towerPos : Vec2)
  : option Mob.t :=
  scanNearest towerPos mobs None None.

Definition findTarget (tower : Tower.t) (mobs : list Mob.t)
           (strategy : TargetingStrategy.t) : option Mob.t :=
  let inRange :=
    List.filter (inRangeOf (cellVec (Tower.tile tower)) (Tower.range tower))
                mobs in
  match inRange with
  | [] => None
  | _ =>
      match strategy with
      | TargetingStrategy.first => findFirstTarget inRange
      | TargetingStrategy.last => findLastTarget inRange
      | TargetingStrategy.strongest => findStrongestTarget inRange
      | TargetingStrategy.weakest => findWeakestTarget inRange
      | TargetingStrategy.nearest =>
          findNearestTarget inRange (cellVec (Tower.tile tower))
      end
  end.

Definition getMobsInSplashRadius (center : Vec2) (radius : R)
           (mobs : list Mob.t) : list Mob.t :=
  List.filter (inRangeOf center radius) mobs.

Definition calculateDamage (baseDamage armor : R) : R :=
  Rmax 1 (baseDamage - armor).

(** The damage one mob at [distance] from the centre is assigned. *)
Definition splashDamageAt (radius baseDamage distance : R) : R :=
  let falloff := 1 - (distance / radius) * 0.5 in
  Rmax 1 (Math_floor (baseDamage * falloff)).

(** [for (const mob of mobs) { if (dead || reachedEnd) continue; ... push }],
    from the [results] pushed so far. *)
Fixpoint splashLoop (center : Vec2) (radius baseDamage : R)
         (mobs : list Mob.t) (results : list (Mob.t * R))
  : list (Mob.t * R) :=
  match mobs with
  | [] => results
  | mob :: rest =>
      if Mob.isDead mob || Mob.reachedEnd mob
      then splashLoop center radius baseDamage rest results
      else
        let distance := GridW.distance center (Mob.pos mob) in
        if Rleb distance radius
        then splashLoop center radius baseDamage rest
               (results ++ [(mob, splashDamageAt radius baseDamage distance)])
        else splashLoop center radius baseDamage rest results
  end.

Definition applySplashDamage (center : Vec2) (radius baseDamage : R)
           (mobs : list Mob.t) : list (Mob.t * R) :=
  splashLoop center radius baseDamage mobs [].

(** ** Effects of the simulation: [Math.random] and [TypeError] *)

(** What running a piece of the engine comes to, started after [k] calls of
    [Math.random]: it returns a value, having made [calls] calls so far; it
    raises a [TypeError]; or the model's loop bound is exhausted. *)
Inductive Outcome (A : Type) :=
| Returned (a : A) (calls : nat)
| Raised
| OutOfFuel.
Arguments Returned {A} a calls.
Arguments Raised {A}.
Arguments OutOfFuel {A}.

Definition M (A : Type) : Type := nat -> Outcome A.

Definition ret {A} (a : A) : M A := fun k => Returned a k.

Definition bind {A B} (m : M A) (f : A -> M B) : M B :=
  fun k =>
    match m k with
    | Returned a k' => f a k'
    | Raised => Raised
    | OutOfFuel => OutOfFuel
    end.

Definition throw {A} : M A := fun _ => Raised.

Notation "x <- m ;; f" := (bind m (fun x => f))
  (at level 100, m at next level, right associativity, only parsing).

Fixpoint mapM {A B} (f : A -> M B) (l : list A) : M (list B) :=
  match l with
  | [] => ret []
  | a :: rest =>
      b <- f a ;;
      bs <- mapM f rest ;;
      ret (b :: bs)
  end.

(** [array[i]] for an integer-valued index; [None] is [undefined]. *)
Definition nthZ {A} (l : list A) (i : Z) : option A :=
  if (i <? 0)%Z then None else l !! Z.to_nat i.

(** [array.findIndex(p)]; [None] is [-1]. *)
Fixpoint findIndex {A} (p : A -> bool) (l : list A) : option nat :=
  match l with
  | [] => None
  | a :: rest =>
      if p a then Some O
      else match findIndex p rest with
           | Some i => Some (S i)
           | None => None
           end
  end.

(** ** sim.ts *)

Section Simulation.

(** [random k] is what the [k]-th call of [Math.random()] returns. *)
Variable random : nat -> R.

Definition Math_random : M R := fun k => Returned (random k) (S k).

(** [spawnPos] is [map.spawnPoints[0]], possibly [undefined]. *)
Definition createMob (kind : MobType.t) (spawnPos : option Cell)
           (currentTime : R) : M Mob.t :=
  let mobDef := MOB_DEFINITIONS kind in
  rnd <- Math_random ;;
  match spawnPos with
  | None => throw
  | Some spawnPos =>
      ret (Mob.mk (MobId currentTime rnd)
             (GridW.gridToWorld (IZR (fst spawnPos)) (IZR (snd spawnPos)))
             (MobDefinition.hp mobDef) (MobDefinition.hp mobDef)
             (MobDefinition.speed mobDef) (MobDefinition.armor mobDef)
             (MobDefinition.bounty mobDef) (MobDefinition.type mobDef)
             None None 0 false false)
  end.

Definition createProjectile (tower : Tower.t) (target : Mob.t)
           (currentTime : R) : M Projectile.t :=
  rnd <- Math_random ;;
  ret (Projectile.mk (ProjectileId currentTime rnd)
         (cellVec (Tower.tile tower))
         (Mob.id target)
         (if truthy (Tower.projectileSpeed tower)
          then orElse (Tower.projectileSpeed tower) 5 else 5)
         (Tower.damage tower)
         (Tower.splashRadius tower)
         None
         (Tower.id tower)
         currentTime).

(** The wave object [waves[currentWave]] is mutated in place: [storeWave]
    writes the mutated wave back at its index. *)
Definition storeWave (game : Game.t) (w : Wave.t) : Game.t :=
  Game.with_waves game
    (<[Z.to_nat (Game.currentWave game) := w]> (Game.waves game)).

Definition updateWaves (game : Game.t) (_dt : R) : M Game.t :=
  if (Game.totalWaves game <=? Game.currentWave game)%Z then ret game
  else
    match nthZ (Game.waves game) (Game.currentWave game) with
    | None => ret game
    | Some currentWave =>
        if Wave.isComplete currentWave then ret game
        else
          let currentWave :=
            if negb (Wave.isActive currentWave)
            then Wave.mk (Wave.id currentWave) (Wave.entries currentWave)
                   true (Wave.isComplete currentWave)
                   (Some (Game.time game)) (Some (Game.time game)) 0 0
                   (Wave.bonusGiven currentWave)
            else currentWave in
          match nthZ (Wave.entries currentWave)
                     (Wave.currentEntryIndex currentWave) with
          | Some entry =>
              if Rleb (Entry.delay entry) (Game.time game)
                 && (truthy (Wave.nextSpawnTime currentWave)
                     && Rleb (orElse (Wave.nextSpawnTime currentWave) 0)
                             (Game.time game))
              then
                if (Wave.currentSpawnCount currentWave <? Entry.count entry)%Z
                then
                  mob <- createMob (Entry.kind entry)
                              (spawnPoints (Game.map game) !! O)
                              (Game.time game) ;;
                  ret (storeWave
                         (Game.with_mobs game (Game.mobs game ++ [mob]))
                         (Wave.mk (Wave.id currentWave)
                            (Wave.entries currentWave)
                            (Wave.isActive currentWave)
                            (Wave.isComplete currentWave)
                            (Wave.startTime currentWave)
                            (Some (Game.time game + Entry.spacing entry))
                            (Wave.currentEntryIndex currentWave)
                            (Wave.currentSpawnCount currentWave + 1)%Z
                            (Wave.bonusGiven currentWave)))
                else
                  let nextIndex :=
                    (Wave.currentEntryIndex currentWave + 1)%Z in
                  if (Z.of_nat (length (Wave.entries currentWave))
                      <=? nextIndex)%Z
                  then
                    let waveReward := 50 + Wave.id currentWave * 10 in
                    ret (storeWave
                           (Game.with_money game
                              (Game.money game + waveReward))
                           (Wave.mk (Wave.id currentWave)
                              (Wave.entries currentWave)
                              (Wave.isActive currentWave)
                              true
                              (Wave.startTime currentWave)
                              (Wave.nextSpawnTime currentWave)
                              nextIndex 0
                              (Wave.bonusGiven currentWave)))
                  else
                    ret (storeWave game
                           (Wave.mk (Wave.id currentWave)
                              (Wave.entries currentWave)
                              (Wave.isActive currentWave)
                              (Wave.isComplete currentWave)
                              (Wave.startTime currentWave)
                              (Wave.nextSpawnTime currentWave)
                              nextIndex 0
                              (Wave.bonusGiven currentWave)))
              else ret (storeWave game currentWave)
          | None => ret (storeWave game currentWave)
          end
    end.

(** Body of the loop of [updateMobs] for one mob: the mob [mobs[i]] holds
    afterwards. *)
Definition updateMob (game : Game.t) (dt : R) (mob0 : Mob.t) : M Mob.t :=
  if Mob.isDead mob0 || Mob.reachedEnd mob0 then ret mob0
  else
    let mob := cleanupExpiredEffects mob0 (Game.time game) in
    let currentSpeed := updateMobSpeed mob (Game.time game) in
    match paths (Game.map game) !! O with
    | None => ret mob
    | Some path =>
        if (1 <? length path)%nat then
          let lastIndex := (Z.of_nat (length path) - 1)%Z in
          let pathProgress := Mob.pathProgress mob in
          let pathIndex := Zfloor (pathProgress * IZR lastIndex) in
          let nextPathIndex := Z.min (pathIndex + 1) lastIndex in
          match nthZ path pathIndex, nthZ path nextPathIndex with
          | Some currentPathPos, Some nextPathPos =>
              let moveDistance := currentSpeed * dt in
              let pathSegmentLength :=
                GridW.distance (cellVec currentPathPos)
                               (cellVec nextPathPos) in
              if Rltb 0 pathSegmentLength then
                let progressInSegment :=
                  pathProgress * IZR lastIndex - IZR pathIndex in
                let newProgressInSegment :=
                  progressInSegment + moveDistance / pathSegmentLength in
                if Rleb 1 newProgressInSegment then
                  let newPathIndex := Z.min (nextPathIndex + 1) lastIndex in
                  let progress := IZR newPathIndex / IZR lastIndex in
                  if (lastIndex <=? newPathIndex)%Z
                  then ret (Mob.moved mob
                              (cellVec (basePosition (Game.map game)))
                              progress true)
                  else
                    match nthZ path newPathIndex with
                    | Some p =>
                        ret (Mob.moved mob
                               (GridW.gridToWorld (IZR (fst p)) (IZR (snd p)))
                               progress (Mob.reachedEnd mob))
                    | None => throw
                    end
                else
                  let t := newProgressInSegment in
                  let cur := cellVec currentPathPos in
                  let nxt := cellVec nextPathPos in
                  ret (Mob.moved mob
                         (mkVec2 (vx cur + (vx nxt - vx cur) * t + 0.5)
                                 (vy cur + (vy nxt - vy cur) * t + 0.5))
                         ((IZR pathIndex + newProgressInSegment)
                          / IZR lastIndex)
                         (Mob.reachedEnd mob))
              else ret mob
          | _, _ => throw
          end
        else ret mob
    end.

Definition updateMobs (game : Game.t) (dt : R) : M Game.t :=
  mobs <- mapM (updateMob game dt) (Game.mobs game) ;;
  ret (Game.with_mobs game mobs).

(** [towerDef.targetingStrategy] as [findTarget] reads it: an inherited
    member has no such field, and [undefined] takes the [default] case of the
    switch, which is [findFirstTarget]. *)
Definition targetingStrategyOf (towerDef : TowerDefinition.t + unit)
  : TargetingStrategy.t :=
  match towerDef with
  | inl towerDef => TowerDefinition.targetingStrategy towerDef
  | inr _ => TargetingStrategy.first
  end.

(** [timeSinceLastFire >= fireInterval] with [fireInterval = 1 / rate]: at
    rate [0] the interval is [Infinity], which no time reaches.  (The reals
    have one zero; the negative zero of the doubles is outside the model.) *)
Definition fireIntervalPassed (timeSinceLastFire rate : R) : bool :=
  if Reqb rate 0 then false
  else
    let fireInterval := 1 / rate in
    Rleb fireInterval timeSinceLastFire.

(** Body of the loop of [updateTowers] for one tower: the tower
    [towers[i]] holds afterwards and the projectile pushed, if any. *)
Definition updateTower (time : R) (mobs : list Mob.t) (tower : Tower.t)
  : M (Tower.t * list Projectile.t) :=
  towerDef <-
    match TOWER_DEFINITIONS (TowerType.name (Tower.kind tower)) with
    | Own towerDef => ret (inl towerDef)
    | Inherited => ret (inr tt)
    | Undefined => throw
    end ;;
  match findTarget tower mobs (targetingStrategyOf towerDef) with
  | Some target =>
      let timeSinceLastFire := time - Tower.lastFiredAt tower in
      if fireIntervalPassed timeSinceLastFire (Tower.rate tower) then
        projectile <- createProjectile tower target time ;;
        ret (Tower.fired tower time (Mob.id target), [projectile])
      else ret (tower, [])
  | None => ret (tower, [])
  end.

Definition updateTowers (game : Game.t) (_dt : R) : M Game.t :=
  results <- mapM (updateTower (Game.time game) (Game.mobs game))
                     (Game.towers game) ;;
  ret (Game.with_projectiles
         (Game.with_towers game (List.map fst results))
         (Game.projectiles game ++ List.concat (List.map snd results))).

(** [for (const result of damageResults)] of the splash branch. *)
Definition applySplashResult (game : Game.t) (result : Mob.t * R) : Game.t :=
  match findIndex (fun m => Id_eqb (Mob.id m) (Mob.id (fst result)))
                  (Game.mobs game) with
  | Some mobIndex =>
      let damaged := applyDamage (fst result) (snd result) in
      let game1 :=
        Game.with_mobs game (<[mobIndex := damaged]> (Game.mobs game)) in
      if Mob.isDead damaged
      then Game.with_money game1 (Game.money game1 + Mob.bounty (fst result))
      else game1
  | None => game
  end.

Definition applyProjectileHit (game : Game.t) (projectile : Projectile.t)
           (target : Mob.t) (tower : Tower.t) : Game.t :=
  if truthy (Projectile.splashRadius projectile) then
    let radius := orElse (Projectile.splashRadius projectile) 0 in
    let splashTargets :=
      getMobsInSplashRadius (Projectile.pos projectile) radius
                            (Game.mobs game) in
    let damageResults :=
      applySplashDamage (Projectile.pos projectile) radius
                        (Projectile.damage projectile) splashTargets in
    fold_left applySplashResult damageResults game
  else
    let effectiveDamage :=
      getEffectiveDamage (Projectile.damage projectile) (Mob.armor target) in
    match findIndex (fun m => Id_eqb (Mob.id m) (Mob.id target))
                    (Game.mobs game) with
    | Some mobIndex =>
        let damaged := applyDamage target effectiveDamage in
        let slowed :=
          if TowerType.eqb (Tower.kind tower) TowerType.frost
             && truthy (Tower.slowDuration tower)
             && truthy (Tower.slowAmount tower)
          then applySlow damaged
                 (orElse (Tower.slowDuration tower) 0)
                 (orElse (Tower.slowAmount tower) 0)
                 (Game.time game)
          else damaged in
        let game1 :=
          Game.with_mobs game (<[mobIndex := slowed]> (Game.mobs game)) in
        if Mob.isDead slowed
        then Game.with_money game1 (Game.money game1 + Mob.bounty target)
        else game1
    | None => game
    end.

(** Body of the loop of [updateProjectiles] for [projectiles[i]]: the game
    after a hit, and what stays at index [i] ([None]: spliced out). *)
Definition updateProjectile (dt : R) (game : Game.t)
           (projectile : Projectile.t) : Game.t * option Projectile.t :=
  match List.find (fun m => Id_eqb (Mob.id m) (Projectile.targetId projectile))
                  (Game.mobs game) with
  | None => (game, None)
  | Some target =>
      if Mob.isDead target then (game, None)
      else
        let dirx := vx (Mob.pos target) - vx (Projectile.pos projectile) in
        let diry := vy (Mob.pos target) - vy (Projectile.pos projectile) in
        let distance := sqrt (dirx * dirx + diry * diry) in
        if Rleb distance 0.1 then
          match List.find
                  (fun t => Id_eqb (Tower.id t) (Projectile.towerId projectile))
                  (Game.towers game) with
          | Some tower =>
              (applyProjectileHit game projectile target tower, None)
          | None => (game, None)
          end
        else
          let moveDistance := Projectile.speed projectile * dt in
          let moveRatio := moveDistance / distance in
          (game,
           Some (Projectile.with_pos projectile
                   (mkVec2 (vx (Projectile.pos projectile) + dirx * moveRatio)
                           (vy (Projectile.pos projectile) + diry * moveRatio))))
      end.

(** [for (let i = projectiles.length - 1; i >= 0; i--)]: [pending] holds
    [projectiles[i], ..., projectiles[0]], [kept] what the array holds
    above index [i]. *)
Fixpoint projectilesLoop (dt : R) (pending : list Projectile.t)
         (game : Game.t) (kept : list Projectile.t) : Game.t :=
  match pending with
  | [] => Game.with_projectiles game kept
  | projectile :: rest =>
      let (game1, stays) := updateProjectile dt game projectile in
      projectilesLoop dt rest game1
        (match stays with
         | Some moved => moved :: kept
         | None => kept
         end)
  end.

Definition updateProjectiles (game : Game.t) (dt : R) : Game.t :=
  projectilesLoop dt (rev (Game.projectiles game)) game [].

Definition cleanupEntities (game : Game.t) : Game.t :=
  let game1 :=
    Game.with_mobs game
      (List.filter (fun mob => negb (Mob.isDead mob)) (Game.mobs game)) in
  let maxProjectileAge := 5 in
  Game.with_projectiles game1
    (List.filter
       (fun projectile =>
          Rltb (Game.time game1 - Projectile.createdAt projectile)
               maxProjectileAge)
       (Game.projectiles game1)).

Definition checkGameState (game : Game.t) : Game.t :=
  let mobsReachedEnd := List.filter Mob.reachedEnd (Game.mobs game) in
  let game1 :=
    Game.with_lives game
      (fold_left (fun lives _mob => lives - 1) mobsReachedEnd
                 (Game.lives game)) in
  let game2 :=
    Game.with_mobs game1
      (List.filter (fun mob => negb (Mob.reachedEnd mob)) (Game.mobs game1)) in
  let game3 :=
    if Rleb (Game.lives game2) 0
    then Game.with_state game2 GameState.gameOver
    else game2 in
  let game4 :=
    match nthZ (Game.waves game3) (Game.currentWave game3) with
    | Some currentWave =>
        if Wave.isComplete currentWave
           && Nat.eqb (length (Game.mobs game3)) 0
           && Nat.eqb (length (Game.projectiles game3)) 0
           && negb (orElse (Wave.bonusGiven currentWave) false)
        then
          let clearBonus := 25 + Wave.id currentWave * 5 in
          storeWave
            (Game.with_money game3 (Game.money game3 + clearBonus))
            (Wave.mk (Wave.id currentWave) (Wave.entries currentWave)
               (Wave.isActive currentWave) (Wave.isComplete currentWave)
               (Wave.startTime currentWave) (Wave.nextSpawnTime currentWave)
               (Wave.currentEntryIndex currentWave)
               (Wave.currentSpawnCount currentWave) (Some true))
        else game3
    | None => game3
    end in
  if (Game.totalWaves game4 <=? Game.currentWave game4)%Z
     && Nat.eqb (length (Game.mobs game4)) 0
     && Nat.eqb (length (Game.projectiles game4)) 0
  then Game.with_state game4 GameState.victory
  else game4.

(** The game handed to [checkGameState] by [advanceTick]: the state at
    game-state evaluation. *)
Definition beforeGameStateCheck (game : Game.t) (dt : R) : M Game.t :=
  let newGame :=
    Game.with_time game (Game.time game + dt) (Game.tickCount game + 1)%Z in
  newGame <- updateWaves newGame dt ;;
  newGame <- updateMobs newGame dt ;;
  newGame <- updateTowers newGame dt ;;
  let newGame := updateProjectiles newGame dt in
  ret (cleanupEntities newGame).

Definition advanceTick (game : Game.t) (dt : R) : M Game.t :=
  newGame <- beforeGameStateCheck game dt ;;
  ret (checkGameState newGame).

Definition startNextWave (game : Game.t) : Game.t :=
  if (Game.currentWave game <? Game.totalWaves game)%Z then
    let game1 :=
      Game.with_state
        (Game.with_currentWave game (Game.currentWave game + 1)%Z)
        GameState.playing in
    match nthZ (Game.waves game1) (Game.currentWave game1 - 1) with
    | Some wave =>
        Game.with_waves game1
          (<[Z.to_nat (Game.currentWave game1 - 1) :=
               Wave.mk (Wave.id wave) (Wave.entries wave) true
                 (Wave.isComplete wave) (Some (Game.time game1))
                 (Some (Game.time game1)) (Wave.currentEntryIndex wave)
                 (Wave.currentSpawnCount wave) (Wave.bonusGiven wave)]>
             (Game.waves game1))
    | None => game1
    end
  else game.

Definition togglePause (game : Game.t) : Game.t :=
  match Game.state game with
  | GameState.playing => Game.with_state game GameState.paused
  | GameState.paused => Game.with_state game GameState.playing
  | _ => game
  end.

Definition setGameSpeed (game : Game.t) (speed : R) : Game.t :=
  Game.with_speed game speed.

(** The call [isBuildable(map, pos)]: on a cell of the grid whose row
    [map.tiles[pos.y]] is missing, it reads [pos.x] of [undefined] and
    raises; in every other case it returns [isBuildable map pos]. *)
Definition isBuildable_call (m : GameMap) (pos : Cell) : M bool :=
  if Grid.isValidVec pos then
    match nth_error (tiles m) (Z.to_nat (snd pos)) with
    | Some row => ret (isBuildable m pos)
    | None => throw
    end
  else ret (isBuildable m pos).

(** [t.tile.x === pos.x && t.tile.y === pos.y] *)
Definition occupies (pos : Cell) (t : Tower.t) : bool :=
  (fst (Tower.tile t) =? fst pos)%Z && (snd (Tower.tile t) =? snd pos)%Z.

Definition placeTower (game : Game.t) (pos : Cell) (towerType : string)
  : M Game.t :=
  match TOWER_DEFINITIONS towerType with
  | Undefined => ret game
  | Inherited =>
      (* [money < towerDef.baseCost] is [money < undefined]: false *)
      buildable <- isBuildable_call (Game.map game) pos ;;
      if negb buildable then ret game
      else
        match List.find (occupies pos) (Game.towers game) with
        | Some existingTower => ret game
        | None =>
            rnd <- Math_random ;;
            (* [towerDef.baseStats] is [undefined] *)
            throw
        end
  | Own towerDef =>
      if Rltb (Game.money game) (TowerDefinition.baseCost towerDef)
      then ret game
      else
        buildable <- isBuildable_call (Game.map game) pos ;;
        if negb buildable then ret game
        else
          match List.find (occupies pos) (Game.towers game) with
          | Some existingTower => ret game
          | None =>
              rnd <- Math_random ;;
              let stats := TowerDefinition.baseStats towerDef in
              let tower :=
                Tower.mk (TowerId (Game.time game) rnd) pos
                  (BaseStats.range stats) (BaseStats.rate stats)
                  (BaseStats.damage stats) (BaseStats.projectileSpeed stats)
                  0 (TowerDefinition.type towerDef) 1
                  (TowerDefinition.baseCost towerDef) None
                  (BaseStats.splashRadius stats)
                  (BaseStats.slowDuration stats)
                  (BaseStats.slowAmount stats) in
              ret (Game.with_money
                     (Game.with_towers game (Game.towers game ++ [tower]))
                     (Game.money game - TowerDefinition.baseCost towerDef))
          end
  end.

End Simulation.

Definition createInitialGame : Game.t :=
  Game.mk 0 GameState.menu 0.5 [] [] [] WAVES 0
          (Z.of_nat (length WAVES)) 200 100 0 createDefaultMap
          None None None 0 0 0.

(** ** store.ts: the tick driver *)

Module Store.
Record t := mk {
  game : Game.t;
  isRunning : bool;
  lastFrameTime : R;
  accumulator : R
}.
End Store.

Section Driver.
Variable random : nat -> R.

(** [while (remainingTime >= TICK_DURATION)
      { newGame = advanceTick(newGame, TICK_DURATION);
        remainingTime -= TICK_DURATION }], with exact subtraction. *)
Fixpoint tickLoop (fuel : nat) (newGame : Game.t) (remainingTime : R)
  : M (Game.t * R) :=
  if Rleb TICK_DURATION remainingTime then
    match fuel with
    | O => fun _ => OutOfFuel
    | S fuel' =>
        newGame <- advanceTick random newGame TICK_DURATION ;;
        tickLoop fuel' newGame (remainingTime - TICK_DURATION)
    end
  else ret (newGame, remainingTime).

(** The number of whole ticks in the accumulated time bounds the loop. *)
Definition update (state : Store.t) (deltaTime : R) : M Store.t :=
  if negb (Store.isRunning state)
     || negb (GameState.eqb (Game.state (Store.game state))
                            GameState.playing)
  then ret state
  else
    let newAccumulator := Store.accumulator state + deltaTime in
    result <- tickLoop (Z.to_nat (Zfloor (newAccumulator / TICK_DURATION)))
                          (Store.game state) newAccumulator ;;
    ret (Store.mk (fst result) (Store.isRunning state)
                  (Store.lastFrameTime state) (snd result)).
End Driver.

(** ** store.ts: the actions

    [set] merges the fields it is given into the store.  [now] is what the
    action's call of [performance.now()] returns. *)

Module useGameStore.

Definition startGame (now : R) (state : Store.t) : Store.t :=
  Store.mk (Game.with_state (Store.game state) GameState.playing) true now
           (Store.accumulator state).

Definition pauseGame (state : Store.t) : Store.t :=
  Store.mk (togglePause (Store.game state)) false
           (Store.lastFrameTime state) (Store.accumulator state).

Definition resumeGame (now : R) (state : Store.t) : Store.t :=
  Store.mk (togglePause (Store.game state)) true now
           (Store.accumulator state).

Definition restartGame (state : Store.t) : Store.t :=
  Store.mk createInitialGame false 0 0.

Definition setSpeed (speed : R) (state : Store.t) : Store.t :=
  Store.mk (setGameSpeed (Store.game state) speed) (Store.isRunning state)
           (Store.lastFrameTime state) (Store.accumulator state).

Definition startNextWave (now : R) (state : Store.t) : Store.t :=
  Store.mk (startNextWave (Store.game state)) true now
           (Store.accumulator state).

Definition enterBuildMode (towerType : TowerType.t) (state : Store.t)
  : Store.t :=
  Store.mk (Game.with_buildMode (Store.game state) (Some towerType))
           (Store.isRunning state) (Store.lastFrameTime state)
           (Store.accumulator state).

Definition exitBuildMode (state : Store.t) : Store.t :=
  Store.mk (Game.with_buildMode (Store.game state) None)
           (Store.isRunning state) (Store.lastFrameTime state)
           (Store.accumulator state).

(** [if (state.game.buildMode)]: a tower type is a non-empty string. *)
Definition placeTower (random : nat -> R) (pos : Cell) (state : Store.t)
  : M Store.t :=
  match Game.buildMode (Store.game state) with
  | Some buildMode =>
      game <- placeTower random (Store.game state) pos
                (TowerType.name buildMode) ;;
      ret (Store.mk game (Store.isRunning state)
                    (Store.lastFrameTime state) (Store.accumulator state))
  | None => ret state
  end.

Definition selectTower (towerId : Id) (state : Store.t) : Store.t :=
  Store.mk (Game.with_selectedTower (Store.game state) (Some towerId))
           (Store.isRunning state) (Store.lastFrameTime state)
           (Store.accumulator state).

Definition deselectTower (state : Store.t) : Store.t :=
  Store.mk (Game.with_selectedTower (Store.game state) None)
           (Store.isRunning state) (Store.lastFrameTime state)
           (Store.accumulator state).

Definition setHoveredTile (pos : option Cell) (state : Store.t) : Store.t :=
  Store.mk (Game.with_hoveredTile (Store.game state) pos)
           (Store.isRunning state) (Store.lastFrameTime state)
           (Store.accumulator state).

End useGameStore.

(** ** Vocabulary of the properties and concrete games *)

(** The test [mob.slowUntil && mob.slowUntil > currentTime] of [applySlow]. *)
Definition slowPending (mob : Mob.t) (currentTime : R) : bool :=
  match Mob.slowUntil mob with
  | Some slowUntil => truthy (Some slowUntil) && Rltb currentTime slowUntil
  | None => false
  end.

Definition slowedMob (slowUntil slowMultiplier : option R) : Mob.t :=
  Mob.mk (Literal "mob1") (mkVec2 0 0) 50 50 1 0 10 MobType.normal
         slowUntil slowMultiplier 0 false false.

(** The multiplier a mob holds, if any, is at least [0.1]. *)
Definition slowFloor (mob : Mob.t) : Prop :=
  forall m, Mob.slowMultiplier mob = Some m -> 0.1 <= m.

(** A live mob of the unit tests, at a position and a path progress. *)
Definition testMob (name : string) (x y pathProgress : R) : Mob.t :=
  Mob.mk (Literal name) (mkVec2 x y) 50 50 1 0 10 MobType.normal
         None None pathProgress false false.

Definition testTower : Tower.t :=
  Tower.mk (Literal "tower1") (5, 5)%Z 3 1 25 None 0 TowerType.arrow 1 50
           None None None None.

(** What no step of the tick after its first two assignments touches: the
    clock, the tick counter and the lives. *)
Definition sameClock (g g' : Game.t) : Prop :=
  Game.time g' = Game.time g /\
  Game.tickCount g' = Game.tickCount g /\
  Game.lives g' = Game.lives g.

Definition defaultPath : list Cell :=
  List.map (fun x => (Z.of_nat x, 7%Z)) (seq 0 20).

(** The game after [startGame] of the store: the initial game, playing. *)
Definition startedGame : Game.t :=
  Game.with_state createInitialGame GameState.playing.

(** The goblin [createMob] makes at the default map's spawn point. *)
Definition spawnedGoblin (currentTime rnd : R) : Mob.t :=
  Mob.mk (MobId currentTime rnd) (GridW.gridToWorld 0 7) 50 50 1 0 10
         MobType.normal None None 0 false false.

(** The first wave once it has been started at [now] and has spawned one
    mob. *)
Definition firstWaveSpawning (now : R) : Wave.t :=
  Wave.mk 1 [Entry.mk 0 MobType.normal 10 1] true false (Some now)
          (Some (now + 1)) 0 1 None.

(** What [advanceTick(startedGame, 16.666)] returns when its one call of
    [Math.random()] returns [rnd]. *)
Definition firstTickGame (rnd : R) : Game.t :=
  Game.mk (0 + 16.666) GameState.playing 0.5
    [Mob.moved (spawnedGoblin (0 + 16.666) rnd) (GridW.gridToWorld 2 7)
               (2 / 19) false]
    [] []
    (firstWaveSpawning (0 + 16.666) :: tl WAVES)
    0 10 200 100 0 createDefaultMap None None None 0 0 (0 + 1).

(** A won game: every wave started and cleared, nothing left on the field. *)
Definition victoryGame : Game.t :=
  Game.mk 500 GameState.victory 1 [] [] []
    (List.map (fun w => Wave.mk (Wave.id w) (Wave.entries w) true true
                          (Some 0) (Some 0)
                          (Z.of_nat (length (Wave.entries w))) 0 (Some true))
              WAVES)
    10 10 320 7 0 createDefaultMap None None None 0 0 30000.

(** The fifth wave, started at time 100: its first entry (three flying mobs,
    one second apart) has been spawned at 100, 101 and 102 and then left, so
    the current entry is the second one, whose delay from the wave's start is
    5 seconds. *)
Definition fifthWaveSecondEntry : Wave.t :=
  Wave.mk 5 [Entry.mk 0 MobType.flying 3 1; Entry.mk 5 MobType.normal 15 0.5]
          true false (Some 100) (Some 103) 1 0 None.

(** The game [advanceTick] hands to [updateWaves] half a second later. *)
Definition fifthWaveGame : Game.t :=
  Game.mk 103.5 GameState.playing 1 [] [] []
          (<[4%nat := fifthWaveSecondEntry]> WAVES)
          4 10 200 100 0 createDefaultMap None None None 0 0 6210.

(** A goblin on the last segment but one of the default path. *)
Definition reachingMob : Mob.t :=
  Mob.mk (MobId 3 0.25) (mkVec2 18.5 7.5) 50 50 1 0 10 MobType.normal
         None None (18 / 19) false false.

Definition reachingGame : Game.t :=
  Game.mk 10 GameState.playing 1 [reachingMob] [] [] [] 0 0 200 100 0
          createDefaultMap None None None 0 0 600.

(** Two cells are 4-adjacent: one step up, right, down or left. *)
Definition adjacent4 (a b : Cell) : Prop :=
  (Z.abs (fst a - fst b) + Z.abs (snd a - snd b) = 1)%Z.

(** A move the search may make: to a 4-adjacent cell that is walkable (on
    the map, with a [path] or [buildable] tile). *)
Definition step (map : GameMap) (a b : Cell) : Prop :=
  adjacent4 a b /\ Pathfinder.isWalkable map b = true.

(** [walk map a p b]: the sequence [p] begins at [a], ends at [b], and every
    consecutive pair of it is a [step]. *)
Inductive walk (map : GameMap) : Cell -> list Cell -> Cell -> Prop :=
| walk_here a : walk map a [a] a
| walk_step a b p c : step map a b -> walk map b p c -> walk map a (a :: p) c.

(** [reach map start k c]: [c] is [k] steps from [start]. *)
Inductive reach (map : GameMap) (start : Cell) : nat -> Cell -> Prop :=
| reach_start : reach map start O start
| reach_step k c c' :
    reach map start k c -> step map c c' -> reach map start (S k) c'.

(** All the cells of the grid. *)
Definition allCells : gset Cell :=
  list_to_set
    (flat_map (fun x => List.map (fun y => (x, y))
                          (seqZ 0%Z MAP_SIZE.height))
              (seqZ 0%Z MAP_SIZE.width)).

(** What the search keeps true of a node of the open set: its parent chain
    is a walk from [start] to its cell, [g] is the number of steps of that
    walk, and [h] is the heuristic of its cell. *)
Definition node_ok (map : GameMap) (start end_ : Cell) (n : AStarNode) : Prop :=
  walk map start (Pathfinder.reconstructPath n) (node_pos n) /\
  (Z.of_nat (length (Pathfinder.reconstructPath n)) = node_g n + 1)%Z /\
  node_h n = Pathfinder.heuristic (node_pos n) end_.

(** The open set holds a node for cell [c] with [g] at most [bound]. *)
Definition covered (openSet : list AStarNode) (c : Cell) (bound : Z) : Prop :=
  exists n, In n openSet /\ node_pos n = c /\ (node_g n <= bound)%Z.

(** The invariant of the [while] loop of [findPath]. *)
Record search_inv (map : GameMap) (start end_ : Cell)
       (openSet : list AStarNode) (closedSet : gset Cell) : Prop := {
  inv_nodes : forall n, In n openSet ->
      node_ok map start end_ n /\ Grid.isValidVec (node_pos n) = true /\
      node_pos n ∉ closedSet;
  inv_nodup : NoDup (List.map node_pos openSet);
  inv_closed_valid : forall c, c ∈ closedSet -> Grid.isValidVec c = true;
  inv_goal : end_ ∉ closedSet;
  inv_start : start ∈ closedSet \/ covered openSet start 0%Z;
  inv_succ : forall c k c',
      c ∈ closedSet -> reach map start k c -> step map c c' ->
      c' ∈ closedSet \/ covered openSet c' (Z.of_nat k + 1)%Z
}.

(** The run makes no use of the model's loop bound. *)
Definition fuel_free {A} (m : M A) : Prop := forall k, m k <> OutOfFuel.

(** A game the tick can run on: the map has a spawn point and every mob's
    path progress is in its range 0..1. *)
Definition game_wf (game : Game.t) : Prop :=
  spawnPoints (Game.map game) <> [] /\
  Forall (fun mob => 0 <= Mob.pathProgress mob <= 1) (Game.mobs game).

Definition returns {A} (m : M A) : Prop :=
  forall k, exists a k', m k = Returned a k'.

(** *** Vocabulary of the further properties *)

(** The running-minimum scan the [find...Target] loops share: the first mob
    of [mobs] whose [key] is below the bound and below every key before it. *)
Fixpoint scanMin (key : Mob.t -> R) (mobs : list Mob.t) (best : option Mob.t)
         (bound : option R) : option Mob.t :=
  match mobs with
  | [] => best
  | mob :: rest =>
      if belowBound (key mob) bound
      then scanMin key rest (Some mob) (Some (key mob))
      else scanMin key rest best bound
  end.

(** The candidates of [findTarget]. *)
Definition inRange (tower : Tower.t) (mobs : list Mob.t) : list Mob.t :=
  List.filter (inRangeOf (cellVec (Tower.tile tower)) (Tower.range tower))
              mobs.

(** [chosen] is the first of [candidates] with the least [key]. *)
Definition firstLeast (key : Mob.t -> R) (candidates : list Mob.t)
           (chosen : Mob.t) : Prop :=
  exists before after,
    candidates = before ++ chosen :: after /\
    (forall m, In m before -> key chosen < key m) /\
    (forall m, In m after -> key chosen <= key m).

(** Three mobs around [testTower]: two within its range of 3 and one out of
    it. *)
Definition fieldMobs : list Mob.t :=
  [Mob.with_hp (testMob "near" 5 6 0.3) 20 false;
   Mob.with_hp (testMob "far" 10 10 0.9) 5 false;
   Mob.with_hp (testMob "nearer" 5.5 5.5 0.5) 20 false].

(** The wave [startNextWave] marks: active, started and due at [time]. *)
Definition startedWave (wave : Wave.t) (time : R) : Wave.t :=
  Wave.mk (Wave.id wave) (Wave.entries wave) true (Wave.isComplete wave)
          (Some time) (Some time) (Wave.currentEntryIndex wave)
          (Wave.currentSpawnCount wave) (Wave.bonusGiven wave).

(** What placing towers keeps true of a game: no two towers on one tile,
    every tower on a buildable tile, and no debt. *)
Definition towers_ok (game : Game.t) : Prop :=
  List.NoDup (List.map Tower.tile (Game.towers game)) /\
  List.Forall (fun tower => isBuildable (Game.map game) (Tower.tile tower) = true)
              (Game.towers game) /\
  0 <= Game.money game.

(** What the tick needs of a mob and keeps true of it: a path progress in
    its range 0..1, a speed that is not negative and, when the mob holds a
    slow multiplier, a multiplier that is not negative. *)
Definition mob_ok (mob : Mob.t) : Prop :=
  0 <= Mob.pathProgress mob <= 1 /\
  0 <= Mob.speed mob /\
  forall m, Mob.slowMultiplier mob = Some m -> 0 <= m.

(** A game every tick can run on: the map has a spawn point and every mob is
    [mob_ok]. *)
Definition game_ok (game : Game.t) : Prop :=
  spawnPoints (Game.map game) <> [] /\
  List.Forall mob_ok (Game.mobs game).

(** The part of a game that only the player's actions change: the wave
    counter, the number of waves, the map, the speed setting, the score and
    the fields of the user interface. *)
Definition setupOf (game : Game.t) :=
  (Game.currentWave game, Game.totalWaves game, Game.map game,
   Game.speed game, Game.score game, Game.selectedTower game,
   Game.hoveredTile game, Game.buildMode game, Game.lastTickTime game,
   Game.frameTime game).

(** The mob [createMob] makes of a kind at a spawn point. *)
Definition spawnedMob (kind : MobType.t) (spawnPoint : Cell)
           (currentTime rnd : R) : Mob.t :=
  let mobDef := MOB_DEFINITIONS kind in
  Mob.mk (MobId currentTime rnd)
         (GridW.gridToWorld (IZR (fst spawnPoint)) (IZR (snd spawnPoint)))
         (MobDefinition.hp mobDef) (MobDefinition.hp mobDef)
         (MobDefinition.speed mobDef) (MobDefinition.armor mobDef)
         (MobDefinition.bounty mobDef) (MobDefinition.type mobDef)
         None None 0 false false.

(** The projectile [createProjectile] makes. *)
Definition firedProjectile (tower : Tower.t) (target : Mob.t)
           (currentTime rnd : R) : Projectile.t :=
  Projectile.mk (ProjectileId currentTime rnd) (cellVec (Tower.tile tower))
    (Mob.id target)
    (if truthy (Tower.projectileSpeed tower)
     then orElse (Tower.projectileSpeed tower) 5 else 5)
    (Tower.damage tower) (Tower.splashRadius tower) None (Tower.id tower)
    currentTime.

(** The turn of one tower in [updateTowers], at simulation time [time] and
    with the mobs [mobs]: the tower afterwards and what it has fired.  Either
    the tower is as it was and has fired nothing, and then the strategy of
    its kind finds no target, or its rate is [0], or its fire interval
    [1 / rate] has not passed since it last fired.  Or it has fired one
    projectile, from its tile and with its damage, at the target the strategy
    of its kind finds, a mob that is alive, on the way and within its range;
    then its rate is not [0], the fire interval has passed, and the tower
    records the time and the target's id. *)
Definition towerTurn (time : R) (mobs : list Mob.t) (tower : Tower.t)
           (turn : Tower.t * list Projectile.t) : Prop :=
  exists towerDef,
    TOWER_DEFINITIONS (TowerType.name (Tower.kind tower)) = Own towerDef /\
    let found :=
      findTarget tower mobs (TowerDefinition.targetingStrategy towerDef) in
    (turn = (tower, []) /\
     (found = None \/ Tower.rate tower = 0 \/
      time - Tower.lastFiredAt tower < 1 / Tower.rate tower))
    \/
    (exists target rnd,
        found = Some target /\
        In target mobs /\
        Mob.isDead target = false /\
        Mob.reachedEnd target = false /\
        GridW.distance (cellVec (Tower.tile tower)) (Mob.pos target)
        <= Tower.range tower /\
        Tower.rate tower <> 0 /\
        1 / Tower.rate tower <= time - Tower.lastFiredAt tower /\
        turn = (Tower.fired tower time (Mob.id target),
                [firedProjectile tower target time rnd])).

(** What [updateTowers] does to a tower: nothing, or it records the shot. *)
Definition towerStep (time : R) (tower tower' : Tower.t) : Prop :=
  tower' = tower \/
  exists target, tower' = Tower.fired tower time target.

(** A running game with one arrow tower at (5, 5) and one goblin within its
    range. *)
Definition guardedGame : Game.t :=
  Game.mk 10 GameState.playing 1 [testMob "mob1" 5 6 0.3] [testTower] [] []
          0 0 200 100 0 createDefaultMap None None None 0 0 600.

(** A property of mobs that damage and slows keep. *)
Definition kept_by_hits (P : Mob.t -> Prop) : Prop :=
  (forall mob damage, P mob -> P (applyDamage mob damage)) /\
  (forall mob duration amount now,
      P mob -> P (applySlow mob duration amount now)).


(** What a hit leaves of a game, and what it keeps of its mobs. *)
Record hit_frame (g g' : Game.t) : Prop := {
  hit_ids : List.map Mob.id (Game.mobs g') = List.map Mob.id (Game.mobs g);
  hit_setup : setupOf g' = setupOf g;
  hit_time : Game.time g' = Game.time g;
  hit_tickCount : Game.tickCount g' = Game.tickCount g;
  hit_state : Game.state g' = Game.state g;
  hit_lives : Game.lives g' = Game.lives g;
  hit_towers : Game.towers g' = Game.towers g;
  hit_waves : Game.waves g' = Game.waves g;
  hit_projectiles : Game.projectiles g' = Game.projectiles g;
  hit_kept : forall P, kept_by_hits P ->
               List.Forall P (Game.mobs g) -> List.Forall P (Game.mobs g');
  hit_money :
    List.Forall (fun mob => 0 <= Mob.bounty mob) (Game.mobs g) ->
    Game.money g <= Game.money g'
}.


(** One step of a mob along the path of a game: never backwards, at most two
    cells past the cell it was in, flagged [reachedEnd] only at progress 1
    and at the base; identity, hit points, speed and the dead flag are kept,
    and a dead mob or one that has reached the end is left as it is. *)
Definition mobStep (game : Game.t) (mob mob' : Mob.t) : Prop :=
  Mob.pathProgress mob <= Mob.pathProgress mob' /\
  (forall path,
     paths (Game.map game) !! O = Some path -> (1 < length path)%nat ->
     let cells := IZR (Z.of_nat (length path) - 1) in
     Mob.pathProgress mob' * cells
     <= IZR (Zfloor (Mob.pathProgress mob * cells)) + 2) /\
  (Mob.reachedEnd mob = false -> Mob.reachedEnd mob' = true ->
   Mob.pathProgress mob' = 1 /\
   Mob.pos mob' = cellVec (basePosition (Game.map game))) /\
  Mob.id mob' = Mob.id mob /\
  Mob.hp mob' = Mob.hp mob /\
  Mob.speed mob' = Mob.speed mob /\
  Mob.isDead mob' = Mob.isDead mob /\
  (Mob.isDead mob = true \/ Mob.reachedEnd mob = true -> mob' = mob).

(** The parts of the decision of [checkGameState]. *)
Definition survivors (game : Game.t) : list Mob.t :=
  List.filter (fun mob => negb (Mob.reachedEnd mob)) (Game.mobs game).

Definition livesLeft (game : Game.t) : R :=
  Game.lives game
  - INR (length (List.filter Mob.reachedEnd (Game.mobs game))).

(** No mob is left once those at the end are removed, and no projectile. *)
Definition fieldClear (game : Game.t) : bool :=
  Nat.eqb (length (survivors game)) 0
  && Nat.eqb (length (Game.projectiles game)) 0.

(** The current wave, when its clear bonus is due. *)
Definition bonusDue (game : Game.t) : option Wave.t :=
  match nthZ (Game.waves game) (Game.currentWave game) with
  | Some currentWave =>
      if Wave.isComplete currentWave && fieldClear game
         && negb (orElse (Wave.bonusGiven currentWave) false)
      then Some currentWave
      else None
  | None => None
  end.

Definition won (game : Game.t) : bool :=
  (Game.totalWaves game <=? Game.currentWave game)%Z && fieldClear game.

(** * Properties *)

(** ** Comparisons of numbers *)

Lemma Rltb_true a b : Rltb a b = true <-> a < b.
Proof. unfold Rltb. destruct (Rlt_dec a b); split; intros; try easy. Qed.

Lemma Rltb_false a b : Rltb a b = false <-> b <= a.
Proof.
  unfold Rltb. destruct (Rlt_dec a b); split; intros; try easy; lra.
Qed.

Lemma Rleb_true a b : Rleb a b = true <-> a <= b.
Proof. unfold Rleb. destruct (Rle_dec a b); split; intros; try easy. Qed.

Lemma Rleb_false a b : Rleb a b = false <-> b < a.
Proof.
  unfold Rleb. destruct (Rle_dec a b); split; intros; try easy; lra.
Qed.

Lemma Reqb_true a b : Reqb a b = true <-> a = b.
Proof. unfold Reqb. destruct (Req_dec_T a b); split; intros; easy. Qed.

Lemma Reqb_false a b : Reqb a b = false <-> a <> b.
Proof. unfold Reqb. destruct (Req_dec_T a b); split; intros; easy. Qed.

Lemma truthy_Some v : truthy (Some v) = true <-> v <> 0.
Proof.
  simpl. rewrite negb_true_iff. apply Reqb_false.
Qed.

(** Decide every comparison of numbers in the goal by linear arithmetic. *)
Ltac rcmp :=
  repeat match goal with
    | |- context [Rltb ?a ?b] =>
        first [ replace (Rltb a b) with true
                  by (symmetry; apply Rltb_true; lra)
              | replace (Rltb a b) with false
                  by (symmetry; apply Rltb_false; lra) ]
    | |- context [Rleb ?a ?b] =>
        first [ replace (Rleb a b) with true
                  by (symmetry; apply Rleb_true; lra)
              | replace (Rleb a b) with false
                  by (symmetry; apply Rleb_false; lra) ]
    | |- context [Reqb ?a ?b] =>
        first [ replace (Reqb a b) with true
                  by (symmetry; apply Reqb_true; lra)
              | replace (Reqb a b) with false
                  by (symmetry; apply Reqb_false; lra) ]
    end.

Lemma Rmax_floor_le a : 0.1 <= Rmax 0.1 a.
Proof. apply Rmax_l. Qed.

(** ** effects.ts: slows *)

Lemma isSlowed_pending mob now :
  isSlowed mob now = true -> slowPending mob now = true.
Proof.
  unfold isSlowed, slowPending. destruct (Mob.slowUntil mob); [|easy].
  intros H. apply andb_true_iff in H. tauto.
Qed.

Lemma applySlow_not_pending mob duration amount now :
  slowPending mob now = false ->
  applySlow mob duration amount now =
  Mob.with_slow mob (Some (now + duration)) (Some (Rmax 0.1 amount)).
Proof.
  unfold slowPending, applySlow. destruct (Mob.slowUntil mob) as [u|]; [|easy].
  intros ->. reflexivity.
Qed.

Lemma applySlow_cases mob duration amount now :
  applySlow mob duration amount now = mob \/
  applySlow mob duration amount now =
  Mob.with_slow mob (Some (now + duration)) (Some (Rmax 0.1 amount)).
Proof.
  unfold applySlow. destruct (Mob.slowUntil mob) as [u|]; [|now right].
  destruct (_ && _); [|now right].
  destruct (match Mob.slowMultiplier mob with Some _ => _ | None => _ end);
    [now left|].
  destruct (Rltb _ _); [now left | now right].
Qed.

(** C9.  For a mob that is currently slowed ([isSlowed]: an expiry in the
    future and a multiplier), [applySlow] stores the new slow exactly when
    its multiplier [max(0.1, amount)] is at most the active one and its expiry
    [now + duration] is at or after the active one, and returns the mob as it
    is in every other case; when no slow is pending (no expiry, or one that is
    not in the future) the new slow is always stored. *)
Theorem applySlow_stacking (mob : Mob.t) (duration amount now : R) :
  let newSlowUntil := now + duration in
  let newSlowMultiplier := Rmax 0.1 amount in
  let replaced :=
    Mob.with_slow mob (Some newSlowUntil) (Some newSlowMultiplier) in
  (forall slowUntil slowMultiplier,
      isSlowed mob now = true ->
      Mob.slowUntil mob = Some slowUntil ->
      Mob.slowMultiplier mob = Some slowMultiplier ->
      (newSlowMultiplier <= slowMultiplier /\ slowUntil <= newSlowUntil ->
       applySlow mob duration amount now = replaced) /\
      (~ (newSlowMultiplier <= slowMultiplier /\ slowUntil <= newSlowUntil) ->
       applySlow mob duration amount now = mob)) /\
  (slowPending mob now = false ->
   applySlow mob duration amount now = replaced).
Proof.
  intros newSlowUntil newSlowMultiplier replaced. split.
  - intros u m Hs Hu Hm. unfold isSlowed in Hs. rewrite Hu, Hm in Hs.
    apply andb_true_iff in Hs as [Hs Hmt].
    unfold applySlow. rewrite Hu, Hm, Hs, Hmt. cbn [andb].
    fold newSlowUntil newSlowMultiplier replaced.
    split.
    + intros [H1 H2].
      apply Rltb_false in H1. apply Rltb_false in H2. now rewrite H1, H2.
    + intros Hn.
      destruct (Rltb m newSlowMultiplier) eqn:E1; [reflexivity|].
      destruct (Rltb newSlowUntil u) eqn:E2; [reflexivity|].
      apply Rltb_false in E1. apply Rltb_false in E2. tauto.
  - apply applySlow_not_pending.
Qed.

(** Under the pairing of the two slow fields (a multiplier is stored
    whenever an expiry is, and is not [0]) a mob that is not slowed has no
    pending slow. *)
Lemma not_slowed_not_pending mob now :
  match Mob.slowMultiplier mob with
  | Some m => m <> 0
  | None => Mob.slowUntil mob = None
  end ->
  isSlowed mob now = false -> slowPending mob now = false.
Proof.
  unfold isSlowed, slowPending.
  destruct (Mob.slowMultiplier mob) as [m|].
  - intros Hm. destruct (Mob.slowUntil mob) as [u|]; [|easy].
    apply truthy_Some in Hm. rewrite Hm, andb_true_r. easy.
  - now intros ->.
Qed.

Lemma applySlow_stacking_witness :
  (* a stronger and longer slow replaces an active one *)
  applySlow (slowedMob (Some 3) (Some 0.5)) 4 0.4 1
  = slowedMob (Some (1 + 4)) (Some (Rmax 0.1 0.4))
  (* a weaker slow leaves it *)
  /\ applySlow (slowedMob (Some 3) (Some 0.5)) 4 0.6 1
     = slowedMob (Some 3) (Some 0.5)
  (* and so does a shorter one *)
  /\ applySlow (slowedMob (Some 3) (Some 0.5)) 1 0.4 1
     = slowedMob (Some 3) (Some 0.5)
  (* an expired slow is always replaced *)
  /\ applySlow (slowedMob (Some 3) (Some 0.5)) 1 0.9 3
     = slowedMob (Some (3 + 1)) (Some (Rmax 0.1 0.9)).
Proof.
  assert (Hs : isSlowed (slowedMob (Some 3) (Some 0.5)) 1 = true).
  { unfold isSlowed. cbn. rcmp. reflexivity. }
  assert (M4 : Rmax 0.1 0.4 = 0.4) by (apply Rmax_right; lra).
  assert (M6 : Rmax 0.1 0.6 = 0.6) by (apply Rmax_right; lra).
  repeat split.
  - apply (applySlow_stacking (slowedMob (Some 3) (Some 0.5)) 4 0.4 1)
      with (slowUntil := 3) (slowMultiplier := 0.5); try easy.
    rewrite M4. lra.
  - apply (applySlow_stacking (slowedMob (Some 3) (Some 0.5)) 4 0.6 1)
      with (slowUntil := 3) (slowMultiplier := 0.5); try easy.
    rewrite M6. lra.
  - apply (applySlow_stacking (slowedMob (Some 3) (Some 0.5)) 1 0.4 1)
      with (slowUntil := 3) (slowMultiplier := 0.5); try easy.
    lra.
  - apply (applySlow_stacking (slowedMob (Some 3) (Some 0.5)) 1 0.9 3).
    unfold slowPending. cbn. rcmp. reflexivity.
Defined.

Lemma updateMobSpeed_floor mob t :
  slowFloor mob -> 0 <= Mob.speed mob ->
  0.1 * Mob.speed mob <= updateMobSpeed mob t.
Proof.
  intros Hf Hs. unfold updateMobSpeed.
  destruct (match Mob.slowUntil mob with Some _ => _ | None => _ end);
    [lra|].
  destruct (Mob.slowMultiplier mob) as [m|] eqn:E; [|lra].
  specialize (Hf m E).
  destruct (truthy (Some m)); [nra | lra].
Qed.

(** C10, as the code has it.  Whenever [applySlow] stores a slow, its
    multiplier is [max(0.1, amount)], which is at least [0.1] whatever the
    amount; otherwise it returns the mob with the slow it already had.  So if
    the multiplier the mob held before the call (if any) was at least [0.1],
    the one it holds afterwards (if any) is too, and the speed
    [updateMobSpeed] then computes is at least 10% of a non-negative base
    speed. *)
Theorem applySlow_floor (mob : Mob.t) (duration amount now : R) :
  (applySlow mob duration amount now = mob \/
   Mob.slowMultiplier (applySlow mob duration amount now)
   = Some (Rmax 0.1 amount)) /\
  0.1 <= Rmax 0.1 amount /\
  (slowFloor mob ->
   slowFloor (applySlow mob duration amount now) /\
   forall t, 0 <= Mob.speed mob ->
     0.1 * Mob.speed (applySlow mob duration amount now)
     <= updateMobSpeed (applySlow mob duration amount now) t).
Proof.
  split; [|split].
  - destruct (applySlow_cases mob duration amount now) as [-> | ->];
      [now left | now right].
  - apply Rmax_floor_le.
  - intros Hf.
    assert (Hf' : slowFloor (applySlow mob duration amount now)).
    { destruct (applySlow_cases mob duration amount now) as [-> | ->];
        [exact Hf|].
      intros m. cbn. intros [= <-]. apply Rmax_floor_le. }
    split; [exact Hf'|].
    intros t Hs. apply updateMobSpeed_floor; [exact Hf'|].
    destruct (applySlow_cases mob duration amount now) as [-> | ->];
      [exact Hs | exact Hs].
Qed.

Lemma applySlow_floor_witness :
  slowFloor (applySlow (slowedMob None None) 3 (-2) 0)
  /\ Mob.slowMultiplier (applySlow (slowedMob None None) 3 (-2) 0)
     = Some (Rmax 0.1 (-2)).
Proof.
  split.
  - apply (applySlow_floor (slowedMob None None) 3 (-2) 0).
    intros m. cbn. discriminate.
  - reflexivity.
Defined.

(** C10, as stated, fails: a mob that already holds an active slow with a
    multiplier below [0.1] keeps it, so after the call the stored multiplier
    is [0.05]. *)
Lemma applySlow_keeps_lower_multiplier :
  Mob.slowMultiplier (applySlow (slowedMob (Some 10) (Some 0.05)) 1 0.5 0)
  = Some 0.05
  /\ ~ 0.1 <= 0.05.
Proof.
  split; [|lra].
  unfold applySlow. cbn.
  assert (M : Rmax 0.1 0.5 = 0.5) by (apply Rmax_right; lra).
  rewrite M. rcmp. reflexivity.
Qed.

(** ** targeting.ts: splash damage *)

Lemma inRangeOf_true center radius mob :
  inRangeOf center radius mob = true <->
  Mob.isDead mob = false /\ Mob.reachedEnd mob = false /\
  GridW.distance center (Mob.pos mob) <= radius.
Proof.
  unfold inRangeOf. rewrite !andb_true_iff, !negb_true_iff, Rleb_true. tauto.
Qed.

Lemma splashLoop_filter center radius baseDamage mobs results :
  splashLoop center radius baseDamage mobs results =
  results ++
  List.map (fun mob =>
              (mob, splashDamageAt radius baseDamage
                      (GridW.distance center (Mob.pos mob))))
           (List.filter (inRangeOf center radius) mobs).
Proof.
  revert results. induction mobs as [|mob rest IH]; intros results.
  - simpl. now rewrite app_nil_r.
  - cbn [splashLoop List.filter].
    assert (Hp : inRangeOf center radius mob
                 = negb (Mob.isDead mob || Mob.reachedEnd mob)
                   && Rleb (GridW.distance center (Mob.pos mob)) radius).
    { unfold inRangeOf. now destruct (Mob.isDead mob), (Mob.reachedEnd mob). }
    rewrite Hp.
    destruct (Mob.isDead mob || Mob.reachedEnd mob); cbn [negb andb];
      [apply IH|].
    destruct (Rleb _ radius); [|apply IH].
    cbn [List.map]. rewrite IH, <- app_assoc. reflexivity.
Qed.


(** ** targeting.ts: findTarget *)

Lemma scanFirst_spec mobs best bestProgress :
  (scanFirst mobs best bestProgress = best /\
   forall m, In m mobs -> Mob.pathProgress m <= bestProgress)
  \/
  (exists before chosen after,
      mobs = before ++ chosen :: after /\
      scanFirst mobs best bestProgress = Some chosen /\
      bestProgress < Mob.pathProgress chosen /\
      (forall m, In m before ->
                 Mob.pathProgress m < Mob.pathProgress chosen) /\
      (forall m, In m after ->
                 Mob.pathProgress m <= Mob.pathProgress chosen)).
Proof.
  revert best bestProgress.
  induction mobs as [|mob rest IH]; intros best bestProgress; simpl.
  - left. split; [reflexivity | intros m []].
  - destruct (Rltb bestProgress (Mob.pathProgress mob)) eqn:E.
    + apply Rltb_true in E.
      destruct (IH (Some mob) (Mob.pathProgress mob))
        as [[Hr Hle] | (b & c & a & -> & Hr & Hlt & Hb & Ha)].
      * right. exists [], mob, rest. simpl. rewrite Hr.
        repeat split; try easy.
      * right. exists (mob :: b), c, a. simpl. rewrite Hr.
        repeat split; try easy; try lra.
        intros m [<- | Hin]; [lra | now apply Hb].
    + apply Rltb_false in E.
      destruct (IH best bestProgress)
        as [[Hr Hle] | (b & c & a & -> & Hr & Hlt & Hb & Ha)].
      * left. split; [exact Hr|]. intros m [<- | Hin]; [lra | now apply Hle].
      * right. exists (mob :: b), c, a. simpl. rewrite Hr.
        repeat split; try easy.
        intros m [<- | Hin]; [lra | now apply Hb].
Qed.

(** C7.  The candidates of [findTarget] are the mobs that are not dead, have
    not reached the end and lie within Euclidean distance [tower.range] of the
    tower's tile.  With no candidate the result is no target, whatever the
    strategy.  With strategy [first] and candidates whose path progress is
    above the scan's initial best of [-1] (as every progress in the range
    0..1 of the data model is), the result is a candidate of maximum path
    progress, and every candidate scanned before it has strictly less: ties
    go to the first one met. *)
Theorem findTarget_first (tower : Tower.t) (mobs : list Mob.t) :
  let candidates :=
    List.filter (inRangeOf (cellVec (Tower.tile tower)) (Tower.range tower))
                mobs in
  (forall mob, In mob candidates <->
     In mob mobs /\ Mob.isDead mob = false /\ Mob.reachedEnd mob = false /\
     GridW.distance (cellVec (Tower.tile tower)) (Mob.pos mob)
     <= Tower.range tower) /\
  (forall strategy, candidates = [] -> findTarget tower mobs strategy = None) /\
  (candidates <> [] ->
   (forall mob, In mob candidates -> -1 < Mob.pathProgress mob) ->
   exists before chosen after,
     candidates = before ++ chosen :: after /\
     findTarget tower mobs TargetingStrategy.first = Some chosen /\
     (forall m, In m candidates ->
                Mob.pathProgress m <= Mob.pathProgress chosen) /\
     (forall m, In m before ->
                Mob.pathProgress m < Mob.pathProgress chosen)).
Proof.
  intros candidates. split; [|split].
  - intros mob. unfold candidates. rewrite filter_In, inRangeOf_true. tauto.
  - intros strategy E. unfold findTarget. fold candidates. now rewrite E.
  - intros Hne Hp. unfold findTarget. fold candidates.
    destruct candidates as [|c0 cs] eqn:E; [easy|]. rewrite <- E in *.
    unfold findFirstTarget.
    destruct (scanFirst_spec candidates None (-1))
      as [[Hr Hle] | (b & c & a & Hl & Hr & Hlt & Hb & Ha)].
    + exfalso. assert (Hin : In c0 candidates) by (rewrite E; now left).
      specialize (Hp _ Hin). specialize (Hle _ Hin). lra.
    + exists b, c, a. repeat split; try easy.
      intros m Hin. rewrite Hl in Hin. apply in_app_or in Hin.
      destruct Hin as [Hin | [<- | Hin]];
        [apply Hb in Hin; lra | lra | now apply Ha].
Qed.

Lemma sqrt_le_bound x r : 0 <= r -> x <= r * r -> sqrt x <= r.
Proof.
  intros Hr Hx. rewrite <- (sqrt_square r Hr). now apply sqrt_le_1_alt.
Qed.

Lemma sqrt_gt_bound x r : 0 <= r -> r * r < x -> r < sqrt x.
Proof.
  intros Hr Hx. rewrite <- (sqrt_square r Hr) at 1.
  apply sqrt_lt_1; nra.
Qed.

Lemma testMob_inRange name x y p :
  (5 - x) * (5 - x) + (5 - y) * (5 - y) <= 9 ->
  inRangeOf (cellVec (Tower.tile testTower)) (Tower.range testTower)
            (testMob name x y p) = true.
Proof.
  intros H. apply inRangeOf_true. repeat split.
  unfold GridW.distance. cbn. apply sqrt_le_bound; lra.
Qed.

Lemma testMob_outOfRange name x y p :
  9 < (5 - x) * (5 - x) + (5 - y) * (5 - y) ->
  inRangeOf (cellVec (Tower.tile testTower)) (Tower.range testTower)
            (testMob name x y p) = false.
Proof.
  intros H. unfold inRangeOf. cbn [testMob Mob.isDead Mob.reachedEnd negb andb].
  apply Rleb_false. unfold GridW.distance. cbn. apply sqrt_gt_bound; lra.
Qed.

Lemma findTarget_first_witness :
  findTarget testTower
    [testMob "mob2" 5 6 0.3; testMob "mob1" 6 6 0.5; testMob "mob3" 4 5 0.5]
    TargetingStrategy.first
  = Some (testMob "mob1" 6 6 0.5).
Proof.
  set (mobs := [testMob "mob2" 5 6 0.3; testMob "mob1" 6 6 0.5;
                testMob "mob3" 4 5 0.5]).
  assert (E : List.filter
                (inRangeOf (cellVec (Tower.tile testTower))
                           (Tower.range testTower)) mobs = mobs).
  { unfold mobs. cbn [List.filter].
    rewrite !testMob_inRange by lra. reflexivity. }
  destruct (findTarget_first testTower mobs) as (_ & _ & H).
  rewrite E in H.
  destruct H as (before & chosen & after & Hl & Hr & Hmax & Hbefore).
  - discriminate.
  - intros mob [<- | [<- | [<- | []]]]; cbn; lra.
  - rewrite Hr. f_equal.
    destruct before as [|b0 [|b1 [|b2 before]]].
    + injection Hl as <- _.
      specialize (Hmax (testMob "mob1" 6 6 0.5)). cbn in Hmax.
      exfalso. assert (0.5 <= 0.3) by (apply Hmax; right; now left). lra.
    + injection Hl as _ <- _. reflexivity.
    + injection Hl as <- <- <- _.
      specialize (Hbefore (testMob "mob1" 6 6 0.5)). cbn in Hbefore.
      exfalso. assert (0.5 < 0.5) by (apply Hbefore; right; now left). lra.
    + exfalso. apply (f_equal (@length _)) in Hl.
      rewrite length_app in Hl. cbn in Hl. lia.
Defined.

(** The unit test of the targeting system: the second mob is out of range. *)
Example findTarget_unit_test :
  findTarget testTower
    [testMob "mob1" 6 6 0.5; testMob "mob2" 10 10 0.3]
    TargetingStrategy.first
  = Some (testMob "mob1" 6 6 0.5).
Proof.
  unfold findTarget. cbn [List.filter].
  rewrite testMob_inRange by lra. rewrite testMob_outOfRange by lra.
  unfold findFirstTarget. cbn. rcmp. reflexivity.
Qed.


(** ** sim.ts: placeTower *)

Lemma isBuildable_true m pos :
  isBuildable m pos = true <->
  Grid.isValidVec pos = true /\ tileAt m pos = Some TileType.buildable.
Proof.
  unfold isBuildable. destruct (Grid.isValidVec pos); cbn [negb].
  - destruct (tileAt m pos) as [[]|]; split; intros; try easy;
      destruct H; try discriminate.
  - split; intros; try discriminate. destruct H; discriminate.
Qed.

Lemma occupies_true pos t : occupies pos t = true <-> Tower.tile t = pos.
Proof.
  unfold occupies. rewrite andb_true_iff, !Z.eqb_eq.
  destruct (Tower.tile t), pos; cbn. split; [intros []; congruence|].
  intros [= -> ->]. easy.
Qed.

Lemma find_occupies_None pos towers :
  List.find (occupies pos) towers = None <->
  forall t, In t towers -> Tower.tile t <> pos.
Proof.
  split.
  - intros H t Hin Ht. apply occupies_true in Ht.
    now rewrite (find_none _ _ H t Hin) in Ht.
  - intros H. destruct (List.find (occupies pos) towers) as [t|] eqn:E;
      [|reflexivity].
    apply find_some in E as [Hin Ho]. apply occupies_true in Ho.
    now apply H in Hin.
Qed.

Lemma isBuildable_call_true m pos k :
  isBuildable m pos = true -> isBuildable_call m pos k = Returned true k.
Proof.
  intros Hb. unfold isBuildable_call. rewrite Hb.
  apply isBuildable_true in Hb as [-> Htile].
  unfold tileAt in Htile.
  now destruct (nth_error (tiles m) (Z.to_nat (snd pos))).
Qed.

Lemma isBuildable_call_wf m pos k :
  map_wf m -> isBuildable_call m pos k = Returned (isBuildable m pos) k.
Proof.
  intros [Hrows _]. unfold isBuildable_call.
  destruct (Grid.isValidVec pos) eqn:Hvalid; [|reflexivity].
  destruct (nth_error (tiles m) (Z.to_nat (snd pos))) eqn:Hrow;
    [reflexivity|].
  apply nth_error_None in Hrow.
  unfold Grid.isValidVec, Grid.isValid in Hvalid.
  rewrite !andb_true_iff, !Z.leb_le, !Z.ltb_lt in Hvalid. lia.
Qed.

Lemma isBuildable_call_cases m pos k :
  isBuildable_call m pos k = Returned (isBuildable m pos) k \/
  isBuildable_call m pos k = Raised.
Proof.
  unfold isBuildable_call.
  destruct (Grid.isValidVec pos); [|now left].
  destruct (nth_error _ _); [now left | now right].
Qed.

(** [TOWER_DEFINITIONS[key]] for the names of [Object.prototype]. *)
Lemma TOWER_DEFINITIONS_inherited key :
  In key Object_prototype -> TOWER_DEFINITIONS key = Inherited.
Proof.
  unfold Object_prototype. intros Hin.
  repeat (destruct Hin as [<- | Hin]; [reflexivity|]). destruct Hin.
Qed.

(** C3, as the code has it.  [placeTower] does raise.  The type is looked up
    in a plain object, so for a type that names a member of
    [Object.prototype] (['constructor'], ['toString'], ['__proto__'] ...) the
    test [!towerDef] does not reject it and [money < towerDef.baseCost] is
    false; on a buildable tile that no tower occupies, whatever the money,
    the tower is then built from [towerDef.baseStats], which is [undefined],
    and reading its [range] raises a [TypeError]. *)
Theorem placeTower_raises_on_inherited_key (random : nat -> R)
        (game : Game.t) (pos : Cell) (towerType : string) (k : nat) :
  In towerType Object_prototype ->
  isBuildable (Game.map game) pos = true ->
  (forall t, In t (Game.towers game) -> Tower.tile t <> pos) ->
  placeTower random game pos towerType k = Raised.
Proof.
  intros Hkey Hb Hfree. unfold placeTower.
  rewrite (TOWER_DEFINITIONS_inherited _ Hkey).
  unfold bind at 1. rewrite (isBuildable_call_true _ _ _ Hb). cbn [negb].
  apply find_occupies_None in Hfree. rewrite Hfree. reflexivity.
Qed.

Lemma createDefaultMap_wf : map_wf createDefaultMap.
Proof.
  split; [reflexivity|].
  change (tiles createDefaultMap) with defaultTiles.
  repeat constructor.
Qed.

(** The initial game, the buildable tile (1, 1) of the unit test and the
    type ['constructor']. *)
Lemma placeTower_raises_on_inherited_key_witness :
  placeTower (fun _ => 0) createInitialGame (1, 1)%Z "constructor" O = Raised.
Proof.
  apply (placeTower_raises_on_inherited_key (fun _ => 0) createInitialGame
           (1, 1)%Z "constructor" O).
  - left. reflexivity.
  - vm_compute. reflexivity.
  - intros t [].
Defined.

(** The rest of C3 holds of the code: on a map of the full extent and for a
    type that names no member of [Object.prototype], [placeTower] returns.
    If the type is a key of the table, the money covers its base cost, the
    position is a valid cell whose tile is buildable and no tower stands on
    it, the result is the game with one more tower at the end of the list
    (tier 1, on that cell, of that type, with the statistics of the type's
    definition, never fired) and with the money lowered by the base cost;
    under any other condition the result is the game as it was. *)
Lemma placeTower_known_type (random : nat -> R) (game : Game.t) (pos : Cell)
        (towerType : string) (k : nat) :
  map_wf (Game.map game) ->
  TOWER_DEFINITIONS towerType <> Inherited ->
  let accepted towerDef :=
    TOWER_DEFINITIONS towerType = Own towerDef /\
    TowerDefinition.baseCost towerDef <= Game.money game /\
    Grid.isValidVec pos = true /\
    tileAt (Game.map game) pos = Some TileType.buildable /\
    (forall t, In t (Game.towers game) -> Tower.tile t <> pos) in
  (forall towerDef, accepted towerDef ->
     exists tower game',
       placeTower random game pos towerType k = Returned game' (S k) /\
       Game.towers game' = Game.towers game ++ [tower] /\
       Game.money game' = Game.money game - TowerDefinition.baseCost towerDef /\
       Tower.tier tower = 1%Z /\
       Tower.tile tower = pos /\
       Tower.kind tower = TowerDefinition.type towerDef /\
       Tower.cost tower = TowerDefinition.baseCost towerDef /\
       Tower.lastFiredAt tower = 0 /\
       let stats := TowerDefinition.baseStats towerDef in
       Tower.range tower = BaseStats.range stats /\
       Tower.rate tower = BaseStats.rate stats /\
       Tower.damage tower = BaseStats.damage stats /\
       Tower.projectileSpeed tower = BaseStats.projectileSpeed stats /\
       Tower.splashRadius tower = BaseStats.splashRadius stats /\
       Tower.slowDuration tower = BaseStats.slowDuration stats /\
       Tower.slowAmount tower = BaseStats.slowAmount stats) /\
  ((forall towerDef, ~ accepted towerDef) ->
   placeTower random game pos towerType k = Returned game k) /\
  (exists game' k',
     placeTower random game pos towerType k = Returned game' k').
Proof.
  intros Hwf Hkey accepted. split; [|split].
  - intros towerDef (Hdef & Hmoney & Hvalid & Htile & Hfree).
    unfold placeTower. rewrite Hdef.
    apply Rltb_false in Hmoney. rewrite Hmoney.
    assert (Hb : isBuildable (Game.map game) pos = true)
      by now apply isBuildable_true.
    unfold bind at 1. rewrite (isBuildable_call_true _ _ _ Hb). cbn [negb].
    apply find_occupies_None in Hfree. rewrite Hfree.
    unfold bind, Math_random, ret.
    eexists. eexists. split; [reflexivity|].
    cbn. repeat split.
  - intros Hno. unfold placeTower.
    destruct (TOWER_DEFINITIONS towerType) as [towerDef| |] eqn:Hdef;
      [|now destruct Hkey|reflexivity].
    destruct (Rltb _ _) eqn:Hmoney; [reflexivity|].
    unfold bind at 1. rewrite (isBuildable_call_wf _ _ _ Hwf).
    destruct (isBuildable _ _) eqn:Hb; [|reflexivity]. cbn [negb].
    destruct (List.find _ _) eqn:Hfree; [reflexivity|].
    exfalso. apply (Hno towerDef). unfold accepted.
    apply Rltb_false in Hmoney. apply isBuildable_true in Hb.
    pose proof (proj1 (find_occupies_None _ _) Hfree). tauto.
  - unfold placeTower.
    destruct (TOWER_DEFINITIONS towerType) as [towerDef| |];
      [|now destruct Hkey|now exists game, k].
    destruct (Rltb _ _); [now exists game, k|].
    unfold bind at 1. rewrite (isBuildable_call_wf _ _ _ Hwf).
    destruct (negb _); [now exists game, k|].
    destruct (List.find _ _); [now exists game, k|].
    unfold bind, Math_random, ret. eexists. eexists. reflexivity.
Qed.

(** The two placement tests of the unit tests: a buildable cell off the
    path, and a cell off the map. *)
Lemma placeTower_unit_tests :
  (exists tower game',
     placeTower (fun _ => 0) createInitialGame (1, 1)%Z "arrow" O
     = Returned game' 1%nat /\
     Game.towers game' = [tower] /\
     Game.money game' = 200 - 20 /\
     Tower.tile tower = (1, 1)%Z /\
     Tower.kind tower = TowerType.arrow /\
     Tower.tier tower = 1%Z)
  /\ placeTower (fun _ => 0) createInitialGame (-1, -1)%Z "arrow" O
     = Returned createInitialGame O.
Proof.
  split.
  - destruct (placeTower_known_type (fun _ => 0) createInitialGame (1, 1)%Z
                "arrow" O createDefaultMap_wf) as [H _]; [discriminate|].
    destruct (H arrowDefinition)
      as (tower & game' & Hr & Ht & Hm & Htier & Htile & Hkind & _).
    + repeat split.
      * cbn. lra.
      * intros t [].
    + exists tower, game'. repeat split; assumption.
  - apply (placeTower_known_type (fun _ => 0) createInitialGame (-1, -1)%Z
             "arrow" O createDefaultMap_wf); [discriminate|].
    intros towerDef (_ & _ & Hvalid & _). discriminate.
Qed.

(** ** sim.ts: the tick *)

Lemma bind_Returned {A B} (m : M A) (f : A -> M B) k b k2 :
  bind m f k = Returned b k2 <->
  exists a k1, m k = Returned a k1 /\ f a k1 = Returned b k2.
Proof.
  unfold bind. destruct (m k) as [a k1| |]; split.
  - intros H. now exists a, k1.
  - now intros (a' & k1' & [= -> ->] & H).
  - discriminate.
  - now intros (a' & k1' & [=] & _).
  - discriminate.
  - now intros (a' & k1' & [=] & _).
Qed.

Lemma ret_Returned {A} (a b : A) k k' :
  ret a k = Returned b k' <-> a = b /\ k = k'.
Proof. unfold ret. split; [now intros [= -> ->] | now intros [-> ->]]. Qed.

(** Invert a run of monadic code that returned. *)
Ltac inv_run :=
  repeat match goal with
    | H : bind _ _ _ = Returned _ _ |- _ =>
        apply bind_Returned in H; destruct H as (? & ? & ? & H)
    | H : ret _ _ = Returned _ _ |- _ =>
        apply ret_Returned in H; destruct H as [? ?]; subst
    | H : throw _ = Returned _ _ |- _ => discriminate H
    | H : Raised = Returned _ _ |- _ => discriminate H
    | H : OutOfFuel = Returned _ _ |- _ => discriminate H
    end.

Lemma sameClock_refl g : sameClock g g.
Proof. now repeat split. Qed.

Lemma sameClock_trans g1 g2 g3 :
  sameClock g1 g2 -> sameClock g2 g3 -> sameClock g1 g3.
Proof. unfold sameClock. intuition congruence. Qed.

Lemma updateWaves_clock random g dt k g' k' :
  updateWaves random g dt k = Returned g' k' -> sameClock g g'.
Proof.
  unfold updateWaves, createMob. intros H.
  repeat match type of H with
         | context [if ?b then _ else _] => destruct b
         | context [match ?x with _ => _ end] => destruct x
         end;
    inv_run; try discriminate; now repeat split.
Qed.

Lemma updateMobs_clock g dt k g' k' :
  updateMobs g dt k = Returned g' k' -> sameClock g g'.
Proof. unfold updateMobs. intros H. inv_run. now repeat split. Qed.

Lemma updateTowers_clock random g dt k g' k' :
  updateTowers random g dt k = Returned g' k' -> sameClock g g'.
Proof. unfold updateTowers. intros H. inv_run. now repeat split. Qed.

Lemma applySplashResult_clock g result : sameClock g (applySplashResult g result).
Proof.
  unfold applySplashResult. destruct (findIndex _ _); [|apply sameClock_refl].
  destruct (Mob.isDead _); now repeat split.
Qed.

Lemma applyProjectileHit_clock g projectile target tower :
  sameClock g (applyProjectileHit g projectile target tower).
Proof.
  unfold applyProjectileHit. destruct (truthy _).
  - generalize (applySplashDamage (Projectile.pos projectile)
                  (orElse (Projectile.splashRadius projectile) 0)
                  (Projectile.damage projectile)
                  (getMobsInSplashRadius (Projectile.pos projectile)
                     (orElse (Projectile.splashRadius projectile) 0)
                     (Game.mobs g))).
    intros results. revert g.
    induction results as [|result rest IH]; intros g; cbn [fold_left].
    + apply sameClock_refl.
    + eapply sameClock_trans; [apply applySplashResult_clock | apply IH].
  - destruct (findIndex _ _); [|apply sameClock_refl].
    destruct (Mob.isDead _); now repeat split.
Qed.

Lemma updateProjectile_clock dt g projectile :
  sameClock g (fst (updateProjectile dt g projectile)).
Proof.
  unfold updateProjectile.
  destruct (List.find _ (Game.mobs g)); [|apply sameClock_refl].
  destruct (Mob.isDead _); [apply sameClock_refl|].
  destruct (Rleb _ _); [|apply sameClock_refl].
  destruct (List.find _ (Game.towers g)); [|apply sameClock_refl].
  apply applyProjectileHit_clock.
Qed.

Lemma projectilesLoop_clock dt pending g kept :
  sameClock g (projectilesLoop dt pending g kept).
Proof.
  revert g kept. induction pending as [|p rest IH]; intros g kept;
    cbn [projectilesLoop].
  - now repeat split.
  - pose proof (updateProjectile_clock dt g p) as H.
    destruct (updateProjectile dt g p) as [g1 stays]. cbn [fst] in H.
    eapply sameClock_trans; [exact H | apply IH].
Qed.

Lemma updateProjectiles_clock g dt : sameClock g (updateProjectiles g dt).
Proof. apply projectilesLoop_clock. Qed.

Lemma cleanupEntities_clock g : sameClock g (cleanupEntities g).
Proof. now repeat split. Qed.

Lemma beforeGameStateCheck_clock random g dt k g' k' :
  beforeGameStateCheck random g dt k = Returned g' k' ->
  Game.time g' = Game.time g + dt /\
  Game.tickCount g' = (Game.tickCount g + 1)%Z /\
  Game.lives g' = Game.lives g.
Proof.
  unfold beforeGameStateCheck. intros H. inv_run.
  match goal with H : updateWaves _ _ _ _ = _ |- _ =>
    apply updateWaves_clock in H as (T1 & C1 & L1) end.
  match goal with H : updateMobs _ _ _ = _ |- _ =>
    apply updateMobs_clock in H as (T2 & C2 & L2) end.
  match goal with H : updateTowers _ _ _ _ = _ |- _ =>
    apply updateTowers_clock in H as (T3 & C3 & L3) end.
  match goal with |- context [cleanupEntities (updateProjectiles ?g ?d)] =>
    destruct (updateProjectiles_clock g d) as (T4 & C4 & L4);
    destruct (cleanupEntities_clock (updateProjectiles g d)) as (T5 & C5 & L5)
  end.
  cbn in T1, C1, L1. repeat split; congruence.
Qed.

Lemma fold_lives_count (mobs : list Mob.t) (lives : R) :
  fold_left (fun lives _mob => lives - 1) mobs lives
  = lives - INR (length mobs).
Proof.
  revert lives. induction mobs as [|m rest IH]; intros lives.
  - cbn. lra.
  - cbn [fold_left]. rewrite IH, length_cons, S_INR. lra.
Qed.

Lemma checkGameState_spec g :
  let g' := checkGameState g in
  Game.time g' = Game.time g /\
  Game.tickCount g' = Game.tickCount g /\
  Game.lives g'
  = Game.lives g - INR (length (List.filter Mob.reachedEnd (Game.mobs g))) /\
  Game.mobs g'
  = List.filter (fun mob => negb (Mob.reachedEnd mob)) (Game.mobs g).
Proof.
  unfold checkGameState.
  repeat match goal with
         | |- context [if ?b then _ else _] => destruct b
         | |- context [match nthZ ?l ?i with _ => _ end] => destruct (nthZ l i)
         end;
    cbn; rewrite fold_lives_count; now repeat split.
Qed.

Lemma advanceTick_clock random game dt k game' k' :
  advanceTick random game dt k = Returned game' k' ->
  Game.time game' = Game.time game + dt /\
  Game.tickCount game' = (Game.tickCount game + 1)%Z.
Proof.
  unfold advanceTick. intros H. inv_run.
  match goal with H : beforeGameStateCheck _ _ _ _ = _ |- _ =>
    apply beforeGameStateCheck_clock in H as (T & C & _) end.
  match goal with |- context [checkGameState ?g] =>
    destruct (checkGameState_spec g) as (T' & C' & _) end.
  split; congruence.
Qed.

(** C6.  Whenever [advanceTick] returns, the lives of the result are those of
    the input less the number of mobs flagged [reachedEnd] in the game handed
    to [checkGameState] (the state at game-state evaluation), and no mob of
    the result is flagged [reachedEnd]. *)
Theorem advanceTick_lives (random : nat -> R) (game : Game.t) (dt : R)
        (k : nat) (game' : Game.t) (k' : nat) :
  advanceTick random game dt k = Returned game' k' ->
  exists evaluated,
    beforeGameStateCheck random game dt k = Returned evaluated k' /\
    game' = checkGameState evaluated /\
    Game.lives game'
    = Game.lives game
      - INR (length (List.filter Mob.reachedEnd (Game.mobs evaluated))) /\
    Forall (fun mob => Mob.reachedEnd mob = false) (Game.mobs game').
Proof.
  unfold advanceTick. intros H. inv_run.
  match goal with H : beforeGameStateCheck _ _ _ _ = Returned ?e _ |- _ =>
    exists e; pose proof (beforeGameStateCheck_clock _ _ _ _ _ _ H)
      as (_ & _ & L);
    destruct (checkGameState_spec e) as (_ & _ & L' & Hm)
  end.
  repeat split; try assumption.
  - congruence.
  - rewrite Hm. apply List.Forall_forall. intros mob Hin.
    apply filter_In in Hin as [_ Hin]. now apply negb_true_iff.
Qed.

(** *** The tick on concrete games *)

Lemma default_paths : paths createDefaultMap = [defaultPath].
Proof. vm_compute. reflexivity. Qed.

Lemma cleanup_no_slow mob t :
  Mob.slowUntil mob = None -> cleanupExpiredEffects mob t = mob.
Proof. unfold cleanupExpiredEffects. now intros ->. Qed.

Lemma speed_no_slow mob t :
  Mob.slowUntil mob = None -> Mob.slowMultiplier mob = None ->
  updateMobSpeed mob t = Mob.speed mob.
Proof. unfold updateMobSpeed. now intros -> ->. Qed.

Lemma distance_unit_step (x y : Z) :
  GridW.distance (cellVec (x, y)) (cellVec (x + 1, y)%Z) = 1.
Proof.
  unfold GridW.distance. cbn. rewrite plus_IZR.
  replace ((IZR x - (IZR x + 1)) * (IZR x - (IZR x + 1))
           + (IZR y - IZR y) * (IZR y - IZR y)) with (1 * 1) by lra.
  apply sqrt_square. lra.
Qed.

Lemma updateWaves_startedGame random :
  updateWaves random (Game.with_time startedGame (0 + 16.666) (0 + 1)) 16.666 O
  = Returned
      (Game.with_waves
         (Game.with_mobs (Game.with_time startedGame (0 + 16.666) (0 + 1))
                         [spawnedGoblin (0 + 16.666) (random O)])
         (firstWaveSpawning (0 + 16.666) :: tl WAVES)) 1%nat.
Proof.
  unfold updateWaves.
  cbn [Game.totalWaves Game.currentWave Game.with_time startedGame
       Game.with_state createInitialGame Game.waves Game.time Game.mobs
       Game.map].
  change (Z.of_nat (length WAVES) <=? 0)%Z with false. cbv iota.
  change (nthZ WAVES 0)
    with (Some (initialWave 1 [Entry.mk 0 MobType.normal 10 1])).
  cbv iota beta.
  cbn [initialWave Wave.isComplete Wave.isActive negb Wave.id Wave.entries
       Wave.bonusGiven Wave.currentEntryIndex Wave.nextSpawnTime
       Wave.currentSpawnCount Wave.startTime].
  change (nthZ [Entry.mk 0 MobType.normal 10 1] 0)
    with (Some (Entry.mk 0 MobType.normal 10 1)).
  cbv iota beta.
  cbn [Entry.delay Entry.count Entry.kind Entry.spacing orElse truthy].
  rcmp. cbn [negb andb].
  change (0 <? 10)%Z with true. cbv iota.
  unfold createMob, bind, Math_random, ret.
  change (spawnPoints createDefaultMap !! O) with (Some (0, 7)%Z).
  cbv iota beta. reflexivity.
Qed.

Lemma updateMob_spawnedGoblin game now rnd k :
  Game.map game = createDefaultMap ->
  updateMob game 16.666 (spawnedGoblin now rnd) k
  = Returned (Mob.moved (spawnedGoblin now rnd) (GridW.gridToWorld 2 7)
                        (2 / 19) false) k.
Proof.
  intros Hmap. unfold updateMob.
  cbn [spawnedGoblin Mob.isDead Mob.reachedEnd orb].
  rewrite Hmap, default_paths.
  cbn [lookup list_lookup].
  rewrite cleanup_no_slow by reflexivity.
  rewrite speed_no_slow by reflexivity.
  change (length defaultPath) with 20%nat.
  change (Z.of_nat 20 - 1)%Z with 19%Z.
  change (1 <? 20)%nat with true. cbv iota.
  cbn [Mob.pathProgress Mob.speed].
  rewrite Rmult_0_l.
  rewrite (ZfloorZ 0).
  change (Z.min (0 + 1) 19) with 1%Z.
  change (Z.min (1 + 1) 19) with 2%Z.
  change (nthZ defaultPath 0) with (Some (0, 7)%Z).
  change (nthZ defaultPath 1) with (Some (0 + 1, 7)%Z).
  change (nthZ defaultPath 2) with (Some (2, 7)%Z).
  cbv iota beta.
  rewrite distance_unit_step.
  change (Mob.speed (spawnedGoblin now rnd)) with 1.
  rcmp. cbv iota.
  change (19 <=? 2)%Z with false. cbv iota.
  reflexivity.
Qed.

Lemma advanceTick_startedGame random :
  advanceTick random startedGame 16.666 O
  = Returned (firstTickGame (random O)) 1%nat.
Proof.
  unfold advanceTick, beforeGameStateCheck.
  change (Game.time startedGame) with 0.
  change (Game.tickCount startedGame) with 0%Z.
  unfold bind. rewrite updateWaves_startedGame.
  unfold updateMobs. cbn [Game.mobs Game.with_waves Game.with_mobs mapM].
  unfold bind. rewrite updateMob_spawnedGoblin by reflexivity.
  cbn. unfold checkGameState. cbn. rcmp. cbn.
  reflexivity.
Qed.

(** C1, the determinism part, fails on the code.  The first tick of a
    started game spawns a mob whose id holds the result of [Math.random()]:
    run twice from the same game and the same [dt], with the generator
    returning 0.25 the one time and 0.75 the other, [advanceTick] returns two
    different games. *)
Theorem advanceTick_depends_on_random :
  advanceTick (fun _ => 0.25) startedGame 16.666 O
  = Returned (firstTickGame 0.25) 1%nat /\
  advanceTick (fun _ => 0.75) startedGame 16.666 O
  = Returned (firstTickGame 0.75) 1%nat /\
  firstTickGame 0.25 <> firstTickGame 0.75.
Proof.
  split; [apply advanceTick_startedGame|].
  split; [apply advanceTick_startedGame|].
  intros H. apply (f_equal Game.mobs) in H. cbn in H.
  injection H as H. lra.
Qed.

Lemma advanceTick_victoryGame random :
  advanceTick random victoryGame TICK_DURATION O
  = Returned (Game.with_time victoryGame (500 + TICK_DURATION) (30000 + 1)) O.
Proof.
  unfold advanceTick, beforeGameStateCheck, bind. cbn.
  unfold checkGameState. cbn. rcmp. cbn. reflexivity.
Qed.

(** C2, as stated, fails: [advanceTick] has no test of the lifecycle state.
    Called on a won game it returns a game whose clock and tick counter have
    moved on. *)
Lemma advanceTick_ticks_after_victory :
  Game.state victoryGame = GameState.victory /\
  advanceTick (fun _ => 0) victoryGame TICK_DURATION O
  = Returned (Game.with_time victoryGame (500 + TICK_DURATION) (30000 + 1)) O /\
  Game.with_time victoryGame (500 + TICK_DURATION) (30000 + 1) <> victoryGame.
Proof.
  split; [reflexivity|]. split; [apply advanceTick_victoryGame|].
  intros H. apply (f_equal Game.tickCount) in H. discriminate.
Qed.

Lemma checkGameState_terminal g :
  Game.state g = GameState.gameOver \/ Game.state g = GameState.victory ->
  Game.state (checkGameState g) = GameState.gameOver \/
  Game.state (checkGameState g) = GameState.victory.
Proof.
  intros H. unfold checkGameState.
  repeat match goal with
         | |- context [if ?b then _ else _] => destruct b
         | |- context [match nthZ ?l ?i with _ => _ end] => destruct (nthZ l i)
         end;
    cbn; tauto.
Qed.

Lemma storeWave_state g w : Game.state (storeWave g w) = Game.state g.
Proof. reflexivity. Qed.

Lemma updateWaves_state random g dt k g' k' :
  updateWaves random g dt k = Returned g' k' -> Game.state g' = Game.state g.
Proof.
  unfold updateWaves, createMob. intros H.
  repeat match type of H with
         | context [if ?b then _ else _] => destruct b
         | context [match ?x with _ => _ end] => destruct x
         end;
    inv_run; try discriminate; reflexivity.
Qed.

Lemma applyProjectileHit_state g projectile target tower :
  Game.state (applyProjectileHit g projectile target tower) = Game.state g.
Proof.
  unfold applyProjectileHit. destruct (truthy _).
  - generalize (applySplashDamage (Projectile.pos projectile)
                  (orElse (Projectile.splashRadius projectile) 0)
                  (Projectile.damage projectile)
                  (getMobsInSplashRadius (Projectile.pos projectile)
                     (orElse (Projectile.splashRadius projectile) 0)
                     (Game.mobs g))).
    intros results. revert g.
    induction results as [|result rest IH]; intros g; cbn [fold_left].
    + reflexivity.
    + rewrite IH. unfold applySplashResult.
      destruct (findIndex _ _); [|reflexivity].
      now destruct (Mob.isDead _).
  - destruct (findIndex _ _); [|reflexivity].
    now destruct (Mob.isDead _).
Qed.

Lemma projectilesLoop_state dt pending g kept :
  Game.state (projectilesLoop dt pending g kept) = Game.state g.
Proof.
  revert g kept. induction pending as [|p rest IH]; intros g kept;
    cbn [projectilesLoop]; [reflexivity|].
  destruct (updateProjectile dt g p) as [g1 stays] eqn:E. rewrite IH.
  unfold updateProjectile in E.
  repeat match type of E with
         | context [if ?b then _ else _] => destruct b
         | context [match ?x with _ => _ end] => destruct x
         end;
    injection E as <- _; try reflexivity.
  apply applyProjectileHit_state.
Qed.

Lemma advanceTick_terminal random game dt k game' k' :
  Game.state game = GameState.gameOver \/ Game.state game = GameState.victory ->
  advanceTick random game dt k = Returned game' k' ->
  Game.state game' = GameState.gameOver \/ Game.state game' = GameState.victory.
Proof.
  intros Ht H. unfold advanceTick, beforeGameStateCheck in H. inv_run.
  apply checkGameState_terminal.
  match goal with H : updateWaves _ _ _ _ = _ |- _ =>
    apply updateWaves_state in H; cbn in H end.
  match goal with H : updateMobs _ _ _ = _ |- _ =>
    unfold updateMobs in H; inv_run end.
  match goal with H : updateTowers _ _ _ _ = _ |- _ =>
    unfold updateTowers in H; inv_run end.
  unfold cleanupEntities, updateProjectiles. cbn.
  rewrite projectilesLoop_state. cbn. congruence.
Qed.

(** C2, as the code has it.  [advanceTick] itself does not stop on a
    terminal state: from [gameOver] or [victory] it still moves the clock by
    [dt] and the tick counter by one (and the state stays one of the two).  The
    stop is the driver's: [update] of the store returns the store as it is,
    without a tick and without a call of [Math.random], whenever the game's
    state is [gameOver] or [victory]. *)
Theorem terminal_state_stops_in_driver (random : nat -> R) (state : Store.t)
        (deltaTime : R) (k : nat) :
  Game.state (Store.game state) = GameState.gameOver \/
  Game.state (Store.game state) = GameState.victory ->
  update random state deltaTime k = Returned state k /\
  forall dt game' k',
    advanceTick random (Store.game state) dt k = Returned game' k' ->
    Game.time game' = Game.time (Store.game state) + dt /\
    Game.tickCount game' = (Game.tickCount (Store.game state) + 1)%Z /\
    (Game.state game' = GameState.gameOver \/
     Game.state game' = GameState.victory).
Proof.
  intros Ht. split.
  - unfold update. destruct Ht as [-> | ->]; cbn [GameState.eqb negb];
      now rewrite orb_true_r.
  - intros dt game' k' H.
    destruct (advanceTick_clock _ _ _ _ _ _ H) as [T C].
    repeat split; try assumption.
    eapply advanceTick_terminal; eassumption.
Qed.

Lemma terminal_state_stops_in_driver_witness :
  update (fun _ => 0) (Store.mk victoryGame true 0 40) 20 O
  = Returned (Store.mk victoryGame true 0 40) O.
Proof.
  apply (terminal_state_stops_in_driver (fun _ => 0)
           (Store.mk victoryGame true 0 40) 20 O).
  right. reflexivity.
Defined.

(** *** Wave spawning *)

(** C4 fails on the code: [updateWaves] compares the entry's delay with the
    simulation time, not with the time since the wave's recorded start.  In
    the fifth wave, started at 100, the second entry has a delay of 5; at
    simulation time 103.5, which is 3.5 after the start, a mob of that entry is
    spawned. *)
Theorem updateWaves_spawns_before_delay :
  Wave.startTime fifthWaveSecondEntry = Some 100 /\
  nthZ (Wave.entries fifthWaveSecondEntry)
       (Wave.currentEntryIndex fifthWaveSecondEntry)
  = Some (Entry.mk 5 MobType.normal 15 0.5) /\
  Game.time fifthWaveGame - 100 < 5 /\
  updateWaves (fun _ => 0.25) fifthWaveGame 0.5 O
  = Returned
      (Game.with_waves
         (Game.with_mobs fifthWaveGame [spawnedGoblin 103.5 0.25])
         (<[4%nat :=
              Wave.mk 5 [Entry.mk 0 MobType.flying 3 1;
                         Entry.mk 5 MobType.normal 15 0.5]
                      true false (Some 100) (Some (103.5 + 0.5)) 1 (0 + 1)
                      None]> WAVES))
      1%nat.
Proof.
  split; [reflexivity|]. split; [reflexivity|]. split; [cbn; lra|].
  unfold updateWaves.
  cbn [Game.totalWaves Game.currentWave fifthWaveGame Game.waves Game.time
       Game.mobs Game.map].
  change (10 <=? 4)%Z with false. cbv iota.
  change (nthZ (<[4%nat := fifthWaveSecondEntry]> WAVES) 4)
    with (Some fifthWaveSecondEntry).
  cbv iota beta.
  cbn [fifthWaveSecondEntry Wave.isComplete Wave.isActive negb Wave.id
       Wave.entries Wave.bonusGiven Wave.currentEntryIndex Wave.nextSpawnTime
       Wave.currentSpawnCount Wave.startTime].
  change (nthZ [Entry.mk 0 MobType.flying 3 1;
                Entry.mk 5 MobType.normal 15 0.5] 1)
    with (Some (Entry.mk 5 MobType.normal 15 0.5)).
  cbv iota beta.
  cbn [Entry.delay Entry.count Entry.kind Entry.spacing orElse truthy].
  rcmp. cbn [negb andb].
  change (0 <? 15)%Z with true. cbv iota.
  unfold createMob, bind, Math_random, ret.
  change (spawnPoints createDefaultMap !! O) with (Some (0, 7)%Z).
  cbv iota beta. reflexivity.
Qed.

(** *** A mob reaching the base *)

Lemma updateMob_reaching game k :
  Game.map game = createDefaultMap ->
  updateMob game 1 reachingMob k
  = Returned (Mob.moved reachingMob (cellVec (19, 7)%Z) (19 / 19) true) k.
Proof.
  intros Hmap. unfold updateMob.
  cbn [reachingMob Mob.isDead Mob.reachedEnd orb].
  rewrite Hmap, default_paths.
  cbn [lookup list_lookup].
  rewrite cleanup_no_slow by reflexivity.
  rewrite speed_no_slow by reflexivity.
  change (length defaultPath) with 20%nat.
  change (Z.of_nat 20 - 1)%Z with 19%Z.
  change (1 <? 20)%nat with true. cbv iota.
  change (Mob.pathProgress reachingMob) with (18 / 19).
  replace (18 / 19 * 19) with 18 by lra.
  rewrite (ZfloorZ 18).
  change (Z.min (18 + 1) 19) with 19%Z.
  change (Z.min (19 + 1) 19) with 19%Z.
  change (nthZ defaultPath 18) with (Some (18, 7)%Z).
  change (nthZ defaultPath 19) with (Some (18 + 1, 7)%Z).
  cbv iota beta.
  rewrite distance_unit_step.
  change (Mob.speed reachingMob) with 1.
  rcmp. cbv iota.
  change (19 <=? 19)%Z with true. cbv iota.
  reflexivity.
Qed.

Lemma advanceTick_reachingGame random :
  advanceTick random reachingGame 1 O
  = Returned
      (Game.mk (10 + 1) GameState.victory 1 [] [] [] [] 0 0 200 (100 - 1) 0
               createDefaultMap None None None 0 0 (600 + 1)) O.
Proof.
  unfold advanceTick, beforeGameStateCheck.
  set (g1 := Game.with_time reachingGame _ _).
  assert (W : updateWaves random g1 1 O = Returned g1 O) by reflexivity.
  assert (U : updateMobs g1 1 O
              = Returned (Game.with_mobs g1
                            [Mob.moved reachingMob (cellVec (19, 7)%Z)
                                       (19 / 19) true]) O).
  { unfold updateMobs, bind.
    cbn [Game.mobs g1 Game.with_time reachingGame mapM].
    unfold bind. rewrite updateMob_reaching by reflexivity. reflexivity. }
  unfold bind. rewrite W, U. cbn.
  unfold checkGameState. cbn. rcmp. cbn. reflexivity.
Qed.

(** A tick in which one mob reaches the base: one life less, no mob left. *)
Lemma advanceTick_lives_witness :
  exists evaluated game',
    advanceTick (fun _ => 0) reachingGame 1 O = Returned game' O /\
    beforeGameStateCheck (fun _ => 0) reachingGame 1 O = Returned evaluated O /\
    Game.lives game'
    = Game.lives reachingGame
      - INR (length (List.filter Mob.reachedEnd (Game.mobs evaluated))) /\
    Forall (fun mob => Mob.reachedEnd mob = false) (Game.mobs game') /\
    Game.lives game' = 100 - 1.
Proof.
  destruct (advanceTick_lives (fun _ => 0) reachingGame 1 O _ O
              (advanceTick_reachingGame (fun _ => 0)))
    as (evaluated & He & Hg & Hl & Hall).
  exists evaluated. eexists.
  split; [apply advanceTick_reachingGame|].
  split; [exact He|]. split; [exact Hl|]. split; [exact Hall|].
  reflexivity.
Defined.
(** ** grid.ts: the pathfinder *)

#[local] Open Scope Z_scope.

Lemma size_allCells : size allCells = 300%nat.
Proof. vm_compute. reflexivity. Qed.

Lemma valid_allCells c : Grid.isValidVec c = true -> c ∈ allCells.
Proof.
  unfold Grid.isValidVec, Grid.isValid, allCells. destruct c as [x y]. cbn [fst snd].
  rewrite !andb_true_iff, !Z.leb_le, !Z.ltb_lt. intros [[[? ?] ?] ?].
  apply elem_of_list_to_set. apply list_elem_of_In.
  apply in_flat_map. exists x. split.
  - apply list_elem_of_In, elem_of_seqZ. unfold MAP_SIZE.width in *. lia.
  - apply in_map. apply list_elem_of_In, elem_of_seqZ. unfold MAP_SIZE.height in *. lia.
Qed.

Lemma closed_size_bound (closedSet : gset Cell) :
  (forall c, c ∈ closedSet -> Grid.isValidVec c = true) ->
  (size closedSet <= 300)%nat.
Proof.
  intros H. rewrite <- size_allCells. apply subseteq_size.
  intros c Hc. apply valid_allCells, H, Hc.
Qed.

Lemma sameKey_true a b : Pathfinder.sameKey a b = true <-> a = b.
Proof.
  unfold Pathfinder.sameKey. rewrite andb_true_iff, !Z.eqb_eq.
  destruct a, b; cbn. split; [intros []; congruence | intros [= -> ->]; easy].
Qed.

Lemma isGoal_true a b : Pathfinder.isGoal a b = true <-> a = b.
Proof. apply sameKey_true. Qed.

Lemma heuristic_same a : Pathfinder.heuristic a a = 0.
Proof. unfold Pathfinder.heuristic. lia. Qed.

Lemma heuristic_triangle a b c :
  Pathfinder.heuristic a c <= Pathfinder.heuristic a b + Pathfinder.heuristic b c.
Proof. unfold Pathfinder.heuristic. lia. Qed.

Lemma heuristic_adjacent a b : adjacent4 a b -> Pathfinder.heuristic a b = 1.
Proof. easy. Qed.

Lemma isWalkable_valid map c :
  Pathfinder.isWalkable map c = true -> Grid.isValidVec c = true.
Proof.
  unfold Pathfinder.isWalkable. now destruct (Grid.isValidVec c).
Qed.

Lemma getNeighbors_spec a b :
  In b (Grid.getNeighbors a) <-> adjacent4 a b /\ Grid.isValidVec b = true.
Proof.
  unfold Grid.getNeighbors. rewrite filter_In. unfold adjacent4, Grid.directions.
  destruct a as [ax ay], b as [bx by_]. cbn [List.map fst snd In].
  split.
  - intros [[H | [H | [H | [H | []]]]] Hv]; injection H as <- <-; split; try exact Hv; lia.
  - intros [H Hv]. split; [|exact Hv].
    assert (Hc : (bx = ax /\ by_ = ay - 1) \/ (bx = ax + 1 /\ by_ = ay) \/
                 (bx = ax /\ by_ = ay + 1) \/ (bx = ax - 1 /\ by_ = ay)) by lia.
    destruct Hc as [[-> ->] | [[-> ->] | [[-> ->] | [-> ->]]]].
    + left. f_equal; lia.
    + right; left. f_equal; lia.
    + right; right; left. f_equal; lia.
    + right; right; right; left. f_equal; lia.
Qed.

Lemma AStarNode_induction (P : AStarNode -> Prop) :
  (forall p g h, P (Node p g h None)) ->
  (forall p g h parent, P parent -> P (Node p g h (Some parent))) ->
  forall n, P n.
Proof.
  intros H0 H1. fix IH 1. intros [p g h [parent|]].
  - apply H1, IH.
  - apply H0.
Qed.

Lemma reconstructFrom_app n acc :
  Pathfinder.reconstructFrom n acc = Pathfinder.reconstructFrom n [] ++ acc.
Proof.
  revert acc. induction n as [p g h | p g h parent IH] using AStarNode_induction;
    intros acc; cbn [Pathfinder.reconstructFrom].
  - reflexivity.
  - rewrite IH, (IH [p]), <- app_assoc. reflexivity.
Qed.

Lemma reconstructPath_child p g h parent :
  Pathfinder.reconstructPath (Node p g h (Some parent))
  = Pathfinder.reconstructPath parent ++ [p].
Proof.
  unfold Pathfinder.reconstructPath. cbn [Pathfinder.reconstructFrom].
  apply reconstructFrom_app.
Qed.

Lemma walk_nonempty map a p c : walk map a p c -> (1 <= length p)%nat.
Proof. intros H. destruct H; cbn; lia. Qed.

Lemma walk_snoc map a p c c' :
  walk map a p c -> step map c c' -> walk map a (p ++ [c']) c'.
Proof.
  intros H Hs. induction H as [a | a b p c Hab H IH]; cbn.
  - eapply walk_step; [exact Hs | apply walk_here].
  - eapply walk_step; [exact Hab | apply IH, Hs].
Qed.

Lemma walk_reach_from map start a p c k :
  walk map a p c -> reach map start k a ->
  reach map start (k + length p - 1) c.
Proof.
  intros H. revert k. induction H as [a | a b p c Hab H IH]; intros k Hk.
  - cbn. replace (k + 1 - 1)%nat with k by lia. exact Hk.
  - pose proof (walk_nonempty _ _ _ _ H) as Hn.
    replace (k + length (a :: p) - 1)%nat with (S k + length p - 1)%nat
      by (cbn; lia).
    apply IH. apply (reach_step _ _ _ a); assumption.
Qed.

Lemma walk_reach map start p c :
  walk map start p c -> reach map start (length p - 1) c.
Proof.
  intros H. apply (walk_reach_from _ _ _ _ _ O H). apply reach_start.
Qed.

Lemma reach_walk map start k c :
  reach map start k c -> exists p, walk map start p c /\ length p = S k.
Proof.
  intros H. induction H as [| k c c' _ [p [Hp Hl]] Hs].
  - exists [start]. split; [apply walk_here | reflexivity].
  - exists (p ++ [c']). split; [now apply (walk_snoc _ _ _ c)|].
    rewrite length_app. cbn. lia.
Qed.

Lemma scanLowest_spec rest i currentIndex currentF :
  (Pathfinder.scanLowest rest i currentIndex currentF = currentIndex /\
   forall m, In m rest -> currentF <= node_f m)
  \/
  (exists l1 n l2,
      rest = l1 ++ n :: l2 /\
      Pathfinder.scanLowest rest i currentIndex currentF = (i + length l1)%nat /\
      node_f n < currentF /\
      forall m, In m rest -> node_f n <= node_f m).
Proof.
  revert i currentIndex currentF.
  induction rest as [|n rest IH]; intros i ci cf; cbn [Pathfinder.scanLowest].
  - left. split; [reflexivity | intros m []].
  - destruct (node_f n <? cf) eqn:E.
    + apply Z.ltb_lt in E.
      destruct (IH (S i) i (node_f n))
        as [[Hr Hall] | (l1 & n' & l2 & -> & Hr & Hlt & Hall)].
      * right. exists [], n, rest. cbn. rewrite Hr.
        repeat split; try lia. intros m [<- | Hm]; [lia | now apply Hall].
      * right. exists (n :: l1), n', l2. cbn. rewrite Hr.
        repeat split; try lia. intros m [<- | Hm]; [lia | now apply Hall].
    + apply Z.ltb_ge in E.
      destruct (IH (S i) ci cf)
        as [[Hr Hall] | (l1 & n' & l2 & -> & Hr & Hlt & Hall)].
      * left. split; [exact Hr|]. intros m [<- | Hm]; [lia | now apply Hall].
      * right. exists (n :: l1), n', l2. cbn. rewrite Hr.
        repeat split; try lia. intros m [<- | Hm]; [lia | now apply Hall].
Qed.

Lemma lowestIndex_spec openSet :
  openSet <> [] ->
  exists l1 current l2,
    openSet = l1 ++ current :: l2 /\
    Pathfinder.lowestIndex openSet = length l1 /\
    forall m, In m openSet -> node_f current <= node_f m.
Proof.
  destruct openSet as [|n0 rest]; [easy|]. intros _.
  unfold Pathfinder.lowestIndex.
  destruct (scanLowest_spec rest 1 0 (node_f n0))
    as [[Hr Hall] | (l1 & n & l2 & -> & Hr & Hlt & Hall)].
  - exists [], n0, rest. rewrite Hr. repeat split.
    intros m [<- | Hm]; [lia | now apply Hall].
  - exists (n0 :: l1), n, l2. rewrite Hr. repeat split.
    intros m [<- | Hm]; [lia | now apply Hall].
Qed.

Lemma nth_error_middle {A} (l1 : list A) x l2 :
  nth_error (l1 ++ x :: l2) (length l1) = Some x.
Proof. induction l1; cbn; [reflexivity | assumption]. Qed.

Lemma spliceOut_middle l1 x l2 :
  Pathfinder.spliceOut (length l1) (l1 ++ x :: l2) = l1 ++ l2.
Proof.
  unfold Pathfinder.spliceOut. induction l1 as [|a l1 IH]; cbn.
  - reflexivity.
  - f_equal. exact IH.
Qed.

Lemma find_sameKey_Some openSet key n :
  List.find (fun n => Pathfinder.sameKey (node_pos n) key) openSet = Some n ->
  In n openSet /\ node_pos n = key.
Proof.
  intros H. apply find_some in H as [Hin Hk]. now apply sameKey_true in Hk.
Qed.

Lemma find_sameKey_None openSet key :
  List.find (fun n => Pathfinder.sameKey (node_pos n) key) openSet = None ->
  forall n, In n openSet -> node_pos n <> key.
Proof.
  intros H n Hin Hk. apply sameKey_true in Hk.
  now rewrite (find_none _ _ H n Hin) in Hk.
Qed.

Lemma updateNode_pos openSet key tentativeG current :
  List.map node_pos (Pathfinder.updateNode openSet key tentativeG current)
  = List.map node_pos openSet.
Proof.
  induction openSet as [|a rest IH]; cbn; [reflexivity|].
  destruct (Pathfinder.sameKey (node_pos a) key); cbn; [reflexivity|].
  now rewrite IH.
Qed.

Lemma updateNode_in openSet key tentativeG current m :
  In m (Pathfinder.updateNode openSet key tentativeG current) ->
  In m openSet \/
  exists n, In n openSet /\ node_pos n = key /\
            m = Node key tentativeG (node_h n) (Some current).
Proof.
  induction openSet as [|a rest IH]; cbn; [easy|].
  destruct (Pathfinder.sameKey (node_pos a) key) eqn:E.
  - apply sameKey_true in E. intros [<- | Hin].
    + right. exists a. rewrite E. auto.
    + left. now right.
  - intros [<- | Hin]; [left; now left|].
    destruct (IH Hin) as [H | (n & Hn & Hk & ->)]; [left; now right|].
    right. exists n. auto.
Qed.

Lemma updateNode_covered openSet key tentativeG current existing c bound :
  List.find (fun n => Pathfinder.sameKey (node_pos n) key) openSet
  = Some existing ->
  tentativeG <= node_g existing ->
  covered openSet c bound ->
  covered (Pathfinder.updateNode openSet key tentativeG current) c bound.
Proof.
  intros Hf Hg (n & Hin & Hpos & Hb).
  induction openSet as [|a rest IH]; [easy|].
  cbn in Hf |- *.
  destruct (Pathfinder.sameKey (node_pos a) key) eqn:E.
  - injection Hf as <-. destruct Hin as [<- | Hin].
    + eexists. split; [now left|]. cbn. split; [exact Hpos | lia].
    + exists n. split; [now right | easy].
  - destruct Hin as [<- | Hin].
    + exists a. split; [now left | easy].
    + destruct (IH Hf Hin) as (m & Hm & Hmp & Hmb).
      exists m. split; [now right | easy].
Qed.

Lemma updateNode_hit openSet key tentativeG current existing :
  List.find (fun n => Pathfinder.sameKey (node_pos n) key) openSet
  = Some existing ->
  covered (Pathfinder.updateNode openSet key tentativeG current) key tentativeG.
Proof.
  induction openSet as [|a rest IH]; [easy|]. cbn.
  destruct (Pathfinder.sameKey (node_pos a) key) eqn:E.
  - apply sameKey_true in E. intros _. eexists. split; [now left|].
    cbn. split; [exact E | lia].
  - intros Hf. destruct (IH Hf) as (m & Hm & Hmp & Hmb).
    exists m. split; [now right | easy].
Qed.

Section Visit.
Variable map : GameMap.
Variables start end_ : Cell.
Variable closedSet : gset Cell.
Variable current : AStarNode.
Hypothesis current_ok : node_ok map start end_ current.

#[local] Abbreviation visit :=
  (Pathfinder.visitNeighbor map end_ closedSet current).

Lemma child_ok neighborPos h :
  adjacent4 (node_pos current) neighborPos ->
  Pathfinder.isWalkable map neighborPos = true ->
  h = Pathfinder.heuristic neighborPos end_ ->
  node_ok map start end_ (Node neighborPos (node_g current + 1) h (Some current)).
Proof using current_ok.
  intros Ha Hw ->. destruct current_ok as (Hwalk & Hlen & _).
  unfold node_ok. rewrite reconstructPath_child. cbn [node_pos node_g node_h].
  split; [|split].
  - apply (walk_snoc _ _ _ (node_pos current)); [exact Hwalk | now split].
  - rewrite length_app. cbn [length]. lia.
  - reflexivity.
Qed.

Lemma visit_nodes openSet neighborPos :
  In neighborPos (Grid.getNeighbors (node_pos current)) ->
  (forall n, In n openSet ->
     node_ok map start end_ n /\ Grid.isValidVec (node_pos n) = true /\
     node_pos n ∉ closedSet) ->
  forall n, In n (visit openSet neighborPos) ->
     node_ok map start end_ n /\ Grid.isValidVec (node_pos n) = true /\
     node_pos n ∉ closedSet.
Proof using current_ok.
  intros Hnb Hall n. apply getNeighbors_spec in Hnb as [Hadj Hvalid].
  unfold visit, Pathfinder.visitNeighbor.
  destruct (bool_decide (neighborPos ∈ closedSet)) eqn:Hc; cbn [orb];
    [apply Hall|].
  apply bool_decide_eq_false in Hc.
  destruct (Pathfinder.isWalkable map neighborPos) eqn:Hw; cbn [negb];
    [|apply Hall].
  destruct (List.find _ openSet) as [existing|] eqn:Hf.
  - destruct (node_g current + 1 <? node_g existing); [|apply Hall].
    intros Hin. apply updateNode_in in Hin as [Hin | (m & Hm & Hk & ->)];
      [now apply Hall|].
    cbn [node_pos]. split; [|easy].
    apply child_ok; try assumption.
    destruct (Hall m Hm) as ((_ & _ & Hh) & _). now rewrite Hh, Hk.
  - intros Hin. apply in_app_or in Hin as [Hin | [<- | []]]; [now apply Hall|].
    cbn [node_pos]. split; [|easy]. now apply child_ok.
Qed.

Lemma visit_nodup openSet neighborPos :
  NoDup (List.map node_pos openSet) ->
  NoDup (List.map node_pos (visit openSet neighborPos)).
Proof using Type.
  intros Hnd. unfold visit, Pathfinder.visitNeighbor.
  destruct (_ || _); [exact Hnd|].
  destruct (List.find _ openSet) as [existing|] eqn:Hf.
  - destruct (_ <? _); [|exact Hnd]. now rewrite updateNode_pos.
  - rewrite map_app. cbn [List.map node_pos].
    apply NoDup_app. split; [exact Hnd|]. split.
    + intros c Hc Hc'. apply list_elem_of_In in Hc, Hc'.
      destruct Hc' as [<- | []]. apply in_map_iff in Hc as (n & Hk & Hin).
      now apply (find_sameKey_None _ _ Hf n Hin).
    + apply NoDup_singleton.
Qed.

Lemma visit_mono openSet neighborPos c bound :
  covered openSet c bound -> covered (visit openSet neighborPos) c bound.
Proof using Type.
  intros Hc. unfold visit, Pathfinder.visitNeighbor.
  destruct (_ || _); [exact Hc|].
  destruct (List.find _ openSet) as [existing|] eqn:Hf.
  - destruct (_ <? _) eqn:E; [|exact Hc]. apply Z.ltb_lt in E.
    eapply updateNode_covered; [exact Hf | lia | exact Hc].
  - destruct Hc as (n & Hin & Hp & Hb). exists n.
    split; [apply in_or_app; now left | easy].
Qed.

Lemma visit_covers openSet neighborPos :
  neighborPos ∉ closedSet ->
  Pathfinder.isWalkable map neighborPos = true ->
  covered (visit openSet neighborPos) neighborPos (node_g current + 1).
Proof using Type.
  intros Hc Hw. unfold visit, Pathfinder.visitNeighbor.
  rewrite (bool_decide_eq_false_2 _ Hc), Hw. cbn [orb negb].
  destruct (List.find _ openSet) as [existing|] eqn:Hf.
  - destruct (_ <? _) eqn:E.
    + eapply updateNode_hit. exact Hf.
    + apply Z.ltb_ge in E. apply find_sameKey_Some in Hf as [Hin Hk].
      exists existing. easy.
  - eexists. split; [apply in_or_app; right; now left|]. cbn. split; [reflexivity | lia].
Qed.

Lemma fold_visit_nodes neighbors openSet :
  (forall c, In c neighbors -> In c (Grid.getNeighbors (node_pos current))) ->
  (forall n, In n openSet ->
     node_ok map start end_ n /\ Grid.isValidVec (node_pos n) = true /\
     node_pos n ∉ closedSet) ->
  forall n, In n (fold_left visit neighbors openSet) ->
     node_ok map start end_ n /\ Grid.isValidVec (node_pos n) = true /\
     node_pos n ∉ closedSet.
Proof using current_ok.
  revert openSet. induction neighbors as [|c rest IH]; intros openSet Hsub Hall;
    cbn [fold_left]; [exact Hall|].
  apply IH; [intros c' Hc'; apply Hsub; now right|].
  apply visit_nodes; [apply Hsub; now left | exact Hall].
Qed.

Lemma fold_visit_nodup neighbors openSet :
  NoDup (List.map node_pos openSet) ->
  NoDup (List.map node_pos (fold_left visit neighbors openSet)).
Proof using Type.
  revert openSet. induction neighbors as [|c rest IH]; intros openSet Hnd;
    cbn [fold_left]; [exact Hnd|].
  apply IH, visit_nodup, Hnd.
Qed.

Lemma fold_visit_mono neighbors openSet c bound :
  covered openSet c bound -> covered (fold_left visit neighbors openSet) c bound.
Proof using Type.
  revert openSet. induction neighbors as [|c' rest IH]; intros openSet Hc;
    cbn [fold_left]; [exact Hc|].
  apply IH, visit_mono, Hc.
Qed.

Lemma fold_visit_covers neighbors openSet c :
  In c neighbors ->
  c ∉ closedSet ->
  Pathfinder.isWalkable map c = true ->
  covered (fold_left visit neighbors openSet) c (node_g current + 1).
Proof using Type.
  revert openSet. induction neighbors as [|c' rest IH]; intros openSet Hin Hc Hw;
    [easy|]. cbn [fold_left].
  destruct Hin as [-> | Hin].
  - apply fold_visit_mono, visit_covers; assumption.
  - now apply IH.
Qed.

End Visit.

Lemma closed_add_old (c x : Cell) (closedSet : gset Cell) :
  c ∈ closedSet -> c ∈ {[x]} ∪ closedSet.
Proof. apply elem_of_union_r. Qed.

Lemma closed_add_new (x : Cell) (closedSet : gset Cell) :
  x ∈ {[x]} ∪ closedSet.
Proof. apply elem_of_union_l, elem_of_singleton. reflexivity. Qed.

Lemma closed_add_other (c x : Cell) (closedSet : gset Cell) :
  c <> x -> c ∉ closedSet -> c ∉ {[x]} ∪ closedSet.
Proof.
  intros Hne Hc Hu. apply elem_of_union in Hu as [Hu | Hu]; [|easy].
  now apply elem_of_singleton in Hu.
Qed.

Section Search.
Variable map : GameMap.
Variables start end_ : Cell.

(** Every cell reachable in [k] steps is closed, or some open node lies on
    the way to it: its [g] plus its Manhattan distance to the cell is at most
    [k]. *)
Lemma frontier openSet closedSet k c :
  search_inv map start end_ openSet closedSet ->
  reach map start k c ->
  c ∈ closedSet \/
  exists n, In n openSet /\
            node_g n + Pathfinder.heuristic (node_pos n) c <= Z.of_nat k.
Proof using Type.
  intros Hinv H. induction H as [| k c c' Hr IH Hs].
  - destruct (inv_start _ _ _ _ _ Hinv) as [Hc | (n & Hin & Hp & Hg)];
      [now left|].
    right. exists n. split; [exact Hin|]. rewrite Hp, heuristic_same. lia.
  - destruct IH as [Hc | (n & Hin & Hb)].
    + destruct (inv_succ _ _ _ _ _ Hinv c k c' Hc Hr Hs)
        as [Hc' | (n & Hin & Hp & Hg)]; [now left|].
      right. exists n. split; [exact Hin|]. rewrite Hp, heuristic_same. lia.
    + right. exists n. split; [exact Hin|].
      pose proof (heuristic_triangle (node_pos n) c c') as Ht.
      destruct Hs as [Ha _]. rewrite (heuristic_adjacent _ _ Ha) in Ht. lia.
Qed.

(** The node the loop picks has the shortest distance as its [g]. *)
Lemma lowest_is_shortest openSet closedSet current k :
  search_inv map start end_ openSet closedSet ->
  In current openSet ->
  (forall m, In m openSet -> node_f current <= node_f m) ->
  reach map start k (node_pos current) ->
  node_g current <= Z.of_nat k.
Proof using Type.
  intros Hinv Hin Hmin Hr.
  destruct (frontier _ _ _ _ Hinv Hr) as [Hc | (m & Hm & Hb)].
  - now destruct (inv_nodes _ _ _ _ _ Hinv current Hin) as (_ & _ & Hnc).
  - specialize (Hmin m Hm). unfold node_f in Hmin.
    destruct (inv_nodes _ _ _ _ _ Hinv current Hin) as ((_ & _ & Hh) & _).
    destruct (inv_nodes _ _ _ _ _ Hinv m Hm) as ((_ & _ & Hhm) & _).
    pose proof (heuristic_triangle (node_pos m) (node_pos current) end_).
    lia.
Qed.

Lemma search_inv_initial :
  Grid.isValidVec start = true ->
  search_inv map start end_
    [Node start 0 (Pathfinder.heuristic start end_) None] ∅.
Proof using Type.
  intros Hv. constructor.
  - intros n [<- | []].
    repeat split; first [apply walk_here | set_solver | easy].
  - cbn. apply NoDup_singleton.
  - set_solver.
  - set_solver.
  - right. eexists. split; [now left|]. cbn. split; [reflexivity | lia].
  - set_solver.
Qed.

(** One turn of the loop that does not end the search keeps the invariant. *)
Lemma search_inv_expand l1 current l2 closedSet :
  search_inv map start end_ (l1 ++ current :: l2) closedSet ->
  (forall m, In m (l1 ++ current :: l2) -> node_f current <= node_f m) ->
  node_pos current <> end_ ->
  search_inv map start end_
    (fold_left
       (Pathfinder.visitNeighbor map end_ ({[node_pos current]} ∪ closedSet)
                                 current)
       (Grid.getNeighbors (node_pos current)) (l1 ++ l2))
    ({[node_pos current]} ∪ closedSet).
Proof using Type.
  intros Hinv Hmin Hgoal.
  assert (Hcur : In current (l1 ++ current :: l2))
    by (apply in_or_app; right; now left).
  destruct (inv_nodes _ _ _ _ _ Hinv current Hcur) as (Hok & Hvalid & Hnc).
  pose proof (inv_nodup _ _ _ _ _ Hinv) as Hnd.
  rewrite map_app in Hnd. cbn [List.map] in Hnd.
  assert (Hrest : forall n, In n (l1 ++ l2) ->
                    In n (l1 ++ current :: l2) /\ node_pos n <> node_pos current).
  { intros n Hn. split.
    - apply in_app_or in Hn. apply in_or_app. destruct Hn; [now left|].
      right. now right.
    - intros E. apply NoDup_app in Hnd as (Hnd1 & Hdisj & Hnd2).
      apply NoDup_cons in Hnd2 as [Hnotin _].
      apply in_app_or in Hn as [Hn | Hn].
      + apply (Hdisj (node_pos current)).
        * apply list_elem_of_In. rewrite <- E. now apply in_map.
        * apply list_elem_of_In. now left.
      + apply Hnotin. apply list_elem_of_In. rewrite <- E. now apply in_map. }
  assert (Hkeep : forall c bound,
             covered (l1 ++ current :: l2) c bound ->
             c ∈ ({[node_pos current]} ∪ closedSet : gset Cell) \/
             covered (l1 ++ l2) c bound).
  { intros c bound (n & Hn & Hp & Hb).
    apply in_app_or in Hn as [Hn | [<- | Hn]].
    - right. exists n. split; [apply in_or_app; now left | easy].
    - left. rewrite <- Hp. apply closed_add_new.
    - right. exists n. split; [apply in_or_app; now right | easy]. }
  constructor.
  - apply (fold_visit_nodes map start end_ _ current Hok).
    + easy.
    + intros n Hn. destruct (Hrest n Hn) as [Hin Hne].
      destruct (inv_nodes _ _ _ _ _ Hinv n Hin) as (Hokn & Hvn & Hncn).
      split; [exact Hokn|]. split; [exact Hvn|]. now apply closed_add_other.
  - apply fold_visit_nodup.
    apply NoDup_app in Hnd as (Hnd1 & Hdisj & Hnd2).
    apply NoDup_cons in Hnd2 as [Hnotin Hnd2].
    rewrite map_app. apply NoDup_app. repeat split; try assumption.
    intros c Hc Hc'. apply (Hdisj c Hc). now right.
  - intros c Hc. apply elem_of_union in Hc as [Hc | Hc].
    + apply elem_of_singleton in Hc. now subst.
    + now apply (inv_closed_valid _ _ _ _ _ Hinv).
  - apply closed_add_other; [congruence | apply (inv_goal _ _ _ _ _ Hinv)].
  - destruct (inv_start _ _ _ _ _ Hinv) as [Hc | Hc];
      [left; now apply closed_add_old|].
    destruct (Hkeep _ _ Hc) as [Hc' | Hc']; [now left|].
    right. now apply fold_visit_mono.
  - intros c k c' Hc Hr Hs. apply elem_of_union in Hc as [Hc | Hc].
    + apply elem_of_singleton in Hc. subst c.
      pose proof (lowest_is_shortest _ _ _ _ Hinv Hcur Hmin Hr) as Hg.
      destruct (decide (c' ∈ ({[node_pos current]} ∪ closedSet : gset Cell)))
        as [Hin | Hnin]; [now left|].
      right. destruct Hs as [Ha Hw].
      destruct (fold_visit_covers map end_ ({[node_pos current]} ∪ closedSet)
                  current (Grid.getNeighbors (node_pos current)) (l1 ++ l2) c')
        as (n & Hn & Hp & Hb); try assumption.
      * apply getNeighbors_spec. split; [exact Ha|].
        now apply isWalkable_valid in Hw.
      * exists n. split; [exact Hn|]. split; [exact Hp | lia].
    + destruct (inv_succ _ _ _ _ _ Hinv c k c' Hc Hr Hs) as [Hc' | Hc'];
        [left; now apply closed_add_old|].
      destruct (Hkeep _ _ Hc') as [Hc'' | Hc'']; [now left|].
      right. now apply fold_visit_mono.
Qed.

(** With the invariant and enough fuel for the cells not yet closed, the
    loop ends, and it ends with the empty sequence when the goal cannot be
    reached and with a shortest walk to the goal when it can. *)
Lemma search_correct fuel openSet closedSet :
  search_inv map start end_ openSet closedSet ->
  (300 < size closedSet + fuel)%nat ->
  exists result,
    Pathfinder.search map fuel end_ openSet closedSet = Some result /\
    ((result = [] /\ forall k, ~ reach map start k end_) \/
     (walk map start result end_ /\
      forall k, reach map start k end_ -> (length result <= S k)%nat)).
Proof using Type.
  revert openSet closedSet.
  induction fuel as [|fuel IH]; intros openSet closedSet Hinv Hfuel.
  - pose proof (closed_size_bound closedSet
                  (inv_closed_valid _ _ _ _ _ Hinv)). lia.
  - cbn [Pathfinder.search].
    destruct openSet as [|n0 rest] eqn:Eopen.
    + cbn. exists []. split; [reflexivity|]. left. split; [reflexivity|].
      intros k Hr. destruct (frontier _ _ _ _ Hinv Hr) as [Hc | (n & [] & _)].
      now apply (inv_goal _ _ _ _ _ Hinv).
    + assert (Hnonempty : openSet <> []) by (rewrite Eopen; discriminate).
      rewrite <- Eopen in *. clear Eopen n0 rest.
      destruct (lowestIndex_spec openSet Hnonempty)
        as (l1 & current & l2 & E & Hidx & Hmin).
      rewrite Hidx. subst openSet.
      rewrite nth_error_middle, spliceOut_middle.
      assert (Hcur : In current (l1 ++ current :: l2))
        by (apply in_or_app; right; now left).
      destruct (inv_nodes _ _ _ _ _ Hinv current Hcur) as (Hok & Hvalid & Hnc).
      destruct (Pathfinder.isGoal (node_pos current) end_) eqn:Hgoal.
      * apply isGoal_true in Hgoal.
        exists (Pathfinder.reconstructPath current). split; [reflexivity|].
        right. destruct Hok as (Hwalk & Hlen & _). rewrite Hgoal in Hwalk.
        split; [exact Hwalk|]. intros k Hr. rewrite <- Hgoal in Hr.
        pose proof (lowest_is_shortest _ _ _ _ Hinv Hcur Hmin Hr). lia.
      * assert (Hne : node_pos current <> end_).
        { intros E. apply isGoal_true in E. congruence. }
        apply IH.
        -- now apply search_inv_expand.
        -- rewrite size_union
             by (intros c Hc1 Hc2; apply elem_of_singleton in Hc1; now subst).
           rewrite size_singleton. lia.
Qed.

End Search.

#[local] Close Scope Z_scope.

(** C5, as the code has it.  On a map of the full extent, for valid cells
    [start] and [end_]: if some sequence of 4-adjacent steps leads from
    [start] to [end_] through cells that, after [start], are all walkable
    (the start cell itself is never tested), [findPath] returns such a
    sequence, from [start] to [end_], and no such sequence is shorter; if there
    is none, it returns the empty sequence. *)
Theorem findPath_shortest (map : GameMap) (start end_ : Cell) :
  map_wf map ->
  Grid.isValidVec start = true ->
  Grid.isValidVec end_ = true ->
  let found := Pathfinder.findPath map start end_ in
  ((exists p, walk map start p end_) ->
   walk map start found end_ /\
   forall q, walk map start q end_ -> (length found <= length q)%nat) /\
  ((~ exists p, walk map start p end_) -> found = []).
Proof.
  intros _ Hs He found.
  destruct (search_correct map start end_ Pathfinder.searchFuel
              [Node start 0 (Pathfinder.heuristic start end_) None] ∅)
    as (result & Hrun & Hres).
  - now apply search_inv_initial.
  - rewrite size_empty. change Pathfinder.searchFuel with 301%nat. lia.
  - assert (E : found = result).
    { unfold found, Pathfinder.findPath. rewrite Hs, He. cbn [negb orb].
      now rewrite Hrun. }
    rewrite E. split.
    + intros [p Hp]. destruct Hres as [[-> Hnone] | [Hwalk Hmin]].
      * exfalso. apply (Hnone _ (walk_reach _ _ _ _ Hp)).
      * split; [exact Hwalk|]. intros q Hq.
        pose proof (Hmin _ (walk_reach _ _ _ _ Hq)) as Hle.
        pose proof (walk_nonempty _ _ _ _ Hq). lia.
    + intros Hno. destruct Hres as [[-> _] | [Hwalk _]]; [reflexivity|].
      exfalso. apply Hno. now exists result.
Qed.

Lemma walk_next map a b p c :
  step map a b -> walk map b (b :: p) c -> walk map a (a :: b :: p) c.
Proof. apply walk_step. Qed.

Lemma defaultPath_walk : walk createDefaultMap (0, 7)%Z defaultPath (19, 7)%Z.
Proof.
  change defaultPath
    with ([
          (0, 7); (1, 7); (2, 7); (3, 7); (4, 7); (5, 7); (6, 7); (7,
          7); (8, 7); (9, 7); (10, 7); (11, 7); (12, 7); (13, 7); (14,
          7); (15, 7); (16, 7); (17, 7); (18, 7); (19, 7)]%Z).
  repeat (apply walk_next;
          [split; [unfold adjacent4 | ]; vm_compute; reflexivity|]).
  apply walk_here.
Qed.

(** The path of the default map, from the spawn point to the base. *)
Lemma findPath_shortest_witness :
  walk createDefaultMap (0, 7)%Z
       (Pathfinder.findPath createDefaultMap (0, 7)%Z (19, 7)%Z) (19, 7)%Z /\
  forall q, walk createDefaultMap (0, 7)%Z q (19, 7)%Z ->
            (length (Pathfinder.findPath createDefaultMap (0, 7)%Z (19, 7)%Z)
             <= length q)%nat.
Proof.
  apply (findPath_shortest createDefaultMap (0, 7)%Z (19, 7)%Z
           createDefaultMap_wf eq_refl eq_refl).
  exists defaultPath. exact defaultPath_walk.
Defined.

(** C5, as stated, fails where the start cell is not walkable: on the
    default map the cell (5, 5) is blocked, so no sequence of walkable cells
    begins there, and yet the search from it returns a sequence, whose first
    cell is that blocked one. *)
Lemma findPath_from_blocked_start :
  Grid.isValidVec (5, 5)%Z = true /\
  Pathfinder.isWalkable createDefaultMap (5, 5)%Z = false /\
  Pathfinder.findPath createDefaultMap (5, 5)%Z (4, 5)%Z
  = [(5, 5)%Z; (4, 5)%Z].
Proof. repeat split; vm_compute; reflexivity. Qed.

#[local] Open Scope R_scope.

(** *** The tick returns *)

Lemma fuel_free_ret {A} (a : A) : fuel_free (ret a).
Proof. intros k. discriminate. Qed.

Lemma fuel_free_throw {A} : fuel_free (@throw A).
Proof. intros k. discriminate. Qed.

Lemma fuel_free_bind {A B} (m : M A) (f : A -> M B) :
  fuel_free m -> (forall a, fuel_free (f a)) -> fuel_free (bind m f).
Proof.
  intros Hm Hf k. unfold bind. specialize (Hm k).
  destruct (m k) as [a k'| |]; [apply Hf | discriminate | easy].
Qed.

Lemma fuel_free_mapM {A B} (f : A -> M B) (l : list A) :
  (forall a, fuel_free (f a)) -> fuel_free (mapM f l).
Proof.
  intros Hf. induction l as [|a rest IH]; cbn [mapM].
  - apply fuel_free_ret.
  - apply fuel_free_bind; [apply Hf|]. intros b.
    apply fuel_free_bind; [apply IH|]. intros bs. apply fuel_free_ret.
Qed.

Lemma fuel_free_random random : fuel_free (Math_random random).
Proof. intros k. discriminate. Qed.

(** Split a goal [fuel_free] along the code. *)
Ltac fuel_free :=
  repeat first
    [ apply fuel_free_ret
    | apply fuel_free_throw
    | apply fuel_free_random
    | apply fuel_free_mapM; intros ?
    | apply fuel_free_bind; [|intros ?]
    | match goal with
      | |- fuel_free (if ?b then _ else _) => destruct b
      | |- fuel_free (match ?x with _ => _ end) => destruct x
      end ].

Lemma advanceTick_fuel_free random game dt :
  fuel_free (advanceTick random game dt).
Proof.
  unfold advanceTick, beforeGameStateCheck, updateWaves, updateMobs,
    updateTowers, updateTower, updateMob, createMob, createProjectile.
  fuel_free.
Qed.

Lemma tickLoop_fuel random fuel game remainingTime k :
  remainingTime < (INR fuel + 1) * TICK_DURATION ->
  tickLoop random fuel game remainingTime k <> OutOfFuel.
Proof.
  revert game remainingTime k.
  induction fuel as [|fuel IH]; intros game remainingTime k Hlt;
    cbn [tickLoop].
  - destruct (Rleb TICK_DURATION remainingTime) eqn:E; [|discriminate].
    apply Rleb_true in E. cbn in Hlt. lra.
  - destruct (Rleb TICK_DURATION remainingTime) eqn:E; [|discriminate].
    unfold bind.
    pose proof (advanceTick_fuel_free random game TICK_DURATION k) as Hf.
    destruct (advanceTick random game TICK_DURATION k) as [g' k'| |];
      [|discriminate|easy].
    apply IH. rewrite S_INR in Hlt. lra.
Qed.

(** The bound [update] gives its loop is never exhausted. *)
Lemma update_fuel_free random state deltaTime :
  fuel_free (update random state deltaTime).
Proof.
  intros k. unfold update.
  destruct (_ || _); [discriminate|].
  unfold bind.
  set (acc := Store.accumulator state + deltaTime).
  pose proof (tickLoop_fuel random
                (Z.to_nat (Zfloor (acc / TICK_DURATION)))
                (Store.game state) acc k) as Hf.
  destruct (tickLoop _ _ _ _ _) as [r k'| |]; [discriminate|discriminate|].
  exfalso. apply Hf; [|reflexivity].
  assert (HT : 0 < TICK_DURATION) by (unfold TICK_DURATION; lra).
  pose proof (Zfloor_bound (acc / TICK_DURATION)) as [_ Hb].
  destruct (Z_lt_le_dec (Zfloor (acc / TICK_DURATION)) 0) as [Hneg | Hpos].
  - rewrite Z2Nat.nonpos by lia. cbn.
    assert (IZR (Zfloor (acc / TICK_DURATION)) <= -1)
      by (apply IZR_le; lia).
    assert (acc / TICK_DURATION < 0) by lra.
    assert (acc < 0).
    { apply Rmult_lt_reg_r with (/ TICK_DURATION);
        [now apply Rinv_0_lt_compat|]. unfold Rdiv in *. lra. }
    lra.
  - rewrite INR_IZR_INZ, Z2Nat.id by lia.
    apply Rmult_lt_reg_r with (/ TICK_DURATION);
      [now apply Rinv_0_lt_compat|].
    rewrite Rmult_assoc, Rinv_r by lra. unfold Rdiv in Hb. lra.
Qed.

Lemma returns_ret {A} (a : A) : returns (ret a).
Proof. intros k. now exists a, k. Qed.

Lemma returns_bind {A B} (m : M A) (f : A -> M B) :
  returns m -> (forall a, returns (f a)) -> returns (bind m f).
Proof.
  intros Hm Hf k. destruct (Hm k) as (a & k' & E).
  unfold bind. rewrite E. apply Hf.
Qed.

Lemma returns_mapM {A B} (f : A -> M B) (l : list A) :
  (forall a, In a l -> returns (f a)) -> returns (mapM f l).
Proof.
  induction l as [|a rest IH]; intros Hf; cbn [mapM].
  - apply returns_ret.
  - apply returns_bind; [apply Hf; now left|]. intros b.
    apply returns_bind; [apply IH; intros a' Ha'; apply Hf; now right|].
    intros bs. apply returns_ret.
Qed.

Lemma nthZ_Some {A} (l : list A) (i : Z) :
  (0 <= i < Z.of_nat (length l))%Z -> exists x, nthZ l i = Some x.
Proof.
  intros H. unfold nthZ.
  replace (i <? 0)%Z with false by (symmetry; apply Z.ltb_ge; lia).
  apply lookup_lt_is_Some. lia.
Qed.

Lemma updateMob_returns game dt mob :
  0 <= Mob.pathProgress mob <= 1 -> returns (updateMob game dt mob).
Proof.
  intros Hp. unfold updateMob.
  destruct (_ || _); [apply returns_ret|].
  assert (Hc : Mob.pathProgress (cleanupExpiredEffects mob (Game.time game))
               = Mob.pathProgress mob).
  { unfold cleanupExpiredEffects. destruct (Mob.slowUntil mob); [|reflexivity].
    now destruct (_ && _). }
  rewrite !Hc.
  destruct (paths (Game.map game) !! O) as [path|]; [|apply returns_ret].
  destruct (1 <? length path)%nat eqn:Hlen; [|apply returns_ret].
  apply Nat.ltb_lt in Hlen.
  set (lastIndex := (Z.of_nat (length path) - 1)%Z).
  assert (Hlast : (1 <= lastIndex)%Z) by (unfold lastIndex; lia).
  set (pathIndex := Zfloor (Mob.pathProgress mob * IZR lastIndex)).
  assert (Hidx : (0 <= pathIndex <= lastIndex)%Z).
  { assert (0 <= IZR lastIndex) by (apply IZR_le; lia).
    split.
    - apply Zfloor_lub. cbn. nra.
    - apply le_IZR. pose proof (Zfloor_bound (Mob.pathProgress mob * IZR lastIndex)).
      fold pathIndex in H0. nra. }
  destruct (nthZ_Some path pathIndex) as [cur Hcur]; [unfold lastIndex in *; lia|].
  destruct (nthZ_Some path (Z.min (pathIndex + 1) lastIndex)) as [nxt Hnxt];
    [unfold lastIndex in *; lia|].
  rewrite Hcur, Hnxt.
  destruct (Rltb _ _); [|apply returns_ret].
  destruct (Rleb _ _); [|apply returns_ret].
  destruct (_ <=? _)%Z; [apply returns_ret|].
  destruct (nthZ_Some path (Z.min (Z.min (pathIndex + 1) lastIndex + 1) lastIndex))
    as [p Hpth]; [unfold lastIndex in *; lia|].
  rewrite Hpth. apply returns_ret.
Qed.

Lemma updateMobs_returns game dt :
  Forall (fun mob => 0 <= Mob.pathProgress mob <= 1) (Game.mobs game) ->
  returns (updateMobs game dt).
Proof.
  intros H. unfold updateMobs. apply returns_bind; [|intros; apply returns_ret].
  apply returns_mapM. intros mob Hin. apply updateMob_returns.
  now apply (proj1 (List.Forall_forall _ _) H).
Qed.

Lemma updateTower_returns random time mobs tower :
  returns (updateTower random time mobs tower).
Proof.
  unfold updateTower.
  assert (exists d, TOWER_DEFINITIONS (TowerType.name (Tower.kind tower))
                    = Own d) as [d ->]
    by (destruct (Tower.kind tower); eexists; reflexivity).
  apply returns_bind; [apply returns_ret|]. intros towerDef.
  destruct (findTarget _ _ _); [|apply returns_ret].
  destruct (fireIntervalPassed _ _); [|apply returns_ret].
  apply returns_bind; [|intros; apply returns_ret].
  unfold createProjectile. apply returns_bind; [|intros; apply returns_ret].
  intros k. eexists. eexists. reflexivity.
Qed.

Lemma updateTowers_returns random game dt :
  returns (updateTowers random game dt).
Proof.
  unfold updateTowers. apply returns_bind; [|intros; apply returns_ret].
  apply returns_mapM. intros tower _. apply updateTower_returns.
Qed.

Lemma updateWaves_returns random game dt k :
  game_wf game ->
  exists game1 k1,
    updateWaves random game dt k = Returned game1 k1 /\
    Forall (fun mob => 0 <= Mob.pathProgress mob <= 1) (Game.mobs game1).
Proof.
  intros [Hspawn Hmobs]. unfold updateWaves, createMob, bind, Math_random, ret.
  destruct (spawnPoints (Game.map game)) as [|sp rest] eqn:Esp; [easy|].
  cbn [lookup list_lookup].
  repeat match goal with
         | |- context [if ?b then _ else _] => destruct b
         | |- context [match nthZ ?l ?i with _ => _ end] => destruct (nthZ l i)
         end;
    eexists; eexists; (split; [reflexivity|]); cbn;
    first [ exact Hmobs
          | apply Forall_app; split;
            [exact Hmobs | constructor; [cbn; lra | constructor]] ].
Qed.

(** On a well-formed game [advanceTick] returns a game: it does not raise. *)
Lemma advanceTick_returns random game dt k :
  game_wf game ->
  exists game' k', advanceTick random game dt k = Returned game' k'.
Proof.
  intros Hwf. unfold advanceTick, beforeGameStateCheck.
  destruct (updateWaves_returns random
              (Game.with_time game (Game.time game + dt)
                              (Game.tickCount game + 1)%Z) dt k)
    as (g1 & k1 & Ew & Hm1); [exact Hwf|].
  destruct (updateMobs_returns g1 dt Hm1 k1) as (g2 & k2 & Em).
  destruct (updateTowers_returns random g2 dt k2) as (g3 & k3 & Et).
  unfold bind. rewrite Ew, Em, Et. eexists. eexists. reflexivity.
Qed.

(** ** The repository's unit tests and a few more runs *)

Example Grid_isValid_tests :
  Grid.isValid 0 0 = true /\ Grid.isValid 19 14 = true /\
  Grid.isValid (-1) 0 = false /\ Grid.isValid 0 (-1) = false /\
  Grid.isValid 20 0 = false /\ Grid.isValid 0 15 = false.
Proof. repeat split; reflexivity. Qed.

Example Grid_distance_test :
  GridW.distance (mkVec2 0 0) (mkVec2 3 4) = 5 /\
  GridW.distanceSquared (mkVec2 0 0) (mkVec2 3 4) = 25.
Proof.
  unfold GridW.distance, GridW.distanceSquared. cbn. split; [|lra].
  replace ((0 - 3) * (0 - 3) + (0 - 4) * (0 - 4)) with (5 * 5) by lra.
  apply sqrt_square. lra.
Qed.

Example getEffectiveDamage_tests :
  getEffectiveDamage 25 0 = 25 /\ getEffectiveDamage 25 5 = 20 /\
  getEffectiveDamage 25 30 = 1.
Proof.
  unfold getEffectiveDamage. repeat split.
  - rewrite Rmax_right by lra. lra.
  - rewrite Rmax_right by lra. lra.
  - rewrite Rmax_left by lra. reflexivity.
Qed.

Example applyDamage_tests :
  Mob.hp (applyDamage (testMob "mob1" 0 0 0) 25) = 25 /\
  Mob.isDead (applyDamage (testMob "mob1" 0 0 0) 25) = false /\
  Mob.hp (applyDamage (testMob "mob1" 0 0 0) 50) = 0 /\
  Mob.isDead (applyDamage (testMob "mob1" 0 0 0) 50) = true.
Proof.
  unfold applyDamage. cbn.
  replace (Rmax 0 (50 - 25)) with 25 by (rewrite Rmax_right by lra; lra).
  replace (Rmax 0 (50 - 50)) with 0 by (rewrite Rmax_left by lra; lra).
  rcmp. repeat split; reflexivity.
Qed.

(** The search goes round the blocked tile (5, 5). *)
Example findPath_round_blocked :
  Pathfinder.findPath createDefaultMap (5, 4)%Z (5, 6)%Z
  = [(5, 4); (4, 4); (4, 5); (4, 6); (5, 6)]%Z.
Proof. vm_compute. reflexivity. Qed.

(** No walkable neighbour: the empty sequence. *)
Example findPath_no_path :
  Pathfinder.findPath
    (mkGameMap 20 15 (repeat (repeat TileType.blocked 20) 15) [] [] (1, 0)%Z)
    (0, 0)%Z (1, 0)%Z
  = [].
Proof. vm_compute. reflexivity. Qed.

Lemma findPath_invalid map start end_ :
  Grid.isValidVec start = false \/ Grid.isValidVec end_ = false ->
  Pathfinder.findPath map start end_ = [].
Proof.
  unfold Pathfinder.findPath. intros [-> | ->]; cbn [negb orb];
    [reflexivity | now rewrite orb_true_r].
Qed.

(** For an active multiplier of at least [0.1], the clamped new multiplier
    is at most the active one exactly when the amount is. *)
Lemma clamped_multiplier_le amount m :
  0.1 <= m -> (Rmax 0.1 amount <= m <-> amount <= m).
Proof.
  intros Hm. unfold Rmax. destruct (Rle_dec 0.1 amount); split; lra.
Qed.

(** * Further properties of the engine and the store *)

(** ** effects.ts: damage, expiry of slows, upgrades *)

(** X1.  A hit always costs: with the damage [getEffectiveDamage] computes,
    whatever the armor, [applyDamage] leaves hit points between [0] and
    [max(0, hp - 1)]; the mob is flagged dead exactly when its hit points
    reach [0], that is when they were at most [max(1, baseDamage - armor)];
    nothing but [hp] and [isDead] changes. *)
Theorem applyDamage_effective (mob : Mob.t) (baseDamage armor : R) :
  let hit := applyDamage mob (getEffectiveDamage baseDamage armor) in
  0 <= Mob.hp hit /\
  Mob.hp hit <= Rmax 0 (Mob.hp mob - 1) /\
  (Mob.isDead hit = true <-> Mob.hp hit = 0) /\
  (Mob.isDead hit = true <-> Mob.hp mob <= Rmax 1 (baseDamage - armor)) /\
  hit = Mob.with_hp mob (Mob.hp hit) (Mob.isDead hit).
Proof.
  intros hit. subst hit. unfold applyDamage, getEffectiveDamage.
  cbn [Mob.hp Mob.isDead Mob.with_hp].
  set (damage := Rmax 1 (baseDamage - armor)).
  assert (Hd : 1 <= damage) by apply Rmax_l.
  pose proof (Rmax_l 0 (Mob.hp mob - damage)) as Hnonneg.
  repeat split.
  - exact Hnonneg.
  - apply Rmax_lub.
    + apply Rmax_l.
    + eapply Rle_trans; [|apply Rmax_r]. lra.
  - intros H. apply Rleb_true in H. lra.
  - intros H. apply Rleb_true. lra.
  - intros H. apply Rleb_true in H.
    destruct (Rle_dec (Mob.hp mob) damage) as [Hle|Hgt]; [exact Hle|].
    pose proof (Rmax_r 0 (Mob.hp mob - damage)). lra.
  - intros H. apply Rleb_true. rewrite Rmax_left by lra. lra.
Qed.

(** Where an expired slow stands, [updateMobSpeed] and [isSlowed] already
    ignore it. *)
Lemma cleanupExpiredEffects_cases mob t :
  (cleanupExpiredEffects mob t = Mob.with_slow mob None None /\
   exists slowUntil, Mob.slowUntil mob = Some slowUntil /\
                     slowUntil <> 0 /\ slowUntil <= t)
  \/
  (cleanupExpiredEffects mob t = mob /\
   forall slowUntil, Mob.slowUntil mob = Some slowUntil ->
                     slowUntil = 0 \/ t < slowUntil).
Proof.
  unfold cleanupExpiredEffects.
  destruct (Mob.slowUntil mob) as [u|] eqn:Hu.
  - destruct (truthy (Some u)) eqn:Ht; cbn [andb].
    + destruct (Rleb u t) eqn:Hle.
      * left. split; [reflexivity|]. exists u. repeat split.
        -- now apply truthy_Some.
        -- now apply Rleb_true.
      * right. split; [reflexivity|]. intros ? [= <-]. right.
        now apply Rleb_false.
    + right. split; [reflexivity|]. intros ? [= <-]. left.
      destruct (Req_dec_T u 0) as [->|Hn]; [reflexivity|].
      apply truthy_Some in Hn. congruence.
  - right. split; [reflexivity|]. discriminate.
Qed.

(** X2.  [cleanupExpiredEffects] is transparent: at the clean-up time and at
    any later time, the cleaned mob has the speed [updateMobSpeed] gives the
    original, is slowed exactly when the original is, and a clean-up of it
    is the clean-up of the original (so cleaning twice is cleaning once). *)
Theorem cleanupExpiredEffects_transparent (mob : Mob.t) (t t' : R) :
  t <= t' ->
  let cleaned := cleanupExpiredEffects mob t in
  updateMobSpeed cleaned t' = updateMobSpeed mob t' /\
  isSlowed cleaned t' = isSlowed mob t' /\
  cleanupExpiredEffects cleaned t' = cleanupExpiredEffects mob t'.
Proof.
  intros Ht' cleaned. subst cleaned.
  destruct (cleanupExpiredEffects_cases mob t)
    as [[-> (u & Hu & Hu0 & Hle)] | [Heq _]].
  - assert (Hexp : truthy (Some u) && Rleb u t' = true).
    { apply andb_true_iff. split; [now apply truthy_Some|].
      apply Rleb_true. lra. }
    unfold updateMobSpeed, isSlowed, cleanupExpiredEffects.
    cbn [Mob.slowUntil Mob.slowMultiplier Mob.speed Mob.with_slow].
    rewrite Hu, Hexp.
    apply andb_true_iff in Hexp as [Htr Hle'].
    rewrite Htr. cbn [andb].
    replace (Rltb t' u) with false
      by (symmetry; apply Rltb_false; apply Rleb_true in Hle'; lra).
    now repeat split.
  - rewrite !Heq. now repeat split.
Qed.

Lemma cleanupExpiredEffects_transparent_witness :
  let mob := slowedMob (Some 3) (Some 0.5) in
  updateMobSpeed (cleanupExpiredEffects mob 4) 5 = updateMobSpeed mob 5 /\
  isSlowed (cleanupExpiredEffects mob 4) 5 = isSlowed mob 5 /\
  cleanupExpiredEffects (cleanupExpiredEffects mob 4) 5
  = cleanupExpiredEffects mob 5.
Proof.
  intros mob. apply (cleanupExpiredEffects_transparent mob 4 5). lra.
Defined.

(** X3.  A stored slow wears off.  When [applySlow] stores the slow (no slow
    is pending on the mob) and the expiry [now + duration] is not the number
    [0], then before the expiry the mob moves at
    [speed * max(0.1, amount)] and is slowed, and from the expiry on it moves
    at its own speed, is not slowed, and [cleanupExpiredEffects] removes the
    two slow fields. *)
Theorem applySlow_wears_off (mob : Mob.t) (duration amount now t : R) :
  slowPending mob now = false ->
  now + duration <> 0 ->
  let slowed := applySlow mob duration amount now in
  (t < now + duration ->
   updateMobSpeed slowed t = Mob.speed mob * Rmax 0.1 amount /\
   isSlowed slowed t = true /\
   cleanupExpiredEffects slowed t = slowed) /\
  (now + duration <= t ->
   updateMobSpeed slowed t = Mob.speed mob /\
   isSlowed slowed t = false /\
   cleanupExpiredEffects slowed t = Mob.with_slow mob None None).
Proof.
  intros Hpending Hnz slowed. subst slowed.
  rewrite (applySlow_not_pending _ _ _ _ Hpending).
  pose proof (Rmax_floor_le amount) as Hfloor.
  assert (Hm : truthy (Some (Rmax 0.1 amount)) = true)
    by (apply truthy_Some; lra).
  assert (Hu : truthy (Some (now + duration)) = true)
    by now apply truthy_Some.
  unfold updateMobSpeed, isSlowed, cleanupExpiredEffects.
  cbn [Mob.slowUntil Mob.slowMultiplier Mob.speed Mob.with_slow].
  rewrite Hm, Hu. cbn [andb]. split; intros Ht.
  - replace (Rleb (now + duration) t) with false
      by (symmetry; now apply Rleb_false).
    replace (Rltb t (now + duration)) with true
      by (symmetry; now apply Rltb_true).
    now repeat split.
  - replace (Rleb (now + duration) t) with true
      by (symmetry; now apply Rleb_true).
    replace (Rltb t (now + duration)) with false
      by (symmetry; now apply Rltb_false).
    now repeat split.
Qed.

Lemma applySlow_wears_off_witness :
  let slowed := applySlow (slowedMob None None) 3 0.5 1 in
  (updateMobSpeed slowed 2 = 1 * Rmax 0.1 0.5 /\
   isSlowed slowed 2 = true /\
   cleanupExpiredEffects slowed 2 = slowed) /\
  (updateMobSpeed slowed 4 = 1 /\
   isSlowed slowed 4 = false /\
   cleanupExpiredEffects slowed 4 = slowedMob None None).
Proof.
  intros slowed. split.
  - apply (applySlow_wears_off (slowedMob None None) 3 0.5 1 2);
      [reflexivity | lra | lra].
  - apply (applySlow_wears_off (slowedMob None None) 3 0.5 1 4);
      [reflexivity | lra | lra].
Defined.

(** X4.  [getSlowDurationRemaining] is never negative and never grows as
    time passes; it is positive exactly while the mob's expiry is pending
    (so whenever the mob [isSlowed]); and right after [applySlow] has stored
    a slow of a positive duration (expiry not the number [0]) it is that
    duration. *)
Theorem getSlowDurationRemaining_spec (mob : Mob.t) (t : R) :
  0 <= getSlowDurationRemaining mob t /\
  (0 < getSlowDurationRemaining mob t <-> slowPending mob t = true) /\
  (isSlowed mob t = true -> 0 < getSlowDurationRemaining mob t) /\
  (forall t', t <= t' ->
     getSlowDurationRemaining mob t' <= getSlowDurationRemaining mob t) /\
  (forall duration amount,
     slowPending mob t = false -> 0 < duration -> t + duration <> 0 ->
     getSlowDurationRemaining (applySlow mob duration amount t) t = duration).
Proof.
  assert (Hpos : 0 < getSlowDurationRemaining mob t
                 <-> slowPending mob t = true).
  { unfold getSlowDurationRemaining, slowPending.
    destruct (Mob.slowUntil mob) as [u|]; [|split; [lra|discriminate]].
    destruct (truthy (Some u)); cbn [negb orb andb];
      [|split; [lra|discriminate]].
    destruct (Rleb u t) eqn:E.
    - apply Rleb_true in E. split; [lra|].
      intros H. apply Rltb_true in H. lra.
    - apply Rleb_false in E. split; [|lra].
      intros _. now apply Rltb_true. }
  repeat split.
  - unfold getSlowDurationRemaining.
    destruct (Mob.slowUntil mob) as [u|]; [|lra].
    destruct (negb _ || Rleb u t) eqn:E; [lra|].
    apply orb_false_iff in E as [_ E]. apply Rleb_false in E. lra.
  - apply Hpos.
  - apply Hpos.
  - intros H. apply Hpos. now apply isSlowed_pending.
  - intros t' Ht'. unfold getSlowDurationRemaining.
    destruct (Mob.slowUntil mob) as [u|]; [|lra].
    destruct (truthy (Some u)); cbn [negb orb]; [|lra].
    destruct (Rleb u t') eqn:E'; destruct (Rleb u t) eqn:E;
      try apply Rleb_true in E'; try apply Rleb_false in E';
      try apply Rleb_true in E; try apply Rleb_false in E; lra.
  - intros duration amount Hpending Hd Hnz.
    rewrite (applySlow_not_pending _ _ _ _ Hpending).
    unfold getSlowDurationRemaining. cbn [Mob.slowUntil Mob.with_slow].
    replace (truthy (Some (t + duration))) with true
      by (symmetry; now apply truthy_Some).
    replace (Rleb (t + duration) t) with false
      by (symmetry; apply Rleb_false; lra).
    cbn [negb orb]. lra.
Qed.

Lemma getSlowDurationRemaining_spec_witness :
  getSlowDurationRemaining (applySlow (slowedMob None None) 3 0.5 1) 1 = 3.
Proof.
  apply (getSlowDurationRemaining_spec (slowedMob None None) 1);
    [reflexivity | lra | lra].
Defined.

Lemma getTowerUpgradeCost_tier tower :
  getTowerUpgradeCost tower
  = IZR (50 * (Tower.tier tower + 1) * (Tower.tier tower + 1)).
Proof.
  unfold getTowerUpgradeCost, Math_floor.
  replace (50 * IZR (Tower.tier tower + 1) ^ 2)
    with (IZR (50 * (Tower.tier tower + 1) * (Tower.tier tower + 1)))
    by (rewrite !mult_IZR; ring).
  now rewrite ZfloorZ.
Qed.

(** X5.  [upgradeTower] stops at tier 3.  A tower at tier 3 or above is
    returned as it is.  Below tier 3 the tier grows by one, the new cost is
    [50 * (tier + 1)^2] for the tier before the upgrade (200 from tier 1,
    450 from tier 2), the new damage is [1.5 * damage] rounded down (the
    whole number [n] with [n <= 1.5 * damage < n + 1]), and identity, tile
    and kind are kept.  So a tower that starts at tier 1 or
    above is unchanged by a third upgrade, and a tier of at most 3 stays at
    most 3. *)
Theorem upgradeTower_tiers (tower : Tower.t) :
  let upgraded := upgradeTower tower in
  ((3 <= Tower.tier tower)%Z -> upgraded = tower) /\
  ((Tower.tier tower < 3)%Z ->
   Tower.tier upgraded = (Tower.tier tower + 1)%Z /\
   Tower.cost upgraded
   = IZR (50 * (Tower.tier tower + 1) * (Tower.tier tower + 1)) /\
   (exists n : Z,
       Tower.damage upgraded = IZR n /\
       IZR n <= Tower.damage tower * 1.5 < IZR n + 1) /\
   Tower.id upgraded = Tower.id tower /\
   Tower.tile upgraded = Tower.tile tower /\
   Tower.kind upgraded = Tower.kind tower) /\
  ((1 <= Tower.tier tower)%Z ->
   upgradeTower (upgradeTower upgraded) = upgradeTower upgraded) /\
  ((Tower.tier tower <= 3)%Z -> (Tower.tier upgraded <= 3)%Z).
Proof.
  intros upgraded.
  assert (Hmax : forall t, (3 <= Tower.tier t)%Z -> upgradeTower t = t).
  { intros t Ht. unfold upgradeTower, canUpgradeTower. cbn [orElse].
    replace (Tower.tier t <? 3)%Z with false
      by (symmetry; apply Z.ltb_ge; lia).
    reflexivity. }
  assert (Hup : forall t, (Tower.tier t < 3)%Z ->
                Tower.tier (upgradeTower t) = (Tower.tier t + 1)%Z).
  { intros t Ht. unfold upgradeTower, canUpgradeTower. cbn [orElse].
    replace (Tower.tier t <? 3)%Z with true
      by (symmetry; apply Z.ltb_lt; lia).
    reflexivity. }
  repeat split.
  - apply Hmax.
  - now apply Hup.
  - subst upgraded. unfold upgradeTower, canUpgradeTower. cbn [orElse].
    replace (Tower.tier tower <? 3)%Z with true
      by (symmetry; apply Z.ltb_lt; lia).
    cbn [negb Tower.cost]. apply getTowerUpgradeCost_tier.
  - subst upgraded. unfold upgradeTower, canUpgradeTower. cbn [orElse].
    replace (Tower.tier tower <? 3)%Z with true
      by (symmetry; apply Z.ltb_lt; lia).
    cbn [negb Tower.damage]. unfold Math_floor.
    exists (Zfloor (Tower.damage tower * 1.5)).
    split; [reflexivity | apply Zfloor_bound].
  - subst upgraded. unfold upgradeTower. now destruct (negb _).
  - subst upgraded. unfold upgradeTower. now destruct (negb _).
  - subst upgraded. unfold upgradeTower. now destruct (negb _).
  - intros H1. apply Hmax.
    destruct (Z_lt_le_dec (Tower.tier tower) 3) as [Hlt|Hge].
    + destruct (Z_lt_le_dec (Tower.tier upgraded) 3) as [Hlt'|Hge'].
      * rewrite (Hup _ Hlt'). subst upgraded. rewrite (Hup _ Hlt). lia.
      * now rewrite (Hmax _ Hge').
    + subst upgraded. now rewrite !(Hmax _ Hge).
  - intros H3. subst upgraded.
    destruct (Z_lt_le_dec (Tower.tier tower) 3) as [Hlt|Hge].
    + rewrite (Hup _ Hlt). lia.
    + now rewrite (Hmax _ Hge).
Qed.

Lemma upgradeTower_tiers_witness :
  Tower.tier (upgradeTower testTower) = (1 + 1)%Z /\
  Tower.cost (upgradeTower testTower) = IZR (50 * (1 + 1) * (1 + 1)) /\
  (exists n : Z,
      Tower.damage (upgradeTower testTower) = IZR n /\
      IZR n <= 25 * 1.5 < IZR n + 1) /\
  Tower.id (upgradeTower testTower) = Literal "tower1" /\
  Tower.tile (upgradeTower testTower) = (5, 5)%Z /\
  Tower.kind (upgradeTower testTower) = TowerType.arrow.
Proof.
  apply (upgradeTower_tiers testTower). cbn. lia.
Defined.

(** ** grid.ts: coordinates, neighbours, tiles *)

(** X6.  Grid and world coordinates.  [gridToWorld] gives the centre of a
    cell and [worldToGrid] takes it back to the cell; [worldToGrid] maps a
    world position to the cell that holds it, whose centre is within half a
    tile in both directions; and the cell is on the grid exactly when the
    position is inside the map rectangle. *)
Theorem worldToGrid_gridToWorld (x y : Z) (worldX worldY : R) :
  (let centre := GridW.gridToWorld (IZR x) (IZR y) in
   GridW.worldToGrid (vx centre) (vy centre) = (x, y)) /\
  (let cell := GridW.worldToGrid worldX worldY in
   let centre := GridW.gridToWorld (IZR (fst cell)) (IZR (snd cell)) in
   IZR (fst cell) <= worldX < IZR (fst cell) + 1 /\
   IZR (snd cell) <= worldY < IZR (snd cell) + 1 /\
   Rabs (vx centre - worldX) <= 0.5 /\
   Rabs (vy centre - worldY) <= 0.5 /\
   (Grid.isValidVec cell = true <->
    0 <= worldX < IZR MAP_SIZE.width /\ 0 <= worldY < IZR MAP_SIZE.height)).
Proof.
  split.
  - cbn. unfold GridW.worldToGrid. f_equal; apply Zfloor_eq; lra.
  - cbn zeta. unfold GridW.worldToGrid, GridW.gridToWorld. cbn [fst snd vx vy].
    pose proof (Zfloor_bound worldX) as Hx.
    pose proof (Zfloor_bound worldY) as Hy.
    repeat split; try lra.
    + apply Rabs_le. lra.
    + apply Rabs_le. lra.
    + unfold Grid.isValidVec, Grid.isValid in H. cbn [fst snd] in H.
      apply andb_true_iff in H as [H _].
      apply andb_true_iff in H as [H _].
      apply andb_true_iff in H as [H _].
      apply Z.leb_le, IZR_le in H. lra.
    + unfold Grid.isValidVec, Grid.isValid in H. cbn [fst snd] in H.
      apply andb_true_iff in H as [H _].
      apply andb_true_iff in H as [H _].
      apply andb_true_iff in H as [_ H].
      apply Z.ltb_lt in H.
      assert (Zfloor worldX + 1 <= MAP_SIZE.width)%Z as H' by lia.
      apply IZR_le in H'. rewrite plus_IZR in H'. lra.
    + unfold Grid.isValidVec, Grid.isValid in H. cbn [fst snd] in H.
      apply andb_true_iff in H as [H _].
      apply andb_true_iff in H as [_ H].
      apply Z.leb_le, IZR_le in H. lra.
    + unfold Grid.isValidVec, Grid.isValid in H. cbn [fst snd] in H.
      apply andb_true_iff in H as [_ H].
      apply Z.ltb_lt in H.
      assert (Zfloor worldY + 1 <= MAP_SIZE.height)%Z as H' by lia.
      apply IZR_le in H'. rewrite plus_IZR in H'. lra.
    + intros [[Hx0 Hx1] [Hy0 Hy1]].
      unfold Grid.isValidVec, Grid.isValid. cbn [fst snd].
      assert (0 <= Zfloor worldX)%Z by (apply Zfloor_lub; lra).
      assert (0 <= Zfloor worldY)%Z by (apply Zfloor_lub; lra).
      assert (Zfloor worldX < MAP_SIZE.width)%Z
        by (apply lt_IZR; lra).
      assert (Zfloor worldY < MAP_SIZE.height)%Z
        by (apply lt_IZR; lra).
      repeat (apply andb_true_iff; split);
        first [now apply Z.leb_le | now apply Z.ltb_lt].
Qed.

#[local] Open Scope Z_scope.

Lemma isValidVec_true (c : Cell) :
  Grid.isValidVec c = true <->
  0 <= fst c < MAP_SIZE.width /\ 0 <= snd c < MAP_SIZE.height.
Proof.
  unfold Grid.isValidVec, Grid.isValid.
  rewrite !andb_true_iff, !Z.leb_le, !Z.ltb_lt. tauto.
Qed.

Lemma filter_sublist {A} (p : A -> bool) (l : list A) :
  sublist (List.filter p l) l.
Proof.
  induction l as [|x l IH]; cbn [List.filter]; [constructor|].
  destruct (p x); [now apply sublist_skip | now apply sublist_cons].
Qed.

Lemma offsets_NoDup (pos : Cell) (dirs : list Cell) :
  List.NoDup dirs ->
  List.NoDup (List.map (fun dir => (fst pos + fst dir, snd pos + snd dir)) dirs).
Proof.
  induction 1 as [|dir dirs Hnot _ IH]; cbn [List.map]; constructor.
  - rewrite in_map_iff. intros ([x y] & [= Hx Hy] & Hin).
    apply Hnot. destruct dir as [x' y'].
    cbn [fst snd] in *.
    now replace x' with x by lia; replace y' with y by lia.
  - exact IH.
Qed.

(** X7.  [getNeighbors8] returns exactly the cells of the grid at king's-move
    distance 1 from the position (whether or not the position itself is on
    the grid), each once and never the position itself; the four cells of
    [getNeighbors] are among them; there are 8 of them when the position is
    not on the border of the grid, and never more. *)
Theorem getNeighbors8_spec (a b : Cell) :
  (In b (Grid.getNeighbors8 a) <->
   Grid.isValidVec b = true /\
   Z.max (Z.abs (fst b - fst a)) (Z.abs (snd b - snd a)) = 1) /\
  List.NoDup (Grid.getNeighbors8 a) /\
  ~ In a (Grid.getNeighbors8 a) /\
  incl (Grid.getNeighbors a) (Grid.getNeighbors8 a) /\
  (length (Grid.getNeighbors8 a) <= 8)%nat /\
  (1 <= fst a <= MAP_SIZE.width - 2 /\ 1 <= snd a <= MAP_SIZE.height - 2 ->
   length (Grid.getNeighbors8 a) = 8%nat).
Proof.
  assert (Hin : forall c, In c (Grid.getNeighbors8 a) <->
            Grid.isValidVec c = true /\
            Z.max (Z.abs (fst c - fst a)) (Z.abs (snd c - snd a)) = 1).
  { intros [cx cy]. destruct a as [ax ay].
    unfold Grid.getNeighbors8. rewrite filter_In.
    cbn [List.map Grid.directions8 In fst snd]. split.
    - intros [Hc Hv]. split; [exact Hv|].
      repeat destruct Hc as [Hc|Hc]; try contradiction;
        injection Hc as <- <-; lia.
    - intros [Hv Hd]. split; [|exact Hv].
      assert (Hx : cx = ax + -1 \/ cx = ax + 0 \/ cx = ax + 1) by lia.
      assert (Hy : cy = ay + -1 \/ cy = ay + 0 \/ cy = ay + 1) by lia.
      destruct Hx as [-> | [-> | ->]]; destruct Hy as [-> | [-> | ->]];
        try (exfalso; lia); tauto. }
  split; [apply Hin|]. repeat split.
  - unfold Grid.getNeighbors8. apply List.NoDup_filter, offsets_NoDup.
    unfold Grid.directions8. apply NoDup_ListNoDup. compute_done.
  - intros H. apply Hin in H as [_ H]. lia.
  - intros c Hc. apply getNeighbors_spec in Hc as [Hadj Hv].
    apply Hin. split; [exact Hv|]. unfold adjacent4 in Hadj. lia.
  - unfold Grid.getNeighbors8.
    etransitivity; [apply filter_length_le|]. cbn. lia.
  - intros [Hx Hy]. destruct a as [ax ay]. cbn [fst snd] in *.
    unfold MAP_SIZE.width, MAP_SIZE.height in *.
    unfold Grid.getNeighbors8.
    cbn [List.map Grid.directions8 fst snd List.filter].
    repeat match goal with
           | |- context [Grid.isValidVec ?c] =>
               replace (Grid.isValidVec c) with true
                 by (symmetry; apply isValidVec_true;
                     unfold MAP_SIZE.width, MAP_SIZE.height;
                     cbn [fst snd]; lia)
           end.
    reflexivity.
Qed.

(** X8.  [getNeighbors] returns exactly the cells of the grid one step up,
    right, down or left of the position, in that order (what it returns is
    the sequence up, right, down, left with the cells off the grid left
    out), each once and never the position itself: at most 4, all 4 when the
    position is not on the border, and 2 in a corner of the grid. *)
Theorem getNeighbors_exact (a b : Cell) :
  (In b (Grid.getNeighbors a) <->
   Grid.isValidVec b = true /\
   Z.abs (fst b - fst a) + Z.abs (snd b - snd a) = 1) /\
  sublist (Grid.getNeighbors a)
          [(fst a, snd a - 1); (fst a + 1, snd a);
           (fst a, snd a + 1); (fst a - 1, snd a)] /\
  List.NoDup (Grid.getNeighbors a) /\
  ~ In a (Grid.getNeighbors a) /\
  (length (Grid.getNeighbors a) <= 4)%nat /\
  (1 <= fst a <= MAP_SIZE.width - 2 /\ 1 <= snd a <= MAP_SIZE.height - 2 ->
   Grid.getNeighbors a
   = [(fst a, snd a - 1); (fst a + 1, snd a);
      (fst a, snd a + 1); (fst a - 1, snd a)]) /\
  Grid.getNeighbors (0, 0) = [(1, 0); (0, 1)] /\
  Grid.getNeighbors (MAP_SIZE.width - 1, MAP_SIZE.height - 1)
  = [(MAP_SIZE.width - 1, MAP_SIZE.height - 2);
     (MAP_SIZE.width - 2, MAP_SIZE.height - 1)].
Proof.
  assert (Hin : forall c, In c (Grid.getNeighbors a) <->
            Grid.isValidVec c = true /\
            Z.abs (fst c - fst a) + Z.abs (snd c - snd a) = 1).
  { intros c. rewrite getNeighbors_spec. unfold adjacent4.
    split; intros [H1 H2]; split; try assumption; lia. }
  split; [apply Hin|].
  split.
  { unfold Grid.getNeighbors.
    match goal with
    | |- sublist (List.filter _ ?l) ?r =>
        replace r with l
          by (unfold Grid.directions; cbn [List.map fst snd];
              repeat f_equal; lia)
    end.
    apply filter_sublist. }
  repeat split.
  - unfold Grid.getNeighbors. apply List.NoDup_filter, offsets_NoDup.
    unfold Grid.directions. apply NoDup_ListNoDup. compute_done.
  - intros H. apply Hin in H as [_ H]. lia.
  - unfold Grid.getNeighbors.
    etransitivity; [apply filter_length_le|]. cbn. lia.
  - intros [Hx Hy]. destruct a as [ax ay]. cbn [fst snd] in *.
    unfold MAP_SIZE.width, MAP_SIZE.height in *.
    unfold Grid.getNeighbors.
    cbn [List.map Grid.directions fst snd List.filter].
    repeat match goal with
           | |- context [Grid.isValidVec ?c] =>
               replace (Grid.isValidVec c) with true
                 by (symmetry; apply isValidVec_true;
                     unfold MAP_SIZE.width, MAP_SIZE.height;
                     cbn [fst snd]; lia)
           end.
    repeat f_equal; lia.
Qed.

(** X9.  [getTileType] classifies as [isBuildable] and the pathfinder's
    [isWalkable] do: a position is buildable exactly when its tile type is
    ['buildable'] and walkable exactly when it is ['path'] or ['buildable'];
    off the grid the type is ['blocked'], so nothing there is buildable or
    walkable; and on a map of the full extent every position has a type. *)
Theorem getTileType_classifies (map : GameMap) (pos : Cell) :
  (isBuildable map pos = true <->
   getTileType map pos = Some TileType.buildable) /\
  (Pathfinder.isWalkable map pos = true <->
   getTileType map pos = Some TileType.path \/
   getTileType map pos = Some TileType.buildable) /\
  (isBuildable map pos = true -> Pathfinder.isWalkable map pos = true) /\
  (Grid.isValidVec pos = false ->
   getTileType map pos = Some TileType.blocked /\
   isBuildable map pos = false /\ Pathfinder.isWalkable map pos = false) /\
  (map_wf map -> exists tile, getTileType map pos = Some tile).
Proof.
  unfold isBuildable, Pathfinder.isWalkable, getTileType.
  destruct (Grid.isValidVec pos) eqn:Hv; cbn [negb].
  - repeat split; try discriminate.
    + now destruct (tileAt map pos) as [[]|].
    + now destruct (tileAt map pos) as [[]|].
    + destruct (tileAt map pos) as [[]|]; try discriminate; tauto.
    + destruct (tileAt map pos) as [[]|]; intros [H|H]; congruence.
    + now destruct (tileAt map pos) as [[]|].
    + intros [Hrows Hcols]. apply isValidVec_true in Hv as [Hx Hy].
      unfold tileAt.
      destruct (nth_error (tiles map) (Z.to_nat (snd pos))) as [row|] eqn:Hr.
      * rewrite Forall_forall in Hcols.
        apply nth_error_In in Hr as Hin. apply list_elem_of_In in Hin.
        specialize (Hcols _ Hin).
        destruct (nth_error row (Z.to_nat (fst pos))) as [tile|] eqn:Ht;
          [now exists tile|].
        apply nth_error_None in Ht. unfold MAP_SIZE.width in *. lia.
      * apply nth_error_None in Hr. unfold MAP_SIZE.height in *. lia.
  - repeat split; try discriminate; try congruence.
    + intros [H|H]; discriminate.
    + intros _. now exists TileType.blocked.
Qed.

(** ** grid.ts: the paths found *)

Lemma findPath_cases map start end_ :
  Grid.isValidVec start = true ->
  Grid.isValidVec end_ = true ->
  let found := Pathfinder.findPath map start end_ in
  (found = [] /\ forall p, ~ walk map start p end_) \/
  (walk map start found end_ /\
   forall q, walk map start q end_ -> (length found <= length q)%nat).
Proof.
  intros Hs He found.
  destruct (search_correct map start end_ Pathfinder.searchFuel
              [Node start 0 (Pathfinder.heuristic start end_) None] ∅)
    as (result & Hrun & Hres).
  - now apply search_inv_initial.
  - rewrite size_empty. change Pathfinder.searchFuel with 301%nat. lia.
  - assert (E : found = result).
    { unfold found, Pathfinder.findPath. rewrite Hs, He. cbn [negb orb].
      now rewrite Hrun. }
    rewrite E. destruct Hres as [[-> Hnone] | [Hwalk Hmin]].
    + left. split; [reflexivity|]. intros p Hp.
      apply (Hnone _ (walk_reach _ _ _ _ Hp)).
    + right. split; [exact Hwalk|]. intros q Hq.
      pose proof (Hmin _ (walk_reach _ _ _ _ Hq)) as Hle.
      pose proof (walk_nonempty _ _ _ _ Hq). lia.
Qed.

Lemma walk_head map a p c : walk map a p c -> exists p', p = a :: p'.
Proof. destruct 1; eauto. Qed.

(** From any cell of a walk on, the rest of the walk is a walk. *)
Lemma walk_suffix map a p c x :
  walk map a p c -> In x p ->
  exists p', walk map x p' c /\ (length p' <= length p)%nat.
Proof.
  induction 1 as [a|a b p c Hstep Hwalk IH]; intros Hin.
  - destruct Hin as [<-|[]]. exists [a]. split; [constructor|easy].
  - destruct Hin as [<-|Hin].
    + exists (a :: p). split; [now apply walk_step with b|easy].
    + destruct (IH Hin) as (p' & Hp' & Hlen). exists p'.
      split; [exact Hp'|]. cbn [length]. lia.
Qed.

(** A walk that visits a cell twice can be cut short. *)
Lemma walk_shortcut map a p c :
  walk map a p c -> ~ List.NoDup p ->
  exists q, walk map a q c /\ (length q < length p)%nat.
Proof.
  induction 1 as [a|a b p c Hstep Hwalk IH]; intros Hdup.
  - exfalso. apply Hdup. repeat constructor. intros [].
  - destruct (in_dec (fun x y : Cell => decide (x = y)) a p) as [Hin|Hnot].
    + destruct (walk_suffix _ _ _ _ _ Hwalk Hin) as (p' & Hp' & Hlen).
      exists p'. split; [exact Hp'|]. cbn [length]. lia.
    + destruct IH as (q & Hq & Hlen).
      * intros Hnd. apply Hdup. now constructor.
      * exists (a :: q). split; [now apply walk_step with b|].
        cbn [length]. lia.
Qed.

Lemma walk_valid map a p c :
  walk map a p c -> Grid.isValidVec a = true ->
  List.Forall (fun x => Grid.isValidVec x = true) p.
Proof.
  induction 1 as [a|a b p c [_ Hwalkable] Hwalk IH]; intros Ha.
  - now repeat constructor.
  - constructor; [exact Ha|]. apply IH. now apply isWalkable_valid with map.
Qed.

Lemma valid_cells_bound (p : list Cell) :
  List.NoDup p -> List.Forall (fun x => Grid.isValidVec x = true) p ->
  (length p <= 300)%nat.
Proof.
  intros Hnd Hvalid. apply NoDup_ListNoDup in Hnd.
  rewrite <- (size_list_to_set (C := gset Cell) p Hnd).
  apply closed_size_bound. intros c Hc.
  apply elem_of_list_to_set, list_elem_of_In in Hc.
  rewrite List.Forall_forall in Hvalid. now apply Hvalid.
Qed.

(** X10.  The path [findPath] returns has no loop: no cell occurs twice in
    it, every cell of it is on the grid, and so it holds at most
    [width * height = 300] cells; from a cell of the grid to itself it is the
    one-cell path. *)
Theorem findPath_simple (map : GameMap) (start end_ : Cell) :
  map_wf map ->
  let found := Pathfinder.findPath map start end_ in
  List.NoDup found /\
  List.Forall (fun c => Grid.isValidVec c = true) found /\
  (length found <= 300)%nat /\
  (Grid.isValidVec start = true -> Pathfinder.findPath map start start = [start]).
Proof.
  intros _ found. subst found.
  set (found := Pathfinder.findPath map start end_).
  assert (Hcore : List.NoDup found /\
                  List.Forall (fun c => Grid.isValidVec c = true) found).
  { destruct (Grid.isValidVec start) eqn:Hs;
      [destruct (Grid.isValidVec end_) eqn:He|].
    - pose proof (findPath_cases map start end_ Hs He) as Hcases.
      cbv zeta in Hcases. fold found in Hcases.
      destruct Hcases as [[Hnil _] | [Hwalk Hmin]].
      + rewrite Hnil. split; constructor.
      + split; [|now apply walk_valid with map start end_].
        destruct (ListDec.NoDup_dec (fun x y : Cell => decide (x = y)) found)
          as [Hnd|Hdup]; [exact Hnd|].
        destruct (walk_shortcut _ _ _ _ Hwalk Hdup) as (q & Hq & Hlen).
        specialize (Hmin _ Hq). lia.
    - subst found. rewrite findPath_invalid by now right.
      split; constructor.
    - subst found. rewrite findPath_invalid by now left.
      split; constructor. }
  destruct Hcore as [Hnd Hvalid].
  repeat split; [exact Hnd | exact Hvalid | now apply valid_cells_bound |].
  intros Hs.
  destruct (findPath_cases map start start Hs Hs) as [[_ Hnone] | [Hwalk Hmin]].
  - exfalso. apply (Hnone [start]). constructor.
  - specialize (Hmin [start] (walk_here _ _)). cbn [length] in Hmin.
    destruct (walk_head _ _ _ _ Hwalk) as [p' E]. rewrite E in *.
    destruct p'; [reflexivity|]. cbn [length] in Hmin. lia.
Qed.

Lemma findPath_simple_witness :
  List.NoDup (Pathfinder.findPath createDefaultMap (0, 7) (19, 7)) /\
  (length (Pathfinder.findPath createDefaultMap (0, 7)%Z (19, 7)%Z) <= 300)%nat /\
  Pathfinder.findPath createDefaultMap (0, 7) (0, 7) = [(0, 7)].
Proof.
  destruct (findPath_simple createDefaultMap (0, 7) (19, 7)
              createDefaultMap_wf) as (Hnd & _ & Hlen & Hself).
  split; [exact Hnd | split; [exact Hlen | exact (Hself eq_refl)]].
Defined.

Lemma findPath_nonempty map s base :
  negb (Nat.eqb (length (Pathfinder.findPath map s base)) 0) = true <->
  Grid.isValidVec s = true /\ Grid.isValidVec base = true /\
  exists q, walk map s q base.
Proof.
  split.
  - intros Hnonempty.
    destruct (Grid.isValidVec s) eqn:Hvs;
      [destruct (Grid.isValidVec base) eqn:Hvb|].
    + split; [reflexivity|]. split; [reflexivity|].
      destruct (findPath_cases map s base Hvs Hvb) as [[Hnil _] | [H _]].
      * now rewrite Hnil in Hnonempty.
      * eexists. exact H.
    + rewrite findPath_invalid in Hnonempty by now right. discriminate.
    + rewrite findPath_invalid in Hnonempty by now left. discriminate.
  - intros (Hvs & Hvb & q & Hq).
    destruct (findPath_cases map s base Hvs Hvb) as [[_ Hnone] | [Hwalk _]].
    + now destruct (Hnone q).
    + apply walk_nonempty in Hwalk.
      now destruct (Pathfinder.findPath map s base).
Qed.

Lemma filter_map_Forall2 {A B} (f : A -> B) (p : B -> bool) (l : list A) :
  List.Forall2 (fun a b => b = f a /\ p b = true)
               (List.filter (fun a => p (f a)) l)
               (List.filter p (List.map f l)).
Proof.
  induction l as [|a l IH]; cbn [List.map List.filter]; [constructor|].
  destruct (p (f a)) eqn:E; [|exact IH].
  constructor; [now split | exact IH].
Qed.

(** X11.  [findMultiplePaths] returns, in the order of the spawn points, one
    path for each spawn point from which the base can be reached and none for
    the others: the paths are, one for one and in order, those of the spawn
    points that are on the grid and have a walk to the base position, itself
    on the grid (a spawn point listed twice gives its path twice); the path
    of such a spawn point is what [findPath] returns for it, a shortest walk
    from the spawn point to the base position.  So there are at most as many
    paths as spawn points. *)
Theorem findMultiplePaths_shortest (map : GameMap) :
  map_wf map ->
  exists reaches : Cell -> bool,
    (forall spawnPoint,
        reaches spawnPoint = true <->
        Grid.isValidVec spawnPoint = true /\
        Grid.isValidVec (basePosition map) = true /\
        exists q, walk map spawnPoint q (basePosition map)) /\
    List.Forall2
      (fun spawnPoint p =>
         p = Pathfinder.findPath map spawnPoint (basePosition map) /\
         walk map spawnPoint p (basePosition map) /\
         forall q, walk map spawnPoint q (basePosition map) ->
                   (length p <= length q)%nat)
      (List.filter reaches (spawnPoints map))
      (Pathfinder.findMultiplePaths map) /\
    (length (Pathfinder.findMultiplePaths map)
     <= length (spawnPoints map))%nat.
Proof.
  intros _.
  exists (fun s =>
            negb (Nat.eqb (length (Pathfinder.findPath map s
                                     (basePosition map))) 0)).
  split; [intros s; apply findPath_nonempty|]. split.
  - unfold Pathfinder.findMultiplePaths.
    eapply List.Forall2_impl;
      [|apply (filter_map_Forall2
                 (fun s => Pathfinder.findPath map s (basePosition map))
                 (fun p => negb (Nat.eqb (length p) 0)))].
    cbv beta. intros s p [-> Hnonempty]. split; [reflexivity|].
    apply findPath_nonempty in Hnonempty as (Hvs & Hvb & q & Hq).
    destruct (findPath_cases map s (basePosition map) Hvs Hvb)
      as [[_ Hnone] | H]; [now destruct (Hnone q) | exact H].
  - unfold Pathfinder.findMultiplePaths.
    etransitivity; [apply filter_length_le|]. now rewrite length_map.
Qed.

(** The default map: the one spawn point (0, 7) reaches the base and gives
    the one path. *)
Lemma findMultiplePaths_shortest_witness :
  exists reaches : Cell -> bool,
    (forall spawnPoint,
        reaches spawnPoint = true <->
        Grid.isValidVec spawnPoint = true /\
        Grid.isValidVec (basePosition createDefaultMap) = true /\
        exists q, walk createDefaultMap spawnPoint q
                       (basePosition createDefaultMap)) /\
    List.Forall2
      (fun spawnPoint p =>
         p = Pathfinder.findPath createDefaultMap spawnPoint
               (basePosition createDefaultMap) /\
         walk createDefaultMap spawnPoint p (basePosition createDefaultMap) /\
         forall q, walk createDefaultMap spawnPoint q
                        (basePosition createDefaultMap) ->
                   (length p <= length q)%nat)
      (List.filter reaches (spawnPoints createDefaultMap))
      (Pathfinder.findMultiplePaths createDefaultMap) /\
    (length (Pathfinder.findMultiplePaths createDefaultMap)
     <= length (spawnPoints createDefaultMap))%nat.
Proof.
  apply (findMultiplePaths_shortest createDefaultMap createDefaultMap_wf).
Defined.

#[local] Close Scope Z_scope.
#[local] Open Scope Z_scope.
#[local] Open Scope R_scope.

(** ** targeting.ts: the other strategies *)

Lemma scanMin_spec key mobs best bound :
  (scanMin key mobs best bound = best /\
   forall m, In m mobs -> belowBound (key m) bound = false)
  \/
  (exists chosen,
      scanMin key mobs best bound = Some chosen /\
      belowBound (key chosen) bound = true /\
      firstLeast key mobs chosen).
Proof.
  revert best bound.
  induction mobs as [|mob rest IH]; intros best bound; cbn [scanMin].
  - left. split; [reflexivity|]. intros m [].
  - destruct (belowBound (key mob) bound) eqn:E.
    + right.
      destruct (IH (Some mob) (Some (key mob)))
        as [[Hbest Hall] | (chosen & Hres & Hbelow & before & after
                            & -> & Hbefore & Hafter)].
      * exists mob. split; [exact Hbest|]. split; [exact E|].
        exists [], rest. split; [reflexivity|]. split; [intros m []|].
        intros m Hm. specialize (Hall m Hm). cbn [belowBound] in Hall.
        now apply Rltb_false in Hall.
      * exists chosen. split; [exact Hres|].
        cbn [belowBound] in Hbelow. apply Rltb_true in Hbelow.
        split.
        -- destruct bound as [b|]; [|reflexivity]. cbn [belowBound] in *.
           apply Rltb_true in E. apply Rltb_true. lra.
        -- exists (mob :: before), after. split; [reflexivity|].
           split; [|exact Hafter].
           intros m [<-|Hm]; [exact Hbelow | now apply Hbefore].
    + destruct (IH best bound)
        as [[Hbest Hall] | (chosen & Hres & Hbelow & before & after
                            & -> & Hbefore & Hafter)].
      * left. split; [exact Hbest|]. intros m [<-|Hm]; [exact E|now apply Hall].
      * right. exists chosen. split; [exact Hres|]. split; [exact Hbelow|].
        exists (mob :: before), after. split; [reflexivity|].
        split; [|exact Hafter].
        intros m [<-|Hm]; [|now apply Hbefore].
        destruct bound as [b|]; [|discriminate]. cbn [belowBound] in *.
        apply Rltb_false in E. apply Rltb_true in Hbelow. lra.
Qed.

Lemma scanLast_scanMin mobs best bestProgress :
  scanLast mobs best bestProgress
  = scanMin Mob.pathProgress mobs best (Some bestProgress).
Proof.
  revert best bestProgress.
  induction mobs as [|mob rest IH]; intros; cbn; [reflexivity|].
  now destruct (Rltb _ _).
Qed.

Lemma scanStrongest_scanMin mobs best bestHp :
  scanStrongest mobs best bestHp
  = scanMin (fun mob => - Mob.hp mob) mobs best (Some (- bestHp)).
Proof.
  revert best bestHp.
  induction mobs as [|mob rest IH]; intros; cbn; [reflexivity|].
  destruct (Rltb bestHp (Mob.hp mob)) eqn:E.
  - replace (Rltb (- Mob.hp mob) (- bestHp)) with true
      by (symmetry; apply Rltb_true; apply Rltb_true in E; lra).
    apply IH.
  - replace (Rltb (- Mob.hp mob) (- bestHp)) with false
      by (symmetry; apply Rltb_false; apply Rltb_false in E; lra).
    apply IH.
Qed.

Lemma scanWeakest_scanMin mobs best bestHp :
  scanWeakest mobs best bestHp = scanMin Mob.hp mobs best bestHp.
Proof.
  revert best bestHp.
  induction mobs as [|mob rest IH]; intros; cbn; [reflexivity|].
  now destruct (belowBound _ _).
Qed.

Lemma scanNearest_scanMin towerPos mobs best bestDistance :
  scanNearest towerPos mobs best bestDistance
  = scanMin (fun mob => GridW.distanceSquared towerPos (Mob.pos mob))
            mobs best bestDistance.
Proof.
  revert best bestDistance.
  induction mobs as [|mob rest IH]; intros; cbn; [reflexivity|].
  now destruct (belowBound _ _).
Qed.

Lemma inRange_spec tower mobs mob :
  In mob (inRange tower mobs) <->
  In mob mobs /\ Mob.isDead mob = false /\ Mob.reachedEnd mob = false /\
  GridW.distance (cellVec (Tower.tile tower)) (Mob.pos mob)
  <= Tower.range tower.
Proof. unfold inRange. now rewrite filter_In, inRangeOf_true. Qed.

Lemma findTarget_inRange tower mobs strategy :
  inRange tower mobs <> [] ->
  findTarget tower mobs strategy
  = match strategy with
    | TargetingStrategy.first => findFirstTarget (inRange tower mobs)
    | TargetingStrategy.last => findLastTarget (inRange tower mobs)
    | TargetingStrategy.strongest => findStrongestTarget (inRange tower mobs)
    | TargetingStrategy.weakest => findWeakestTarget (inRange tower mobs)
    | TargetingStrategy.nearest =>
        findNearestTarget (inRange tower mobs) (cellVec (Tower.tile tower))
    end.
Proof.
  unfold findTarget. fold (inRange tower mobs).
  now destruct (inRange tower mobs).
Qed.

Lemma firstLeast_least key candidates chosen :
  firstLeast key candidates chosen ->
  In chosen candidates /\
  forall m, In m candidates -> key chosen <= key m.
Proof.
  intros (before & after & -> & Hbefore & Hafter). split.
  - apply in_elt.
  - intros m Hm. apply in_app_or in Hm as [Hm|[<-|Hm]].
    + specialize (Hbefore m Hm). lra.
    + lra.
    + now apply Hafter.
Qed.

Lemma firstLeast_pick key candidates chosen :
  firstLeast key candidates chosen ->
  exists before after,
    candidates = before ++ chosen :: after /\
    (forall m, In m candidates -> key chosen <= key m) /\
    (forall m, In m before -> key chosen < key m).
Proof.
  intros Hfirst. destruct (firstLeast_least _ _ _ Hfirst) as [_ Hleast].
  destruct Hfirst as (before & after & E & Hbefore & _).
  now exists before, after.
Qed.

(** X12.  With the strategy ['weakest'], a tower that has a candidate (a mob
    of the list that is not dead, has not reached the end and is within
    range) always gets a target: the candidate with the fewest hit points,
    and among several with the fewest the one that comes first in the list. *)
Theorem findTarget_weakest (tower : Tower.t) (mobs : list Mob.t) :
  inRange tower mobs <> [] ->
  exists before chosen after,
    inRange tower mobs = before ++ chosen :: after /\
    findTarget tower mobs TargetingStrategy.weakest = Some chosen /\
    (forall m, In m (inRange tower mobs) -> Mob.hp chosen <= Mob.hp m) /\
    (forall m, In m before -> Mob.hp chosen < Mob.hp m).
Proof.
  intros Hne. rewrite (findTarget_inRange _ _ _ Hne).
  unfold findWeakestTarget. rewrite scanWeakest_scanMin.
  destruct (scanMin_spec Mob.hp (inRange tower mobs) None None)
    as [[_ Hall] | (chosen & Hres & _ & Hfirst)].
  - destruct (inRange tower mobs) as [|m rest]; [contradiction|].
    specialize (Hall m (or_introl eq_refl)). discriminate.
  - destruct (firstLeast_pick _ _ _ Hfirst) as (before & after & E & H1 & H2).
    now exists before, chosen, after.
Qed.

(** Decide whether a concrete mob is a candidate of [testTower]. *)
Ltac in_range :=
  unfold inRange, inRangeOf, GridW.distance;
  cbn [List.filter Mob.isDead Mob.reachedEnd Mob.pos Mob.with_hp testMob
       testTower Tower.tile Tower.range cellVec vx vy fst snd negb andb];
  repeat match goal with
    | |- context [Rleb (sqrt ?x) ?r] =>
        first [ replace (Rleb (sqrt x) r) with true
                  by (symmetry; apply Rleb_true, sqrt_le_bound; lra)
              | replace (Rleb (sqrt x) r) with false
                  by (symmetry; apply Rleb_false, sqrt_gt_bound; lra) ];
        cbn [List.filter andb]
    end.

Lemma findTarget_weakest_witness :
  exists before chosen after,
    inRange testTower fieldMobs = before ++ chosen :: after /\
    findTarget testTower fieldMobs TargetingStrategy.weakest = Some chosen /\
    (forall m, In m (inRange testTower fieldMobs) ->
               Mob.hp chosen <= Mob.hp m) /\
    (forall m, In m before -> Mob.hp chosen < Mob.hp m).
Proof.
  apply findTarget_weakest. unfold fieldMobs. in_range. discriminate.
Defined.

(** X13.  With the strategy ['nearest'], a tower that has a candidate always
    gets a target: the candidate whose position is at the least distance from
    the tower's tile, and among several at the least distance the one that
    comes first in the list. *)
Theorem findTarget_nearest (tower : Tower.t) (mobs : list Mob.t) :
  inRange tower mobs <> [] ->
  let distanceOf mob :=
    GridW.distance (cellVec (Tower.tile tower)) (Mob.pos mob) in
  exists before chosen after,
    inRange tower mobs = before ++ chosen :: after /\
    findTarget tower mobs TargetingStrategy.nearest = Some chosen /\
    (forall m, In m (inRange tower mobs) -> distanceOf chosen <= distanceOf m) /\
    (forall m, In m before -> distanceOf chosen < distanceOf m).
Proof.
  intros Hne distanceOf. rewrite (findTarget_inRange _ _ _ Hne).
  unfold findNearestTarget. rewrite scanNearest_scanMin.
  set (key := fun mob =>
         GridW.distanceSquared (cellVec (Tower.tile tower)) (Mob.pos mob)).
  assert (Hsqrt : forall m, distanceOf m = sqrt (key m)) by reflexivity.
  assert (Hkey : forall m, 0 <= key m).
  { intros m. unfold key, GridW.distanceSquared. cbv zeta.
    apply Rplus_le_le_0_compat; apply Rle_0_sqr. }
  destruct (scanMin_spec key (inRange tower mobs) None None)
    as [[_ Hall] | (chosen & Hres & _ & Hfirst)].
  - destruct (inRange tower mobs) as [|m rest]; [contradiction|].
    specialize (Hall m (or_introl eq_refl)). discriminate.
  - destruct (firstLeast_pick _ _ _ Hfirst) as (before & after & E & H1 & H2).
    exists before, chosen, after. repeat split; try assumption.
    + intros m Hm. rewrite !Hsqrt. apply sqrt_le_1_alt. now apply H1.
    + intros m Hm. rewrite !Hsqrt. apply sqrt_lt_1_alt.
      split; [apply Hkey | now apply H2].
Qed.

Lemma findTarget_nearest_witness :
  exists before chosen after,
    inRange testTower fieldMobs = before ++ chosen :: after /\
    findTarget testTower fieldMobs TargetingStrategy.nearest = Some chosen /\
    (forall m, In m (inRange testTower fieldMobs) ->
       GridW.distance (cellVec (Tower.tile testTower)) (Mob.pos chosen)
       <= GridW.distance (cellVec (Tower.tile testTower)) (Mob.pos m)) /\
    (forall m, In m before ->
       GridW.distance (cellVec (Tower.tile testTower)) (Mob.pos chosen)
       < GridW.distance (cellVec (Tower.tile testTower)) (Mob.pos m)).
Proof.
  apply findTarget_nearest. unfold fieldMobs. in_range. discriminate.
Defined.

(** X14.  With the strategy ['last'], when every candidate's path progress
    is below the scan's initial bound of 2 (as every progress in the range
    0..1 is), the target is the candidate with the least path progress, and
    among several with the least the one that comes first in the list. *)
Theorem findTarget_last (tower : Tower.t) (mobs : list Mob.t) :
  inRange tower mobs <> [] ->
  (forall mob, In mob (inRange tower mobs) -> Mob.pathProgress mob < 2) ->
  exists before chosen after,
    inRange tower mobs = before ++ chosen :: after /\
    findTarget tower mobs TargetingStrategy.last = Some chosen /\
    (forall m, In m (inRange tower mobs) ->
               Mob.pathProgress chosen <= Mob.pathProgress m) /\
    (forall m, In m before ->
               Mob.pathProgress chosen < Mob.pathProgress m).
Proof.
  intros Hne Hbound. rewrite (findTarget_inRange _ _ _ Hne).
  unfold findLastTarget. rewrite scanLast_scanMin.
  destruct (scanMin_spec Mob.pathProgress (inRange tower mobs) None (Some 2))
    as [[_ Hall] | (chosen & Hres & _ & Hfirst)].
  - destruct (inRange tower mobs) as [|m rest]; [contradiction|].
    specialize (Hall m (or_introl eq_refl)). cbn [belowBound] in Hall.
    apply Rltb_false in Hall.
    specialize (Hbound m (or_introl eq_refl)). lra.
  - destruct (firstLeast_pick _ _ _ Hfirst) as (before & after & E & H1 & H2).
    now exists before, chosen, after.
Qed.

Lemma fieldMobs_inRange :
  inRange testTower fieldMobs
  = [Mob.with_hp (testMob "near" 5 6 0.3) 20 false;
     Mob.with_hp (testMob "nearer" 5.5 5.5 0.5) 20 false].
Proof. unfold fieldMobs. in_range. reflexivity. Qed.

Lemma findTarget_last_witness :
  exists before chosen after,
    inRange testTower fieldMobs = before ++ chosen :: after /\
    findTarget testTower fieldMobs TargetingStrategy.last = Some chosen /\
    (forall m, In m (inRange testTower fieldMobs) ->
               Mob.pathProgress chosen <= Mob.pathProgress m) /\
    (forall m, In m before ->
               Mob.pathProgress chosen < Mob.pathProgress m).
Proof.
  apply findTarget_last.
  - rewrite fieldMobs_inRange. discriminate.
  - rewrite fieldMobs_inRange. intros mob [<-|[<-|[]]]; cbn; lra.
Defined.

(** X15.  With the strategy ['strongest'], when every candidate's hit points
    are above the scan's initial bound of -1 (as all hit points, which are
    never negative, are), the target is the candidate with the most hit
    points, and among several with the most the one that comes first in the
    list. *)
Theorem findTarget_strongest (tower : Tower.t) (mobs : list Mob.t) :
  inRange tower mobs <> [] ->
  (forall mob, In mob (inRange tower mobs) -> -1 < Mob.hp mob) ->
  exists before chosen after,
    inRange tower mobs = before ++ chosen :: after /\
    findTarget tower mobs TargetingStrategy.strongest = Some chosen /\
    (forall m, In m (inRange tower mobs) -> Mob.hp m <= Mob.hp chosen) /\
    (forall m, In m before -> Mob.hp m < Mob.hp chosen).
Proof.
  intros Hne Hbound. rewrite (findTarget_inRange _ _ _ Hne).
  unfold findStrongestTarget. rewrite scanStrongest_scanMin.
  destruct (scanMin_spec (fun mob => - Mob.hp mob) (inRange tower mobs)
              None (Some (- -1)))
    as [[_ Hall] | (chosen & Hres & _ & Hfirst)].
  - destruct (inRange tower mobs) as [|m rest]; [contradiction|].
    specialize (Hall m (or_introl eq_refl)). cbn [belowBound] in Hall.
    apply Rltb_false in Hall.
    specialize (Hbound m (or_introl eq_refl)). lra.
  - destruct (firstLeast_pick _ _ _ Hfirst) as (before & after & E & H1 & H2).
    exists before, chosen, after. repeat split; try assumption.
    + intros m Hm. specialize (H1 m Hm). cbn beta in H1. lra.
    + intros m Hm. specialize (H2 m Hm). cbn beta in H2. lra.
Qed.

Lemma findTarget_strongest_witness :
  exists before chosen after,
    inRange testTower fieldMobs = before ++ chosen :: after /\
    findTarget testTower fieldMobs TargetingStrategy.strongest = Some chosen /\
    (forall m, In m (inRange testTower fieldMobs) ->
               Mob.hp m <= Mob.hp chosen) /\
    (forall m, In m before -> Mob.hp m < Mob.hp chosen).
Proof.
  apply findTarget_strongest.
  - rewrite fieldMobs_inRange. discriminate.
  - rewrite fieldMobs_inRange. intros mob [<-|[<-|[]]]; cbn; lra.
Defined.

Lemma scanMin_sound key mobs best bound chosen :
  scanMin key mobs best bound = Some chosen ->
  best = Some chosen \/ In chosen mobs.
Proof.
  destruct (scanMin_spec key mobs best bound)
    as [[-> _] | (c & -> & _ & Hfirst)]; intros H.
  - now left.
  - injection H as <-. right. now apply firstLeast_least in Hfirst.
Qed.

Lemma scanFirst_sound mobs best bestProgress chosen :
  scanFirst mobs best bestProgress = Some chosen ->
  best = Some chosen \/ In chosen mobs.
Proof.
  destruct (scanFirst_spec mobs best bestProgress)
    as [[-> _] | (before & c & after & -> & -> & _)]; intros H.
  - now left.
  - injection H as <-. right. apply in_elt.
Qed.

Lemma filter_idempotent {A} (p : A -> bool) (l : list A) :
  List.filter p (List.filter p l) = List.filter p l.
Proof.
  induction l as [|a l IH]; [reflexivity|]. cbn [List.filter].
  destruct (p a) eqn:E; [|exact IH]. cbn [List.filter]. now rewrite E, IH.
Qed.

Lemma findTarget_candidate tower mobs strategy target :
  findTarget tower mobs strategy = Some target ->
  In target (inRange tower mobs).
Proof.
  intros H.
  destruct (inRange tower mobs) as [|m rest] eqn:E.
  - unfold findTarget in H. fold (inRange tower mobs) in H.
    rewrite E in H. discriminate.
  - rewrite findTarget_inRange in H by now rewrite E.
    rewrite <- E.
    destruct strategy;
      unfold findFirstTarget, findLastTarget, findStrongestTarget,
             findWeakestTarget, findNearestTarget in H;
      rewrite ?scanLast_scanMin, ?scanStrongest_scanMin,
              ?scanWeakest_scanMin, ?scanNearest_scanMin in H;
      first [apply scanFirst_sound in H | apply scanMin_sound in H];
      now destruct H.
Qed.

(** X16.  Whatever the strategy, the mob [findTarget] returns is one of the
    mobs it was given, is not dead, has not reached the end and is within the
    tower's range of the tower's tile; it is what the strategy's scan returns
    on the candidates; and it does not depend on the mobs that are no
    candidates. *)
Theorem findTarget_sound (tower : Tower.t) (mobs : list Mob.t)
        (strategy : TargetingStrategy.t) (target : Mob.t) :
  findTarget tower mobs strategy = Some target ->
  In target mobs /\
  Mob.isDead target = false /\
  Mob.reachedEnd target = false /\
  GridW.distance (cellVec (Tower.tile tower)) (Mob.pos target)
  <= Tower.range tower /\
  findTarget tower (inRange tower mobs) strategy = Some target.
Proof.
  intros H. pose proof (findTarget_candidate _ _ _ _ H) as Hin.
  apply inRange_spec in Hin as (Hmobs & Hdead & Hend & Hrange).
  repeat split; try assumption.
  assert (E : inRange tower (inRange tower mobs) = inRange tower mobs)
    by apply filter_idempotent.
  unfold findTarget in *. fold (inRange tower mobs) in *.
  fold (inRange tower (inRange tower mobs)). rewrite E. exact H.
Qed.

Lemma findTarget_sound_witness :
  In (Mob.with_hp (testMob "near" 5 6 0.3) 20 false) fieldMobs /\
  Mob.isDead (Mob.with_hp (testMob "near" 5 6 0.3) 20 false) = false /\
  Mob.reachedEnd (Mob.with_hp (testMob "near" 5 6 0.3) 20 false) = false /\
  GridW.distance (cellVec (Tower.tile testTower))
                 (Mob.pos (Mob.with_hp (testMob "near" 5 6 0.3) 20 false))
  <= Tower.range testTower /\
  findTarget testTower (inRange testTower fieldMobs) TargetingStrategy.last
  = Some (Mob.with_hp (testMob "near" 5 6 0.3) 20 false).
Proof.
  apply (findTarget_sound testTower fieldMobs TargetingStrategy.last).
  unfold findTarget. fold (inRange testTower fieldMobs).
  rewrite fieldMobs_inRange. unfold findLastTarget. cbn. rcmp. reflexivity.
Defined.

(** ** targeting.ts: the reach and the bounds of splash damage *)

Lemma applySplashDamage_map center radius baseDamage mobs :
  applySplashDamage center radius baseDamage mobs
  = List.map (fun mob =>
                (mob, splashDamageAt radius baseDamage
                        (GridW.distance center (Mob.pos mob))))
             (getMobsInSplashRadius center radius mobs).
Proof. unfold applySplashDamage. now rewrite splashLoop_filter. Qed.

Lemma splashDamageAt_antitone radius baseDamage d d' :
  0 < radius -> 0 <= baseDamage -> d <= d' ->
  splashDamageAt radius baseDamage d' <= splashDamageAt radius baseDamage d.
Proof.
  intros Hr Hb Hd. unfold splashDamageAt, Math_floor. cbv zeta.
  apply Rle_max_compat_l, IZR_le, Zfloor_le.
  apply Rmult_le_compat_l; [exact Hb|].
  assert (d / radius <= d' / radius).
  { unfold Rdiv. apply Rmult_le_compat_r; [|exact Hd].
    left. now apply Rinv_0_lt_compat. }
  lra.
Qed.

(** X17.  The reach and the bounds of splash damage, for a positive radius
    and a non-negative base damage.  The mobs [applySplashDamage] assigns
    damage to are exactly those [getMobsInSplashRadius] returns, in the same
    order, so filtering with it first (as [applyProjectileHit] does) changes
    nothing.  Every damage assigned lies between the damage at the edge,
    [max(1, floor(baseDamage / 2))], and the damage at the centre,
    [max(1, floor(baseDamage))], and a mob that is not nearer to the centre
    than another is assigned no more damage than it. *)
Theorem applySplashDamage_bounds (center : Vec2) (radius baseDamage : R)
        (mobs : list Mob.t) :
  0 < radius -> 0 <= baseDamage ->
  let results := applySplashDamage center radius baseDamage mobs in
  List.map fst results = getMobsInSplashRadius center radius mobs /\
  applySplashDamage center radius baseDamage
    (getMobsInSplashRadius center radius mobs) = results /\
  (forall mob damage, In (mob, damage) results ->
     Rmax 1 (Math_floor (baseDamage * 0.5)) <= damage
     <= Rmax 1 (Math_floor baseDamage)) /\
  (forall mob damage mob' damage',
     In (mob, damage) results -> In (mob', damage') results ->
     GridW.distance center (Mob.pos mob)
     <= GridW.distance center (Mob.pos mob') ->
     damage' <= damage).
Proof.
  intros Hr Hb results. subst results.
  assert (Hin : forall mob damage,
            In (mob, damage)
               (applySplashDamage center radius baseDamage mobs) ->
            damage = splashDamageAt radius baseDamage
                       (GridW.distance center (Mob.pos mob)) /\
            0 <= GridW.distance center (Mob.pos mob) <= radius).
  { intros mob damage H. rewrite applySplashDamage_map in H.
    apply in_map_iff in H as (mob' & [= <- <-] & H).
    apply filter_In in H as [_ H]. apply inRangeOf_true in H.
    split; [reflexivity|]. split; [apply sqrt_pos | tauto]. }
  assert (Hzero : splashDamageAt radius baseDamage 0
                  = Rmax 1 (Math_floor baseDamage)).
  { unfold splashDamageAt. cbv zeta. do 2 f_equal.
    unfold Rdiv. rewrite Rmult_0_l. lra. }
  assert (Hedge : splashDamageAt radius baseDamage radius
                  = Rmax 1 (Math_floor (baseDamage * 0.5))).
  { unfold splashDamageAt. cbv zeta. do 2 f_equal.
    unfold Rdiv. rewrite Rinv_r by lra. lra. }
  repeat split.
  - rewrite applySplashDamage_map, map_map. apply map_id.
  - rewrite !applySplashDamage_map. unfold getMobsInSplashRadius.
    now rewrite filter_idempotent.
  - destruct (Hin _ _ H) as [-> [_ Hd]]. rewrite <- Hedge.
    now apply splashDamageAt_antitone.
  - destruct (Hin _ _ H) as [-> [Hd _]]. rewrite <- Hzero.
    now apply splashDamageAt_antitone.
  - intros mob damage mob' damage' H H' Hd.
    destruct (Hin _ _ H) as [-> _]. destruct (Hin _ _ H') as [-> _].
    now apply splashDamageAt_antitone.
Qed.

Lemma applySplashDamage_bounds_witness :
  let results := applySplashDamage (mkVec2 5 5) 3 80 fieldMobs in
  List.map fst results = getMobsInSplashRadius (mkVec2 5 5) 3 fieldMobs /\
  applySplashDamage (mkVec2 5 5) 3 80
    (getMobsInSplashRadius (mkVec2 5 5) 3 fieldMobs) = results /\
  (forall mob damage, In (mob, damage) results ->
     Rmax 1 (Math_floor (80 * 0.5)) <= damage <= Rmax 1 (Math_floor 80)) /\
  (forall mob damage mob' damage',
     In (mob, damage) results -> In (mob', damage') results ->
     GridW.distance (mkVec2 5 5) (Mob.pos mob)
     <= GridW.distance (mkVec2 5 5) (Mob.pos mob') ->
     damage' <= damage).
Proof.
  apply (applySplashDamage_bounds (mkVec2 5 5) 3 80 fieldMobs); lra.
Defined.

(** ** sim.ts: pausing, starting waves, placing towers *)

Lemma nthZ_insert_eq {A} (l : list A) (i : Z) (x y : A) :
  nthZ l i = Some y -> nthZ (<[Z.to_nat i := x]> l) i = Some x.
Proof.
  unfold nthZ. destruct (i <? 0)%Z; [discriminate|]. intros H.
  apply list_lookup_insert_eq. now apply lookup_lt_Some in H.
Qed.

Lemma nthZ_insert_ne {A} (l : list A) (i j : Z) (x : A) :
  (0 <= i)%Z -> i <> j -> nthZ (<[Z.to_nat i := x]> l) j = nthZ l j.
Proof.
  intros Hi Hne. unfold nthZ. destruct (j <? 0)%Z eqn:Hj; [reflexivity|].
  apply Z.ltb_ge in Hj. apply list_lookup_insert_ne. lia.
Qed.

Lemma with_state_same g : Game.with_state g (Game.state g) = g.
Proof. now destruct g. Qed.

(** X18.  [togglePause] is its own inverse: it swaps ['playing'] and
    ['paused'], returns a game in any other state as it is, and changes no
    field but the state, so toggling twice gives the game back. *)
Theorem togglePause_involutive (game : Game.t) :
  togglePause (togglePause game) = game /\
  togglePause game = Game.with_state game (Game.state (togglePause game)) /\
  Game.state (togglePause game)
  = match Game.state game with
    | GameState.playing => GameState.paused
    | GameState.paused => GameState.playing
    | other => other
    end.
Proof.
  destruct game as [time state speed mobs towers projectiles waves currentWave
                    totalWaves money lives score map selectedTower
                    hoveredTile buildMode lastTickTime frameTime tickCount].
  unfold togglePause. cbn [Game.state].
  destruct state; cbn; repeat split.
Qed.

(** X19.  [startNextWave] on a game whose waves are all started
    ([currentWave >= totalWaves]) returns the game as it is.  Otherwise it
    makes the next index current and the state ['playing'], and marks the
    wave at the index that was current (not the one that becomes current)
    active, started and due at the game's time, if there is one; every other
    wave, and so the wave [updateWaves] reads next, is as before, and so are
    the clock, the entities, the money and the lives. *)
Theorem startNextWave_spec (game : Game.t) :
  let started := startNextWave game in
  let current := Game.currentWave game in
  ((Game.totalWaves game <= current)%Z -> started = game) /\
  ((current < Game.totalWaves game)%Z ->
   Game.currentWave started = (current + 1)%Z /\
   Game.state started = GameState.playing /\
   nthZ (Game.waves started) current
   = option_map (fun wave => startedWave wave (Game.time game))
                (nthZ (Game.waves game) current) /\
   (forall i, i <> current ->
      nthZ (Game.waves started) i = nthZ (Game.waves game) i) /\
   length (Game.waves started) = length (Game.waves game) /\
   Game.totalWaves started = Game.totalWaves game /\
   Game.time started = Game.time game /\
   Game.mobs started = Game.mobs game /\
   Game.towers started = Game.towers game /\
   Game.projectiles started = Game.projectiles game /\
   Game.money started = Game.money game /\
   Game.lives started = Game.lives game).
Proof.
  intros started current. subst started current. unfold startNextWave.
  split; intros H.
  - replace (Game.currentWave game <? Game.totalWaves game)%Z with false
      by (symmetry; apply Z.ltb_ge; lia).
    reflexivity.
  - replace (Game.currentWave game <? Game.totalWaves game)%Z with true
      by (symmetry; apply Z.ltb_lt; lia).
    cbn [Game.currentWave Game.with_state Game.with_currentWave Game.waves
         Game.time].
    replace (Game.currentWave game + 1 - 1)%Z with (Game.currentWave game)
      by lia.
    destruct (nthZ (Game.waves game) (Game.currentWave game)) as [wave|] eqn:E;
      cbn [option_map Game.currentWave Game.state Game.waves Game.totalWaves
           Game.time Game.mobs Game.towers Game.projectiles Game.money
           Game.lives Game.with_waves].
    + repeat split.
      * now apply nthZ_insert_eq with wave.
      * intros i Hi. apply nthZ_insert_ne; [|congruence].
        unfold nthZ in E. destruct (Game.currentWave game <? 0)%Z eqn:Hneg;
          [discriminate|]. now apply Z.ltb_ge in Hneg.
      * apply length_insert.
    + now repeat split.
Qed.

Lemma startNextWave_spec_witness :
  Game.currentWave (startNextWave createInitialGame) = (0 + 1)%Z /\
  Game.state (startNextWave createInitialGame) = GameState.playing /\
  nthZ (Game.waves (startNextWave createInitialGame)) 0
  = option_map (fun wave => startedWave wave 0)
               (nthZ (Game.waves createInitialGame) 0) /\
  nthZ (Game.waves (startNextWave createInitialGame)) 1
  = nthZ (Game.waves createInitialGame) 1.
Proof.
  destruct (startNextWave_spec createInitialGame) as [_ H].
  destruct H as (H1 & H2 & H3 & H4 & _); [reflexivity|].
  split; [exact H1|]. split; [exact H2|]. split; [exact H3|].
  apply H4. discriminate.
Defined.

Lemma startNextWave_currentWave game :
  (Game.currentWave game <= Game.totalWaves game)%Z ->
  Game.currentWave (startNextWave game)
  = Z.min (Game.currentWave game + 1) (Game.totalWaves game) /\
  Game.totalWaves (startNextWave game) = Game.totalWaves game.
Proof.
  intros Hle. unfold startNextWave.
  destruct (Z.ltb_spec (Game.currentWave game) (Game.totalWaves game))
    as [Hlt|Hge].
  - cbn [Game.currentWave Game.with_state Game.with_currentWave Game.waves
         Game.time].
    destruct (nthZ _ _);
      cbn [Game.currentWave Game.totalWaves Game.with_waves Game.with_state
           Game.with_currentWave]; split; lia.
  - split; lia.
Qed.

(** X20.  [startNextWave] never counts past the last wave: started [n] times
    on a game with [currentWave <= totalWaves], the current index is
    [min(currentWave + n, totalWaves)] and the number of waves is as
    before. *)
Theorem startNextWave_bounded (game : Game.t) (n : nat) :
  (Game.currentWave game <= Game.totalWaves game)%Z ->
  let started := Nat.iter n startNextWave game in
  Game.currentWave started
  = Z.min (Game.currentWave game + Z.of_nat n) (Game.totalWaves game) /\
  Game.totalWaves started = Game.totalWaves game.
Proof.
  intros Hle started. subst started.
  induction n as [|n [IHc IHt]].
  - cbn. split; [lia|reflexivity].
  - change (Nat.iter (S n) startNextWave game)
      with (startNextWave (Nat.iter n startNextWave game)).
    destruct (startNextWave_currentWave (Nat.iter n startNextWave game))
      as [Hc Ht]; [lia|].
    rewrite Hc, Ht, IHc, IHt. split; lia.
Qed.

Lemma startNextWave_bounded_witness :
  Game.currentWave (Nat.iter 12 startNextWave createInitialGame)
  = Z.min (0 + Z.of_nat 12) 10 /\
  Game.totalWaves (Nat.iter 12 startNextWave createInitialGame) = 10%Z.
Proof.
  apply (startNextWave_bounded createInitialGame 12). discriminate.
Defined.

(** The three ways [placeTower] ends. *)
Lemma placeTower_cases random game pos towerType k :
  placeTower random game pos towerType k = Returned game k \/
  placeTower random game pos towerType k = Raised \/
  exists towerDef tower,
    TOWER_DEFINITIONS towerType = Own towerDef /\
    TowerDefinition.baseCost towerDef <= Game.money game /\
    isBuildable (Game.map game) pos = true /\
    (forall t, In t (Game.towers game) -> Tower.tile t <> pos) /\
    Tower.tile tower = pos /\
    placeTower random game pos towerType k
    = Returned (Game.with_money
                  (Game.with_towers game (Game.towers game ++ [tower]))
                  (Game.money game - TowerDefinition.baseCost towerDef))
               (S k).
Proof.
  unfold placeTower.
  destruct (TOWER_DEFINITIONS towerType) as [towerDef| |]; [| |now left].
  2:{ unfold bind.
      destruct (isBuildable_call_cases (Game.map game) pos k) as [-> | ->];
        [|right; now left].
      destruct (isBuildable _ _); [|now left]. cbn [negb].
      destruct (List.find _ _); [now left|]. right. now left. }
  destruct (Rltb _ _) eqn:Hmoney; [now left|].
  unfold bind.
  destruct (isBuildable_call_cases (Game.map game) pos k) as [-> | ->];
    [|right; now left].
  destruct (isBuildable _ _) eqn:Hb; [|now left]. cbn [negb].
  destruct (List.find _ _) eqn:Hfree; [now left|].
  right. right. eexists towerDef, _. repeat split.
  - now apply Rltb_false.
  - now apply find_occupies_None.
  - reflexivity.
Qed.

Lemma baseCost_positive towerType towerDef :
  TOWER_DEFINITIONS towerType = Own towerDef ->
  0 < TowerDefinition.baseCost towerDef.
Proof.
  unfold TOWER_DEFINITIONS.
  repeat destruct (String.eqb _ _); try destruct (existsb _ _);
    intros [= <-]; cbn; lra.
Qed.

(** X21.  What [placeTower] keeps and what it never touches.  Whenever it
    returns: if no two towers shared a tile, every tower stood on a buildable
    tile and the money was not negative, the same holds afterwards; the money
    never grows, the towers there were are kept as they were, in order, with
    at most one added at the end; and the clock, the state, the mobs, the
    projectiles, the waves, the lives and the map are untouched. *)
Theorem placeTower_keeps (random : nat -> R) (game : Game.t) (pos : Cell)
        (towerType : string) (k : nat) (game' : Game.t) (k' : nat) :
  placeTower random game pos towerType k = Returned game' k' ->
  (towers_ok game -> towers_ok game') /\
  Game.money game' <= Game.money game /\
  (exists added, Game.towers game' = Game.towers game ++ added /\
                 (length added <= 1)%nat) /\
  Game.time game' = Game.time game /\
  Game.state game' = Game.state game /\
  Game.mobs game' = Game.mobs game /\
  Game.projectiles game' = Game.projectiles game /\
  Game.waves game' = Game.waves game /\
  Game.currentWave game' = Game.currentWave game /\
  Game.lives game' = Game.lives game /\
  Game.map game' = Game.map game.
Proof.
  intros Hrun.
  destruct (placeTower_cases random game pos towerType k)
    as [Hrej | [Hraised |
         (towerDef & tower & Hdef & Hmoney & Hb & Hfree & Htile & Hacc)]].
  - rewrite Hrej in Hrun. injection Hrun as <- <-.
    split; [exact (fun H => H)|]. split; [lra|]. split; [|now repeat split].
    exists []. split; [now rewrite app_nil_r | cbn; lia].
  - rewrite Hraised in Hrun. discriminate.
  - rewrite Hacc in Hrun. injection Hrun as <- <-.
    pose proof (baseCost_positive _ _ Hdef) as Hcost.
    cbn [Game.money Game.towers Game.time Game.state Game.mobs
         Game.projectiles Game.waves Game.currentWave Game.lives Game.map
         Game.with_money Game.with_towers].
    split; [|split; [lra|split; [|now repeat split]]].
    + intros (Hnd & Hbuild & Hdebt). unfold towers_ok.
      cbn [Game.money Game.towers Game.map Game.with_money Game.with_towers].
      split; [|split; [|lra]].
      * rewrite map_app. cbn [List.map]. rewrite Htile.
        apply List.NoDup_app; [exact Hnd | repeat constructor; intros [] |].
        intros tile Hin [<-|[]].
        apply in_map_iff in Hin as (t & Ht & Hin). now apply (Hfree t).
      * apply List.Forall_app. split; [exact Hbuild|].
        repeat constructor. now rewrite Htile.
    + exists [tower]. split; [reflexivity | cbn; lia].
Qed.

Lemma placeTower_keeps_witness :
  towers_ok createInitialGame /\
  exists game',
    placeTower (fun _ => 0) createInitialGame (1, 1)%Z "arrow" O
    = Returned game' 1%nat /\
    towers_ok game' /\
    Game.money game' <= Game.money createInitialGame /\
    Game.mobs game' = Game.mobs createInitialGame /\
    Game.map game' = Game.map createInitialGame.
Proof.
  assert (Hok : towers_ok createInitialGame).
  { repeat split; [constructor | constructor | cbn; lra]. }
  split; [exact Hok|].
  destruct (placeTower_cases (fun _ => 0) createInitialGame (1, 1)%Z
              "arrow" O)
    as [Hrej | [Hrej | (towerDef & tower & _ & _ & _ & _ & _ & Hacc)]].
  - exfalso. revert Hrej. unfold placeTower.
    cbn [TOWER_DEFINITIONS String.eqb Ascii.eqb Bool.eqb arrowDefinition
         TowerDefinition.baseCost createInitialGame Game.money Game.map
         Game.towers List.find].
    rcmp. unfold bind at 1.
    rewrite (isBuildable_call_true createDefaultMap (1, 1)%Z O)
      by now vm_compute.
    discriminate.
  - exfalso. revert Hrej. unfold placeTower.
    cbn [TOWER_DEFINITIONS String.eqb Ascii.eqb Bool.eqb arrowDefinition
         TowerDefinition.baseCost createInitialGame Game.money Game.map
         Game.towers List.find].
    rcmp. unfold bind at 1.
    rewrite (isBuildable_call_true createDefaultMap (1, 1)%Z O)
      by now vm_compute.
    discriminate.
  - eexists. split; [exact Hacc|].
    destruct (placeTower_keeps _ _ _ _ _ _ _ Hacc)
      as (Hkeeps & Hmoney & _ & _ & _ & Hmobs & _ & _ & _ & _ & Hmap).
    split; [now apply Hkeeps|]. split; [exact Hmoney|].
    split; [exact Hmobs | exact Hmap].
Defined.

(** ** sim.ts: the movement of a mob *)

Lemma cleanupExpiredEffects_fields mob t :
  let cleaned := cleanupExpiredEffects mob t in
  Mob.id cleaned = Mob.id mob /\ Mob.pos cleaned = Mob.pos mob /\
  Mob.hp cleaned = Mob.hp mob /\ Mob.speed cleaned = Mob.speed mob /\
  Mob.pathProgress cleaned = Mob.pathProgress mob /\
  Mob.isDead cleaned = Mob.isDead mob /\
  Mob.reachedEnd cleaned = Mob.reachedEnd mob /\
  (Mob.slowMultiplier cleaned = Mob.slowMultiplier mob \/
   Mob.slowMultiplier cleaned = None).
Proof.
  destruct (cleanupExpiredEffects_cases mob t) as [[-> _] | [-> _]];
    cbn; tauto.
Qed.

Lemma updateMobSpeed_nonneg mob t :
  0 <= Mob.speed mob ->
  (forall m, Mob.slowMultiplier mob = Some m -> 0 <= m) ->
  0 <= updateMobSpeed mob t.
Proof.
  intros Hs Hm. unfold updateMobSpeed.
  destruct (match Mob.slowUntil mob with Some _ => _ | None => _ end);
    [exact Hs|].
  destruct (Mob.slowMultiplier mob) as [m|]; [|exact Hs].
  destruct (truthy _); [|exact Hs].
  apply Rmult_le_pos; [exact Hs | now apply Hm].
Qed.

Lemma distance_same p : GridW.distance p p = 0.
Proof.
  unfold GridW.distance. cbv zeta.
  replace ((vx p - vx p) * (vx p - vx p) + (vy p - vy p) * (vy p - vy p))
    with 0 by ring.
  apply sqrt_0.
Qed.

Lemma mob_ok_cleanup mob t : mob_ok mob -> mob_ok (cleanupExpiredEffects mob t).
Proof.
  intros (Hp & Hs & Hm).
  destruct (cleanupExpiredEffects_fields mob t)
    as (_ & _ & _ & Es & Ep & _ & _ & Em).
  cbv zeta in *. unfold mob_ok. rewrite Es, Ep.
  repeat split; try tauto.
  intros m E. destruct Em as [Em|Em]; rewrite Em in E;
    [now apply Hm | discriminate].
Qed.

Lemma div_bounds x L p :
  1 <= L -> 0 <= x <= L -> p * L <= x ->
  0 <= x / L <= 1 /\ p <= x / L /\ x / L * L = x.
Proof.
  intros HL [Hx0 HxL] Hp.
  assert (Hinv : 0 < / L) by (apply Rinv_0_lt_compat; lra).
  assert (Hone : L * / L = 1) by (apply Rinv_r; lra).
  unfold Rdiv.
  assert (H1 : 0 <= x * / L) by (apply Rmult_le_pos; lra).
  assert (H2 : x * / L <= L * / L) by (apply Rmult_le_compat_r; lra).
  assert (H3 : p * L * / L <= x * / L) by (apply Rmult_le_compat_r; lra).
  rewrite Rmult_assoc, Hone in H3.
  repeat split; try lra.
  rewrite Rmult_assoc, (Rmult_comm (/ L)), Hone. lra.
Qed.

(** One turn of the loop of [updateMobs], for a mob that is [mob_ok] and a
    time step that is not negative. *)
Lemma updateMob_step (game : Game.t) (dt : R) (mob : Mob.t) (k : nat)
        (mob' : Mob.t) (k' : nat) :
  mob_ok mob -> 0 <= dt ->
  updateMob game dt mob k = Returned mob' k' ->
  k' = k /\ mob_ok mob' /\ mobStep game mob mob'.
Proof.
  unfold mobStep. intros Hok Hdt Hrun.
  (* a mob that is left as it is, or only cleaned *)
  assert (Hstay : forall m, (m = mob \/ m = cleanupExpiredEffects mob (Game.time game)) ->
            (Mob.isDead mob = true \/ Mob.reachedEnd mob = true -> m = mob) ->
            mob_ok m /\
            Mob.pathProgress mob <= Mob.pathProgress m /\
            (forall path,
               paths (Game.map game) !! O = Some path -> (1 < length path)%nat ->
               let cells := IZR (Z.of_nat (length path) - 1) in
               Mob.pathProgress m * cells
               <= IZR (Zfloor (Mob.pathProgress mob * cells)) + 2) /\
            (Mob.reachedEnd mob = false -> Mob.reachedEnd m = true ->
             Mob.pathProgress m = 1 /\
             Mob.pos m = cellVec (basePosition (Game.map game))) /\
            Mob.id m = Mob.id mob /\
            Mob.hp m = Mob.hp mob /\
            Mob.speed m = Mob.speed mob /\
            Mob.isDead m = Mob.isDead mob /\
            (Mob.isDead mob = true \/ Mob.reachedEnd mob = true -> m = mob)).
  { intros m Hm Hfix.
    destruct (cleanupExpiredEffects_fields mob (Game.time game))
      as (Eid & _ & Ehp & Es & Ep & Ed & Ee & _). cbv zeta in *.
    assert (Hmok : mob_ok m)
      by (destruct Hm as [->| ->]; [exact Hok | now apply mob_ok_cleanup]).
    assert (Hp : Mob.pathProgress m = Mob.pathProgress mob)
      by (destruct Hm as [->| ->]; congruence).
    assert (He : Mob.reachedEnd m = Mob.reachedEnd mob)
      by (destruct Hm as [->| ->]; congruence).
    split; [exact Hmok|]. split; [lra|]. split.
    { intros path _ _. rewrite Hp.
      pose proof (Zfloor_bound
                    (Mob.pathProgress mob * IZR (Z.of_nat (length path) - 1))).
      lra. }
    split; [congruence|].
    repeat split; try (destruct Hm as [->| ->]; congruence).
    exact Hfix. }
  unfold updateMob in Hrun.
  destruct (Mob.isDead mob || Mob.reachedEnd mob) eqn:Hgone.
  { inv_run. split; [reflexivity|]. apply Hstay; [now left | reflexivity]. }
  apply orb_false_iff in Hgone as [Hdead Hend].
  assert (Hfix : forall m : Mob.t,
            Mob.isDead mob = true \/ Mob.reachedEnd mob = true -> m = mob)
    by (intros m [H|H]; congruence).
  set (cleaned := cleanupExpiredEffects mob (Game.time game)) in *.
  destruct (cleanupExpiredEffects_fields mob (Game.time game))
    as (Eid & _ & Ehp & Es & Ep & Ed & Ee & _). cbv zeta in *.
  fold cleaned in Eid, Ehp, Es, Ep, Ed, Ee.
  pose proof (mob_ok_cleanup mob (Game.time game) Hok) as Hcok.
  fold cleaned in Hcok. destruct Hcok as (Hcp & Hcs & Hcm).
  destruct (paths (Game.map game) !! O) as [path|] eqn:Hpath.
  2:{ inv_run. split; [reflexivity|]. apply Hstay; [now right | apply Hfix]. }
  destruct (1 <? length path)%nat eqn:Hlen.
  2:{ inv_run. split; [reflexivity|]. apply Hstay; [now right | apply Hfix]. }
  apply Nat.ltb_lt in Hlen.
  set (lastIndex := (Z.of_nat (length path) - 1)%Z) in *.
  assert (Hlast : (1 <= lastIndex)%Z) by (unfold lastIndex; lia).
  assert (HlastR : 1 <= IZR lastIndex) by now apply IZR_le.
  rewrite Ep in Hrun.
  set (progress := Mob.pathProgress mob) in *.
  set (pathIndex := Zfloor (progress * IZR lastIndex)) in *.
  destruct Hok as (Hprog & Hspeed & Hmult).
  fold progress in Hprog.
  pose proof (Zfloor_bound (progress * IZR lastIndex)) as Hfloor.
  fold pathIndex in Hfloor.
  assert (Hidx : (0 <= pathIndex <= lastIndex)%Z).
  { split.
    - apply Zfloor_lub. apply Rmult_le_pos; lra.
    - apply le_IZR.
      assert (progress * IZR lastIndex <= 1 * IZR lastIndex)
        by (apply Rmult_le_compat_r; lra).
      lra. }
  destruct (nthZ path pathIndex) as [currentPathPos|] eqn:Hcur;
    [|inv_run].
  destruct (nthZ path (Z.min (pathIndex + 1) lastIndex))
    as [nextPathPos|] eqn:Hnxt; [|inv_run].
  destruct (Rltb 0 _) eqn:Hseg.
  2:{ inv_run. split; [reflexivity|]. apply Hstay; [now right | apply Hfix]. }
  apply Rltb_true in Hseg.
  (* the segment has a length, so the mob is not in the last cell *)
  assert (Hnotlast : (pathIndex < lastIndex)%Z).
  { destruct (Z_lt_le_dec pathIndex lastIndex) as [H|H]; [exact H|].
    exfalso. rewrite Z.min_r in Hnxt by lia.
    replace pathIndex with lastIndex in Hcur by lia.
    rewrite Hcur in Hnxt. injection Hnxt as <-.
    rewrite distance_same in Hseg. lra. }
  rewrite !(Z.min_l (pathIndex + 1) lastIndex) in Hrun by lia.
  set (segment := GridW.distance (cellVec currentPathPos)
                                 (cellVec nextPathPos)) in *.
  set (moveDistance := updateMobSpeed cleaned (Game.time game) * dt) in *.
  assert (Hmove : 0 <= moveDistance / segment).
  { unfold moveDistance, Rdiv. apply Rmult_le_pos.
    - apply Rmult_le_pos; [|exact Hdt].
      now apply updateMobSpeed_nonneg.
    - left. now apply Rinv_0_lt_compat. }
  assert (HpathIndexR : IZR (pathIndex + 1) <= IZR lastIndex)
    by (apply IZR_le; lia).
  rewrite plus_IZR in HpathIndexR.
  destruct (Rleb 1 _) eqn:Hjump.
  - (* on to the cell after the next *)
    set (newPathIndex := Z.min (pathIndex + 1 + 1) lastIndex) in *.
    assert (Hnew : (pathIndex + 1 <= newPathIndex <= lastIndex)%Z)
      by (unfold newPathIndex; lia).
    assert (HnewR : IZR pathIndex + 1 <= IZR newPathIndex <= IZR lastIndex).
    { rewrite <- plus_IZR. split; apply IZR_le; lia. }
    assert (HnewR2 : IZR newPathIndex <= IZR pathIndex + 2).
    { replace (IZR pathIndex + 2) with (IZR (pathIndex + 2))
        by (rewrite plus_IZR; lra).
      apply IZR_le. unfold newPathIndex. lia. }
    assert (Hq : 0 <= IZR newPathIndex / IZR lastIndex <= 1
                 /\ progress <= IZR newPathIndex / IZR lastIndex
                 /\ IZR newPathIndex / IZR lastIndex * IZR lastIndex
                    = IZR newPathIndex).
    { assert (H0 : 0 <= IZR pathIndex) by (apply IZR_le; lia).
      apply div_bounds; lra. }
    destruct Hq as (Hq01 & Hqge & Hqmul).
    destruct (lastIndex <=? newPathIndex)%Z eqn:Hreach.
    + inv_run. split; [reflexivity|].
      apply Z.leb_le in Hreach.
      assert (E1 : IZR newPathIndex / IZR lastIndex = 1).
      { replace newPathIndex with lastIndex by lia.
        unfold Rdiv. apply Rinv_r. lra. }
      unfold mob_ok.
      cbn [Mob.pathProgress Mob.speed Mob.slowMultiplier Mob.reachedEnd
           Mob.pos Mob.id Mob.hp Mob.isDead Mob.moved].
      rewrite Es, Eid, Ehp, Ed.
      split; [split; [lra | split; [exact Hspeed | exact Hcm]]|].
      split; [exact Hqge|].
      split.
      { intros path' [= <-] _. fold lastIndex.
        fold pathIndex. rewrite Hqmul. lra. }
      split; [intros _ _; split; [exact E1 | reflexivity]|].
      repeat split. apply Hfix.
    + destruct (nthZ path newPathIndex) as [p|]; [|inv_run].
      inv_run. split; [reflexivity|].
      unfold mob_ok.
      cbn [Mob.pathProgress Mob.speed Mob.slowMultiplier Mob.reachedEnd
           Mob.pos Mob.id Mob.hp Mob.isDead Mob.moved].
      rewrite Es, Eid, Ehp, Ed, Ee.
      split; [split; [lra | split; [exact Hspeed | exact Hcm]]|].
      split; [exact Hqge|].
      split.
      { intros path' [= <-] _. fold lastIndex.
        fold pathIndex. rewrite Hqmul. lra. }
      split; [intros H1 H2; congruence|].
      repeat split. apply Hfix.
  - (* within the segment *)
    apply Rleb_false in Hjump.
    inv_run. split; [reflexivity|].
    set (within := progress * IZR lastIndex - IZR pathIndex
                   + moveDistance / segment) in *.
    assert (Hq : 0 <= (IZR pathIndex + within) / IZR lastIndex <= 1
                 /\ progress <= (IZR pathIndex + within) / IZR lastIndex
                 /\ (IZR pathIndex + within) / IZR lastIndex * IZR lastIndex
                    = IZR pathIndex + within).
    { assert (H0 : 0 <= IZR pathIndex) by (apply IZR_le; lia).
      apply div_bounds; unfold within in *; lra. }
    destruct Hq as (Hq01 & Hqge & Hqmul).
    unfold mob_ok.
    cbn [Mob.pathProgress Mob.speed Mob.slowMultiplier Mob.reachedEnd
         Mob.pos Mob.id Mob.hp Mob.isDead Mob.moved].
    rewrite Es, Eid, Ehp, Ed, Ee.
    split; [split; [lra | split; [exact Hspeed | exact Hcm]]|].
    split; [exact Hqge|].
    split.
    { intros path' [= <-] _. fold lastIndex.
      fold pathIndex. rewrite Hqmul. lra. }
    split; [intros H1 H2; congruence|].
    repeat split. apply Hfix.
Qed.

(** ** sim.ts: what the steps of a tick do and leave *)

Lemma mapM_Returned {A B} (f : A -> M B) (l : list A) k bs k' :
  mapM f l k = Returned bs k' ->
  List.Forall2 (fun a b => exists k1 k2, f a k1 = Returned b k2) l bs.
Proof.
  revert k bs. induction l as [|a l IH]; intros k bs H; cbn [mapM] in H.
  - inv_run. constructor.
  - inv_run. constructor; [eauto|]. eapply IH; eauto.
Qed.

(** Split every test of a run. *)
Ltac split_run H :=
  repeat match type of H with
         | context [if ?b then _ else _] => destruct b eqn:?
         | context [match ?x with _ => _ end] => destruct x eqn:?
         end.

Lemma nthZ_nonneg {A} (l : list A) (i : Z) (x : A) :
  nthZ l i = Some x -> (0 <= i < Z.of_nat (length l))%Z.
Proof.
  unfold nthZ. destruct (i <? 0)%Z eqn:E; [discriminate|].
  apply Z.ltb_ge in E. intros H. apply lookup_lt_Some in H. lia.
Qed.

Lemma storeWave_other g game wave current i :
  Game.waves g = Game.waves game ->
  Game.currentWave g = Game.currentWave game ->
  nthZ (Game.waves game) (Game.currentWave game) = Some current ->
  i <> Game.currentWave game ->
  nthZ (Game.waves (storeWave g wave)) i = nthZ (Game.waves game) i.
Proof.
  intros Hw Hc Hcur Hi. unfold storeWave. cbn [Game.waves Game.with_waves].
  rewrite Hw, Hc.
  apply nthZ_insert_ne; [|congruence]. now apply nthZ_nonneg in Hcur.
Qed.

Lemma storeWave_length g game wave :
  Game.waves g = Game.waves game ->
  length (Game.waves (storeWave g wave)) = length (Game.waves game).
Proof. intros Hw. unfold storeWave. cbn. rewrite Hw. apply length_insert. Qed.

(** What [updateWaves] leaves. *)
Lemma updateWaves_frame random game dt k game' k' :
  updateWaves random game dt k = Returned game' k' ->
  setupOf game' = setupOf game /\
  Game.time game' = Game.time game /\
  Game.tickCount game' = Game.tickCount game /\
  Game.state game' = Game.state game /\
  Game.lives game' = Game.lives game /\
  Game.towers game' = Game.towers game /\
  Game.projectiles game' = Game.projectiles game /\
  length (Game.waves game') = length (Game.waves game) /\
  forall i, i <> Game.currentWave game ->
            nthZ (Game.waves game') i = nthZ (Game.waves game) i.
Proof.
  unfold updateWaves. intros H.
  destruct (Game.totalWaves game <=? Game.currentWave game)%Z;
    [inv_run; now repeat split|].
  destruct (nthZ (Game.waves game) (Game.currentWave game))
    as [current|] eqn:Hcur; [|inv_run; now repeat split].
  destruct (Wave.isComplete current); [inv_run; now repeat split|].
  unfold createMob in H.
  split_run H; inv_run; try discriminate;
    (repeat split;
     [ now apply storeWave_length
     | intros i Hi; now apply storeWave_other with current ]).
Qed.

Lemma storeWave_current g game wave current :
  Game.waves g = Game.waves game ->
  Game.currentWave g = Game.currentWave game ->
  nthZ (Game.waves game) (Game.currentWave game) = Some current ->
  nthZ (Game.waves (storeWave g wave)) (Game.currentWave game) = Some wave.
Proof.
  intros Hw Hc Hcur. unfold storeWave. cbn [Game.waves Game.with_waves].
  rewrite Hw, Hc. now apply nthZ_insert_eq with current.
Qed.

(** The mobs after [updateWaves]: those before, and at most one new one. *)
Lemma updateWaves_mobs random game dt k game' k' :
  updateWaves random game dt k = Returned game' k' ->
  (Game.mobs game' = Game.mobs game /\ k' = k) \/
  (exists kind spawnPoint,
      spawnPoints (Game.map game) !! O = Some spawnPoint /\
      Game.mobs game'
      = Game.mobs game
        ++ [spawnedMob kind spawnPoint (Game.time game) (random k)] /\
      k' = S k).
Proof.
  unfold updateWaves, createMob. intros H.
  split_run H; unfold bind, Math_random in H; inv_run; try discriminate;
    try (left; now split).
  all: right; injection H as <- <-; eauto.
Qed.

(** The money after [updateWaves]: the reward is added when the call
    completes the current wave, and only then. *)
Lemma updateWaves_money random game dt k game' k' wave wave' :
  updateWaves random game dt k = Returned game' k' ->
  nthZ (Game.waves game) (Game.currentWave game) = Some wave ->
  nthZ (Game.waves game') (Game.currentWave game) = Some wave' ->
  (Wave.isComplete wave = false /\ Wave.isComplete wave' = true /\
   Game.money game' = Game.money game + (50 + Wave.id wave * 10)) \/
  (Wave.isComplete wave' = Wave.isComplete wave /\
   Game.money game' = Game.money game).
Proof.
  unfold updateWaves, createMob. intros H Hw Hw'. rewrite Hw in H.
  destruct (Game.totalWaves game <=? Game.currentWave game)%Z;
    [inv_run; right; split; congruence|].
  destruct (Wave.isComplete wave) eqn:Hcomplete;
    [inv_run; right; split; congruence|].
  split_run H; unfold bind, Math_random in H; inv_run; try discriminate;
    try (injection H as <- <-);
    erewrite storeWave_current in Hw' by (try reflexivity; exact Hw);
    injection Hw' as <-; cbn;
    first [ right; split; [congruence | reflexivity]
          | left; repeat split; congruence ].
Qed.

(** X22.  [updateWaves] spawns at most one mob per call and touches nothing
    but the current wave, the list of mobs and the money.  Whenever it
    returns: either the mobs are as before and [Math.random] was not called,
    or exactly one mob was appended, made by [createMob] at the first spawn
    point with full hit points, progress 0 and no slow, and [Math.random] was
    called once; the money grows by the reward [50 + 10 * id] exactly when the
    call turns the current wave complete; every wave but the current one, the
    clock, the state, the lives, the towers, the projectiles, the wave
    counter and the map are as before. *)
Theorem updateWaves_spawns_one (random : nat -> R) (game : Game.t) (dt : R)
        (k : nat) (game' : Game.t) (k' : nat) :
  updateWaves random game dt k = Returned game' k' ->
  ((Game.mobs game' = Game.mobs game /\ k' = k) \/
   (exists kind spawnPoint,
       spawnPoints (Game.map game) !! O = Some spawnPoint /\
       Game.mobs game'
       = Game.mobs game
         ++ [spawnedMob kind spawnPoint (Game.time game) (random k)] /\
       k' = S k)) /\
  (forall wave wave',
     nthZ (Game.waves game) (Game.currentWave game) = Some wave ->
     nthZ (Game.waves game') (Game.currentWave game) = Some wave' ->
     (Wave.isComplete wave = false /\ Wave.isComplete wave' = true /\
      Game.money game' = Game.money game + (50 + Wave.id wave * 10)) \/
     (Wave.isComplete wave' = Wave.isComplete wave /\
      Game.money game' = Game.money game)) /\
  (forall i, i <> Game.currentWave game ->
             nthZ (Game.waves game') i = nthZ (Game.waves game) i) /\
  length (Game.waves game') = length (Game.waves game) /\
  setupOf game' = setupOf game /\
  Game.time game' = Game.time game /\
  Game.state game' = Game.state game /\
  Game.lives game' = Game.lives game /\
  Game.towers game' = Game.towers game /\
  Game.projectiles game' = Game.projectiles game.
Proof.
  intros H.
  destruct (updateWaves_frame _ _ _ _ _ _ H)
    as (Hsetup & Htime & _ & Hstate & Hlives & Htowers & Hproj & Hlen & Hother).
  split; [now apply updateWaves_mobs with dt|].
  split; [intros wave wave'; now apply updateWaves_money with random dt k k'|].
  now repeat split.
Qed.

Lemma updateWaves_spawns_one_witness :
  let game := Game.with_time startedGame (0 + 16.666) (0 + 1) in
  let game' :=
    Game.with_waves
      (Game.with_mobs game [spawnedGoblin (0 + 16.666) 0.25])
      (firstWaveSpawning (0 + 16.666) :: tl WAVES) in
  (exists kind spawnPoint,
      spawnPoints (Game.map game) !! O = Some spawnPoint /\
      Game.mobs game'
      = Game.mobs game ++ [spawnedMob kind spawnPoint (Game.time game) 0.25])
  /\ nthZ (Game.waves game') 1 = nthZ (Game.waves game) 1
  /\ Game.towers game' = Game.towers game.
Proof.
  intros game game'.
  destruct (updateWaves_spawns_one (fun _ => 0.25) game 16.666 O game' 1%nat)
    as ([[Hsame Hk] | (kind & spawnPoint & Hspawn & Hmobs & _)]
        & _ & Hother & _ & _ & _ & _ & _ & Htowers & _).
  - apply updateWaves_startedGame.
  - discriminate Hk.
  - split; [now exists kind, spawnPoint|].
    split; [now apply Hother | exact Htowers].
Defined.

(** *** The towers *)

Lemma fireIntervalPassed_true elapsed rate :
  fireIntervalPassed elapsed rate = true <-> rate <> 0 /\ 1 / rate <= elapsed.
Proof.
  unfold fireIntervalPassed, Reqb.
  destruct (Req_dec_T rate 0) as [E|E].
  - split; [discriminate | now intros [H _]].
  - rewrite Rleb_true. tauto.
Qed.

Lemma fireIntervalPassed_false elapsed rate :
  fireIntervalPassed elapsed rate = false <-> rate = 0 \/ elapsed < 1 / rate.
Proof.
  unfold fireIntervalPassed, Reqb.
  destruct (Req_dec_T rate 0) as [E|E].
  - split; [now left | reflexivity].
  - rewrite Rleb_false. split; [now right | now intros [H|H]].
Qed.

Lemma updateTower_step random time mobs tower k tower' fired k' :
  updateTower random time mobs tower k = Returned (tower', fired) k' ->
  towerTurn time mobs tower (tower', fired) /\
  k' = (k + length fired)%nat /\
  (length fired <= 1)%nat.
Proof.
  unfold updateTower, createProjectile, towerTurn. intros H.
  destruct (TOWER_DEFINITIONS _) as [towerDef| |] eqn:Hdef.
  2:{ destruct (Tower.kind tower); discriminate. }
  2:{ inv_run. }
  unfold bind at 1 in H. cbn [ret targetingStrategyOf] in H.
  destruct (findTarget tower mobs _) as [target|] eqn:Htarget.
  - destruct (fireIntervalPassed _ _) eqn:Hready.
    + unfold bind, Math_random, ret in H. injection H as <- <- <-.
      apply fireIntervalPassed_true in Hready as [Hrate Hready].
      pose proof (findTarget_candidate _ _ _ _ Htarget) as Hin.
      apply inRange_spec in Hin as (Hmob & Hdead & Hend & Hrange).
      split; [|split; [cbn; lia | cbn; lia]].
      exists towerDef. split; [reflexivity|]. right.
      exists target, (random k). now repeat split.
    + inv_run. injection H as <- <-.
      apply fireIntervalPassed_false in Hready.
      split; [|split; [cbn; lia | cbn; lia]].
      exists towerDef. split; [reflexivity|]. left.
      split; [reflexivity | now right].
  - inv_run. injection H as <- <-.
    split; [|split; [cbn; lia | cbn; lia]].
    exists towerDef. split; [reflexivity|]. left.
    split; [reflexivity | now left].
Qed.

Lemma towerTurn_towerStep time mobs tower turn :
  towerTurn time mobs tower turn -> towerStep time tower (fst turn).
Proof.
  intros (towerDef & _ & [[-> _] | (target & rnd & _ & _ & _ & _ & _ & _
                                    & _ & ->)]).
  - now left.
  - right. now exists (Mob.id target).
Qed.

Lemma updateTowers_turns random time mobs towers k results k' :
  mapM (updateTower random time mobs) towers k = Returned results k' ->
  List.Forall2 (towerTurn time mobs) towers results /\
  k' = (k + length (List.concat (List.map snd results)))%nat /\
  (length (List.concat (List.map snd results)) <= length towers)%nat.
Proof.
  revert k results. induction towers as [|tower towers IH];
    intros k results H; cbn [mapM] in H.
  - inv_run. cbn. repeat split; try constructor. lia.
  - inv_run. destruct x as [tower' fired].
    match goal with
    | Hrest : mapM _ _ _ = Returned _ _ |- _ =>
        apply IH in Hrest as (Hturns & Hk & Hlen)
    end.
    match goal with
    | Hone : updateTower _ _ _ _ _ = Returned _ _ |- _ =>
        apply updateTower_step in Hone as (Hturn & -> & Hone)
    end.
    cbn [List.map fst snd List.concat length].
    rewrite length_app.
    split; [constructor; assumption|]. split; lia.
Qed.

Lemma updateTowers_steps random time mobs towers k results k' :
  mapM (updateTower random time mobs) towers k = Returned results k' ->
  List.Forall2 (towerStep time) towers (List.map fst results) /\
  k' = (k + length (List.concat (List.map snd results)))%nat /\
  (length (List.concat (List.map snd results)) <= length towers)%nat.
Proof.
  intros H. apply updateTowers_turns in H as (Hturns & Hk & Hlen).
  split; [|split; assumption].
  clear Hk Hlen. induction Hturns as [|tower turn towers results Hturn _ IH];
    cbn [List.map]; constructor; [|exact IH].
  eapply towerTurn_towerStep, Hturn.
Qed.

(** X23.  [updateTowers] takes the towers in turn, and a tower shoots only
    when and at what it may.  It always returns, and there is one turn for
    each tower, in order ([towerTurn]): the tower is left as it is and fires
    nothing, when the strategy of its kind finds no target, its rate is [0]
    or its fire interval [1 / rate] has not passed since it last fired; or it
    fires exactly one projectile, from its tile and with its damage, at the
    target its strategy finds, a mob of the game that is not dead, has not
    reached the end and is within its range, and records the time and the
    target's id.  The towers afterwards are those of the turns, the
    projectiles are those before followed by the shots in the order of the
    towers, [Math.random] is called once for each shot, and nothing else
    changes. *)
Theorem updateTowers_shoots (random : nat -> R) (game : Game.t) (dt : R)
        (k : nat) :
  exists game' k' turns,
    updateTowers random game dt k = Returned game' k' /\
    List.Forall2 (towerTurn (Game.time game) (Game.mobs game))
                 (Game.towers game) turns /\
    Game.towers game' = List.map fst turns /\
    Game.projectiles game'
    = Game.projectiles game ++ List.concat (List.map snd turns) /\
    k' = (k + length (List.concat (List.map snd turns)))%nat /\
    Game.mobs game' = Game.mobs game /\
    Game.waves game' = Game.waves game /\
    Game.money game' = Game.money game /\
    Game.lives game' = Game.lives game /\
    Game.time game' = Game.time game /\
    Game.state game' = Game.state game /\
    setupOf game' = setupOf game.
Proof.
  destruct (updateTowers_returns random game dt k) as (game' & k' & H).
  exists game', k'. pose proof H as Hrun.
  unfold updateTowers in H. inv_run.
  match goal with
  | Hmap : mapM _ _ _ = Returned ?results _ |- _ =>
      apply updateTowers_turns in Hmap as (Hturns & Hk & _);
      exists results
  end.
  split; [exact Hrun|].
  cbn [Game.projectiles Game.towers Game.mobs Game.waves Game.money
       Game.lives Game.time Game.state Game.with_projectiles
       Game.with_towers].
  split; [exact Hturns|]. now repeat split.
Qed.

(** The tower of [guardedGame] fires at its goblin. *)
Lemma updateTowers_guardedGame random :
  updateTowers random guardedGame 1 O
  = Returned
      (Game.with_projectiles
         (Game.with_towers guardedGame
            [Tower.fired testTower 10 (Literal "mob1")])
         [firedProjectile testTower (testMob "mob1" 5 6 0.3) 10 (random O)])
      1%nat.
Proof.
  unfold updateTowers, guardedGame.
  cbn [Game.towers Game.mobs Game.time Game.projectiles mapM].
  unfold bind at 1. unfold bind at 1. unfold updateTower.
  cbn [testTower Tower.kind TowerType.name].
  change (TOWER_DEFINITIONS "arrow") with (Own arrowDefinition).
  unfold bind at 1.
  cbn [ret targetingStrategyOf arrowDefinition
       TowerDefinition.targetingStrategy].
  assert (Htarget : findTarget testTower [testMob "mob1" 5 6 0.3]
                               TargetingStrategy.first
                    = Some (testMob "mob1" 5 6 0.3)).
  { unfold findTarget. cbn [List.filter].
    rewrite !(testMob_inRange "mob1" 5 6 0.3) by lra.
    unfold findFirstTarget. cbn. rcmp. reflexivity. }
  rewrite Htarget.
  replace (fireIntervalPassed (10 - Tower.lastFiredAt testTower)
                              (Tower.rate testTower))
    with true
    by (symmetry; apply fireIntervalPassed_true; cbn; split; lra).
  reflexivity.
Qed.

Lemma updateTowers_shoots_witness :
  exists game' k' turns,
    updateTowers (fun _ => 0.5) guardedGame 1 O = Returned game' k' /\
    List.Forall2 (towerTurn 10 [testMob "mob1" 5 6 0.3]) [testTower] turns /\
    Game.towers game' = List.map fst turns /\
    Game.projectiles game' = [] ++ List.concat (List.map snd turns) /\
    k' = (0 + length (List.concat (List.map snd turns)))%nat.
Proof.
  destruct (updateTowers_shoots (fun _ => 0.5) guardedGame 1 O)
    as (game' & k' & turns & Hrun & Hturns & Htowers & Hshots & Hk & _).
  exists game', k', turns. split; [exact Hrun|]. split; [exact Hturns|].
  split; [exact Htowers|]. split; [exact Hshots | exact Hk].
Defined.

(** *** The projectiles *)

Lemma Id_eqb_true a b : Id_eqb a b = true <-> a = b.
Proof. unfold Id_eqb. destruct (Id_eq_dec a b); split; intros; easy. Qed.

Lemma findIndex_Some {A} (p : A -> bool) (l : list A) (i : nat) :
  findIndex p l = Some i -> exists x, l !! i = Some x /\ p x = true.
Proof.
  revert i. induction l as [|a l IH]; intros i H; cbn [findIndex] in H.
  - discriminate.
  - destruct (p a) eqn:E.
    + injection H as <-. now exists a.
    + destruct (findIndex p l) as [j|]; [|discriminate].
      injection H as <-. destruct (IH j eq_refl) as (x & Hx & Hp).
      now exists x.
Qed.

Lemma map_insert_same {A B} (f : A -> B) (l : list A) (i : nat) (x y : A) :
  l !! i = Some x -> f y = f x ->
  List.map f (<[i := y]> l) = List.map f l.
Proof.
  revert i. induction l as [|a l IH]; intros i Hx Hf; [reflexivity|].
  destruct i as [|i]; cbn in *.
  - injection Hx as ->. now rewrite Hf.
  - f_equal. now apply IH.
Qed.

Lemma mob_ok_kept : kept_by_hits mob_ok.
Proof.
  split.
  - intros mob damage H. exact H.
  - intros mob duration amount now (Hp & Hs & Hm).
    destruct (applySlow_cases mob duration amount now) as [-> | ->];
      [now repeat split|].
    repeat split; try assumption.
    + apply Hp.
    + apply Hp.
    + cbn. intros m [= <-]. pose proof (Rmax_floor_le amount). lra.
Qed.

Lemma bounty_kept : kept_by_hits (fun mob => 0 <= Mob.bounty mob).
Proof.
  split.
  - intros mob damage H. exact H.
  - intros mob duration amount now H.
    now destruct (applySlow_cases mob duration amount now) as [-> | ->].
Qed.

Lemma hit_frame_refl g : hit_frame g g.
Proof. split; try reflexivity; tauto. Qed.

Lemma hit_frame_trans g1 g2 g3 :
  hit_frame g1 g2 -> hit_frame g2 g3 -> hit_frame g1 g3.
Proof.
  intros H12 H23. split; try (etransitivity; [apply H23 | apply H12]).
  - intros P HP H. apply H23; [exact HP|]. now apply H12.
  - intros H. etransitivity; [now apply H12|]. apply H23.
    now apply (hit_kept _ _ H12 _ bounty_kept).
Qed.

(** One mob of the game [g], reached from [g0] by hits, is replaced by a
    damaged (and possibly slowed) version of a mob with the same id that has
    whatever all the mobs of [g0] have, and the bounty of that mob may be
    paid. *)
Lemma hit_frame_replace g0 g mobIndex victim hit old :
  hit_frame g0 g ->
  Game.mobs g !! mobIndex = Some old ->
  Mob.id victim = Mob.id old ->
  Mob.id hit = Mob.id victim ->
  (forall P, kept_by_hits P -> P victim -> P hit) ->
  (forall P, kept_by_hits P -> List.Forall P (Game.mobs g0) -> P victim) ->
  let g1 := Game.with_mobs g (<[mobIndex := hit]> (Game.mobs g)) in
  hit_frame g0 (if Mob.isDead hit
                then Game.with_money g1 (Game.money g1 + Mob.bounty victim)
                else g1).
Proof.
  intros Hg Hold Hid Hhit Hkept Hvictim g1.
  assert (Hids : List.map Mob.id (<[mobIndex := hit]> (Game.mobs g))
                 = List.map Mob.id (Game.mobs g0)).
  { rewrite <- (hit_ids _ _ Hg). apply map_insert_same with old; congruence. }
  assert (HP : forall P, kept_by_hits P -> List.Forall P (Game.mobs g0) ->
                 List.Forall P (<[mobIndex := hit]> (Game.mobs g))).
  { intros P HkP HF. apply Forall_insert; [now apply (hit_kept _ _ Hg)|].
    apply Hkept; [exact HkP|]. now apply Hvictim. }
  destruct Hg as [_ Hsetup Htime Htick Hstate Hlives Htowers Hwaves Hproj _
                  Hmoney].
  destruct (Mob.isDead hit); split; cbn; try assumption;
    intros Hb; pose proof (Hmoney Hb); try lra.
  pose proof (Hvictim _ bounty_kept Hb). cbn in *. lra.
Qed.

Lemma applySplashResult_frame g0 g result :
  hit_frame g0 g ->
  (forall P, kept_by_hits P -> List.Forall P (Game.mobs g0) -> P (fst result)) ->
  hit_frame g0 (applySplashResult g result).
Proof.
  intros Hg Hres. unfold applySplashResult.
  destruct (findIndex _ _) as [mobIndex|] eqn:Hidx; [|exact Hg].
  apply findIndex_Some in Hidx as (old & Hold & Hid).
  apply Id_eqb_true in Hid.
  apply (hit_frame_replace g0 g mobIndex (fst result)
           (applyDamage (fst result) (snd result)) old);
    try assumption; try congruence; try reflexivity.
  intros P [HP _] Hv. now apply HP.
Qed.

Lemma applyProjectileHit_frame g projectile target tower :
  In target (Game.mobs g) ->
  hit_frame g (applyProjectileHit g projectile target tower).
Proof.
  intros Htarget. unfold applyProjectileHit.
  destruct (truthy (Projectile.splashRadius projectile)).
  - rewrite applySplashDamage_map.
    set (radius := orElse (Projectile.splashRadius projectile) 0).
    set (victims := getMobsInSplashRadius (Projectile.pos projectile) radius
                      (getMobsInSplashRadius (Projectile.pos projectile)
                         radius (Game.mobs g))).
    assert (Hvictims : forall mob, In mob victims -> In mob (Game.mobs g)).
    { intros mob H. unfold victims, getMobsInSplashRadius in H.
      apply filter_In in H as [H _]. now apply filter_In in H as [H _]. }
    clearbody victims.
    assert (Hgen : forall g',
              hit_frame g g' ->
              hit_frame g
                (fold_left applySplashResult
                   (List.map
                      (fun mob =>
                         (mob, splashDamageAt radius
                                 (Projectile.damage projectile)
                                 (GridW.distance (Projectile.pos projectile)
                                                 (Mob.pos mob))))
                      victims) g')).
    { induction victims as [|victim rest IH]; intros g' Hg';
        cbn [List.map fold_left]; [exact Hg'|].
      apply IH; [intros mob H; apply Hvictims; now right|].
      apply applySplashResult_frame; [exact Hg'|]. cbn [fst].
      intros P _ HF. rewrite List.Forall_forall in HF.
      apply HF, Hvictims. now left. }
    apply Hgen, hit_frame_refl.
  - destruct (findIndex _ _) as [mobIndex|] eqn:Hidx; [|apply hit_frame_refl].
    apply findIndex_Some in Hidx as (old & Hold & Hid).
    apply Id_eqb_true in Hid.
    apply (hit_frame_replace g g mobIndex target _ old);
      try assumption; try congruence; try apply hit_frame_refl.
    + destruct (_ && _); [|reflexivity].
      now destruct (applySlow_cases (applyDamage target
                      (getEffectiveDamage (Projectile.damage projectile)
                                          (Mob.armor target)))
                      (orElse (Tower.slowDuration tower) 0)
                      (orElse (Tower.slowAmount tower) 0) (Game.time g))
        as [-> | ->].
    + intros P [HP1 HP2] Hv. destruct (_ && _); [apply HP2|]; now apply HP1.
    + intros P _ HF. rewrite List.Forall_forall in HF. now apply HF.
Qed.

Lemma updateProjectile_step dt g projectile :
  hit_frame g (fst (updateProjectile dt g projectile)) /\
  (snd (updateProjectile dt g projectile) = None \/
   exists pos,
     snd (updateProjectile dt g projectile)
     = Some (Projectile.with_pos projectile pos)).
Proof.
  unfold updateProjectile.
  destruct (List.find _ (Game.mobs g)) as [target|] eqn:Htarget;
    [|split; [apply hit_frame_refl | now left]].
  apply find_some in Htarget as [Htarget _].
  destruct (Mob.isDead target); [split; [apply hit_frame_refl | now left]|].
  destruct (Rleb _ _); [|split; [apply hit_frame_refl | right; eauto]].
  destruct (List.find _ (Game.towers g));
    [|split; [apply hit_frame_refl | now left]].
  split; [now apply applyProjectileHit_frame | now left].
Qed.

Lemma projectilesLoop_step dt pending g kept :
  exists g1 kept',
    projectilesLoop dt pending g kept = Game.with_projectiles g1 kept' /\
    hit_frame g g1 /\
    sublist (List.map Projectile.id kept')
            (List.map Projectile.id (rev pending ++ kept)) /\
    List.Forall
      (fun projectile' =>
         In projectile' kept \/
         exists projectile pos,
           In projectile pending /\
           projectile' = Projectile.with_pos projectile pos)
      kept'.
Proof.
  revert g kept. induction pending as [|projectile rest IH]; intros g kept;
    cbn [projectilesLoop].
  - exists g, kept. split; [reflexivity|]. split; [apply hit_frame_refl|].
    split; [reflexivity|]. apply List.Forall_forall. intros p Hp. now left.
  - destruct (updateProjectile_step dt g projectile) as [Hframe Hstays].
    destruct (updateProjectile dt g projectile) as [g1 stays].
    cbn [fst snd] in *.
    destruct (IH g1 (match stays with
                     | Some moved => moved :: kept
                     | None => kept
                     end)) as (g2 & kept' & -> & Hframe' & Hsub & Hall).
    exists g2, kept'. split; [reflexivity|].
    split; [eapply hit_frame_trans; eassumption|].
    cbn [rev]. rewrite <- app_assoc. cbn [app]. split.
    + etransitivity; [exact Hsub|]. rewrite !map_app.
      apply sublist_app; [reflexivity|].
      destruct Hstays as [-> | [pos ->]].
      * now apply sublist_cons.
      * cbn [List.map Projectile.id Projectile.with_pos]. now apply sublist_skip.
    + eapply List.Forall_impl; [|exact Hall].
      intros p' [Hin | (p & pos & Hin & ->)].
      * destruct Hstays as [-> | [pos ->]]; [now left|].
        destruct Hin as [<-|Hin]; [|now left].
        right. exists projectile, pos. split; [now left | reflexivity].
      * right. exists p, pos. split; [now right | reflexivity].
Qed.

(** X24.  [updateProjectiles] moves projectiles and hits mobs in place.
    The mobs afterwards are the mobs before, one for one and in order, with
    the same ids: it removes and adds none.  The projectiles that stay are
    projectiles there were, in their order, each with a new position and
    nothing else changed: it fires none.  Whatever damage and slows keep of
    a mob ([kept_by_hits]: [mob_ok], for one, or that the mob of a given id
    has a given position, armor or bounty) holds of all mobs afterwards if it
    did before;
    with bounties that are not negative the money does not shrink; and the
    towers, the waves, the clock, the state and the lives are untouched. *)
Theorem updateProjectiles_hits (game : Game.t) (dt : R) :
  let game' := updateProjectiles game dt in
  List.map Mob.id (Game.mobs game') = List.map Mob.id (Game.mobs game) /\
  sublist (List.map Projectile.id (Game.projectiles game'))
          (List.map Projectile.id (Game.projectiles game)) /\
  List.Forall
    (fun projectile' =>
       exists projectile pos,
         In projectile (Game.projectiles game) /\
         projectile' = Projectile.with_pos projectile pos)
    (Game.projectiles game') /\
  (forall P : Mob.t -> Prop,
     kept_by_hits P ->
     List.Forall P (Game.mobs game) -> List.Forall P (Game.mobs game')) /\
  (List.Forall mob_ok (Game.mobs game) ->
   List.Forall mob_ok (Game.mobs game')) /\
  (List.Forall (fun mob => 0 <= Mob.bounty mob) (Game.mobs game) ->
   Game.money game <= Game.money game') /\
  Game.towers game' = Game.towers game /\
  Game.waves game' = Game.waves game /\
  Game.time game' = Game.time game /\
  Game.state game' = Game.state game /\
  Game.lives game' = Game.lives game /\
  setupOf game' = setupOf game.
Proof.
  intros game'. subst game'. unfold updateProjectiles.
  destruct (projectilesLoop_step dt (rev (Game.projectiles game)) game [])
    as (g1 & kept' & -> & Hframe & Hsub & Hall).
  rewrite rev_involutive, app_nil_r in Hsub.
  cbn [Game.mobs Game.projectiles Game.money Game.towers Game.waves
       Game.time Game.state Game.lives Game.with_projectiles].
  split; [apply Hframe|]. split; [exact Hsub|]. split.
  { eapply List.Forall_impl; [|exact Hall].
    intros p' [[] | (p & pos & Hin & ->)].
    exists p, pos. split; [now apply in_rev | reflexivity]. }
  split; [exact (hit_kept _ _ Hframe)|].
  split; [apply (hit_kept _ _ Hframe), mob_ok_kept|].
  split; [apply Hframe|].
  destruct Hframe as [_ Hsetup Htime _ Hstate Hlives Htowers Hwaves _ _ _].
  now repeat split.
Qed.

(** *** The mobs *)

Lemma updateMobs_steps game dt mobs k mobs' k' :
  List.Forall mob_ok mobs -> 0 <= dt ->
  mapM (updateMob game dt) mobs k = Returned mobs' k' ->
  k' = k /\ List.Forall mob_ok mobs' /\ List.Forall2 (mobStep game) mobs mobs'.
Proof.
  intros Hok Hdt. revert k mobs'.
  induction Hok as [|mob mobs Hmob Hok IH]; intros k mobs' H;
    cbn [mapM] in H; inv_run.
  - now repeat split.
  - match goal with
    | Hone : updateMob _ _ _ _ = Returned _ _ |- _ =>
        apply updateMob_step in Hone as (-> & Hmob' & Hstep);
          [|exact Hmob | exact Hdt]
    end.
    match goal with
    | Hrest : mapM _ _ _ = Returned _ _ |- _ =>
        apply IH in Hrest as (-> & Hok' & Hsteps)
    end.
    split; [reflexivity|]. split; now constructor.
Qed.

(** X25.  [updateMobs], on mobs that are [mob_ok] (progress within 0..1,
    speed and slow multiplier not negative) and for a time step that is not
    negative.  Whenever it returns it has called no [Math.random] and changed
    nothing but the mobs, which are the mobs before, one for one and in
    order, each moved by one step: never backwards; to at most two cells past
    the cell it was in, however large [speed * dt] is; flagged [reachedEnd]
    only with progress 1 and its position at the base; with its identity,
    hit points, speed and dead flag kept; and left as it is when it is dead
    or has reached the end.  All mobs are [mob_ok] again. *)
Theorem updateMobs_advance (game : Game.t) (dt : R) (k : nat)
        (game' : Game.t) (k' : nat) :
  List.Forall mob_ok (Game.mobs game) -> 0 <= dt ->
  updateMobs game dt k = Returned game' k' ->
  k' = k /\
  game' = Game.with_mobs game (Game.mobs game') /\
  List.Forall mob_ok (Game.mobs game') /\
  List.Forall2 (mobStep game) (Game.mobs game) (Game.mobs game').
Proof.
  intros Hok Hdt H. unfold updateMobs in H. inv_run.
  match goal with
  | Hrun : mapM _ _ _ = Returned _ _ |- _ =>
      apply updateMobs_steps in Hrun as (-> & Hok' & Hsteps);
        [|exact Hok | exact Hdt]
  end.
  cbn [Game.mobs Game.with_mobs]. now repeat split.
Qed.

Lemma spawnedGoblin_ok now rnd : mob_ok (spawnedGoblin now rnd).
Proof. unfold mob_ok. cbn. repeat split; try lra. discriminate. Qed.

Lemma updateMobs_advance_witness :
  let game := Game.with_mobs startedGame [spawnedGoblin 0 0.25] in
  let mob' := Mob.moved (spawnedGoblin 0 0.25) (GridW.gridToWorld 2 7)
                        (2 / 19) false in
  updateMobs game 16.666 O = Returned (Game.with_mobs game [mob']) O /\
  List.Forall mob_ok [mob'] /\
  List.Forall2 (mobStep game) [spawnedGoblin 0 0.25] [mob'].
Proof.
  intros game mob'.
  assert (Hrun : updateMobs game 16.666 O
                 = Returned (Game.with_mobs game [mob']) O).
  { unfold updateMobs. cbn [Game.mobs game Game.with_mobs mapM].
    unfold bind at 1. unfold bind at 1.
    now rewrite updateMob_spawnedGoblin. }
  split; [exact Hrun|].
  assert (Hmobs : List.Forall mob_ok (Game.mobs game))
    by (constructor; [apply spawnedGoblin_ok | constructor]).
  assert (Hdt : 0 <= 16.666) by lra.
  destruct (updateMobs_advance game 16.666 O _ _ Hmobs Hdt Hrun)
    as (_ & _ & Hok & Hsteps).
  split; [exact Hok | exact Hsteps].
Defined.

(** *** The whole tick *)

Lemma checkGameState_frame g :
  setupOf (checkGameState g) = setupOf g /\
  Game.towers (checkGameState g) = Game.towers g /\
  Game.projectiles (checkGameState g) = Game.projectiles g /\
  length (Game.waves (checkGameState g)) = length (Game.waves g) /\
  forall i, i <> Game.currentWave g ->
            nthZ (Game.waves (checkGameState g)) i = nthZ (Game.waves g) i.
Proof.
  unfold checkGameState.
  set (game3 := if Rleb _ 0 then _ else _).
  assert (H3 : setupOf game3 = setupOf g /\ Game.towers game3 = Game.towers g
               /\ Game.projectiles game3 = Game.projectiles g
               /\ Game.waves game3 = Game.waves g)
    by (unfold game3; destruct (Rleb _ 0); now repeat split).
  destruct H3 as (Hsetup & Htowers & Hproj & Hwaves).
  assert (Hcur : Game.currentWave game3 = Game.currentWave g)
    by (injection Hsetup; congruence).
  clearbody game3.
  destruct (nthZ (Game.waves game3) (Game.currentWave game3))
    as [currentWave|] eqn:Hwave.
  - destruct (_ && _ && _ && _).
    + match goal with
      | |- context [storeWave ?g1 ?w] =>
          assert (Hlen : length (Game.waves (storeWave g1 w))
                         = length (Game.waves game3))
            by (now apply storeWave_length);
          assert (Hother : forall i, i <> Game.currentWave game3 ->
                    nthZ (Game.waves (storeWave g1 w)) i
                    = nthZ (Game.waves game3) i)
            by (intros i Hi; now apply storeWave_other with currentWave)
      end.
      rewrite Hwaves, ?Hcur in *.
      destruct (_ && _ && _); cbn in *; repeat split; try assumption.
    + rewrite Hwaves in *.
      destruct (_ && _ && _); cbn; now repeat split; try congruence.
  - rewrite Hwaves in *.
    destruct (_ && _ && _); cbn; now repeat split; try congruence.
Qed.

Lemma game_ok_wf game : game_ok game -> game_wf game.
Proof.
  intros [Hspawn Hmobs]. split; [exact Hspawn|].
  eapply List.Forall_impl; [|exact Hmobs]. now intros mob [H _].
Qed.

Lemma spawnedMob_ok kind spawnPoint now rnd :
  mob_ok (spawnedMob kind spawnPoint now rnd).
Proof.
  unfold mob_ok. destruct kind; cbn; repeat split; try lra; discriminate.
Qed.

Lemma setupOf_map g g' : setupOf g' = setupOf g -> Game.map g' = Game.map g.
Proof. unfold setupOf. now intros [= _ _ H _]. Qed.

Lemma updateWaves_ok random game dt k :
  game_ok game ->
  exists game1 k1,
    updateWaves random game dt k = Returned game1 k1 /\ game_ok game1.
Proof.
  intros Hok.
  destruct (updateWaves_returns random game dt k (game_ok_wf _ Hok))
    as (game1 & k1 & Hrun & _).
  exists game1, k1. split; [exact Hrun|].
  destruct Hok as [Hspawn Hmobs].
  destruct (updateWaves_frame _ _ _ _ _ _ Hrun) as (Hsetup & _).
  split; [now rewrite (setupOf_map _ _ Hsetup)|].
  destruct (updateWaves_mobs _ _ _ _ _ _ Hrun)
    as [[-> _] | (kind & spawnPoint & _ & -> & _)]; [exact Hmobs|].
  apply List.Forall_app. split; [exact Hmobs|].
  constructor; [apply spawnedMob_ok | constructor].
Qed.

(** What the steps of a tick before [checkGameState] make of a game that is
    [game_ok]. *)
Lemma beforeGameStateCheck_ok random game dt k :
  game_ok game -> 0 <= dt ->
  exists evaluated k',
    beforeGameStateCheck random game dt k = Returned evaluated k' /\
    game_ok evaluated /\
    List.Forall (fun mob => Mob.isDead mob = false) (Game.mobs evaluated) /\
    List.Forall
      (fun projectile =>
         Game.time evaluated - Projectile.createdAt projectile < 5)
      (Game.projectiles evaluated).
Proof.
  intros Hok Hdt. unfold beforeGameStateCheck.
  destruct (updateWaves_ok random
              (Game.with_time game (Game.time game + dt)
                              (Game.tickCount game + 1)%Z) dt k)
    as (g1 & k1 & Ew & [Hspawn1 Hmobs1]); [exact Hok|].
  destruct (updateMobs_returns g1 dt) with (k := k1) as (g2 & k2 & Em).
  { eapply List.Forall_impl; [|exact Hmobs1]. now intros mob [H _]. }
  assert (Hg2 : game_ok g2).
  { unfold updateMobs in Em. inv_run.
    match goal with
    | Hrun : mapM _ _ _ = Returned _ _ |- _ =>
        apply updateMobs_steps in Hrun as (_ & Hok2 & _);
          [|exact Hmobs1 | exact Hdt]
    end.
    split; [exact Hspawn1 | exact Hok2]. }
  destruct (updateTowers_returns random g2 dt k2) as (g3 & k3 & Et).
  assert (Hg3 : game_ok g3).
  { unfold updateTowers in Et. inv_run. exact Hg2. }
  unfold bind. rewrite Ew, Em, Et.
  eexists. eexists. split; [reflexivity|].
  unfold updateProjectiles.
  destruct (projectilesLoop_step dt (rev (Game.projectiles g3)) g3 [])
    as (g4 & kept & -> & Hframe & _ & _).
  destruct Hg3 as [Hspawn3 Hmobs3].
  pose proof (hit_kept _ _ Hframe _ mob_ok_kept Hmobs3) as Hmobs4.
  pose proof (setupOf_map _ _ (hit_setup _ _ Hframe)) as Hmap4.
  unfold cleanupEntities, game_ok.
  cbn [Game.mobs Game.projectiles Game.map Game.time Game.with_mobs
       Game.with_projectiles].
  split; [split|split].
  - now rewrite Hmap4.
  - apply List.Forall_forall. intros mob Hin.
    apply filter_In in Hin as [Hin _].
    rewrite List.Forall_forall in Hmobs4. now apply Hmobs4.
  - apply List.Forall_forall. intros mob Hin.
    apply filter_In in Hin as [_ Hin]. now apply negb_true_iff in Hin.
  - apply List.Forall_forall. intros projectile Hin.
    apply filter_In in Hin as [_ Hin]. now apply Rltb_true in Hin.
Qed.

(** X26.  The tick cannot fail on a game that is [game_ok] (the map has a
    spawn point; every mob has a progress within 0..1 and a speed and a slow
    multiplier that are not negative), for a time step that is not negative:
    [advanceTick] returns, the game it returns is [game_ok] again, so the
    next tick cannot fail either, and it holds no dead mob, no mob that has
    reached the end and no projectile created 5 or more units of time
    ago. *)
Theorem advanceTick_invariant (random : nat -> R) (game : Game.t) (dt : R)
        (k : nat) :
  game_ok game -> 0 <= dt ->
  exists game' k',
    advanceTick random game dt k = Returned game' k' /\
    game_ok game' /\
    List.Forall (fun mob => Mob.isDead mob = false /\
                            Mob.reachedEnd mob = false)
                (Game.mobs game') /\
    List.Forall
      (fun projectile =>
         Game.time game' - Projectile.createdAt projectile < 5)
      (Game.projectiles game').
Proof.
  intros Hok Hdt. unfold advanceTick.
  destruct (beforeGameStateCheck_ok random game dt k Hok Hdt)
    as (evaluated & k' & Hrun & [Hspawn Hmobs] & Halive & Hfresh).
  exists (checkGameState evaluated), k'.
  unfold bind. rewrite Hrun. split; [reflexivity|].
  destruct (checkGameState_spec evaluated) as (Htime & _ & _ & Emobs).
  destruct (checkGameState_frame evaluated) as (Hsetup & _ & Eproj & _).
  cbv zeta in *. unfold game_ok. rewrite Emobs, Eproj, Htime.
  split; [split|split].
  - now rewrite (setupOf_map _ _ Hsetup).
  - apply List.Forall_forall. intros mob Hin.
    apply filter_In in Hin as [Hin _].
    rewrite List.Forall_forall in Hmobs. now apply Hmobs.
  - apply List.Forall_forall. intros mob Hin.
    apply filter_In in Hin as [Hin Hend]. apply negb_true_iff in Hend.
    rewrite List.Forall_forall in Halive. split; [now apply Halive | exact Hend].
  - exact Hfresh.
Qed.

Lemma createInitialGame_ok : game_ok createInitialGame.
Proof. split; [discriminate | constructor]. Qed.

Lemma advanceTick_invariant_witness :
  exists game' k',
    advanceTick (fun _ => 0.25) startedGame TICK_DURATION O
    = Returned game' k' /\
    game_ok game' /\
    List.Forall (fun mob => Mob.isDead mob = false /\
                            Mob.reachedEnd mob = false)
                (Game.mobs game') /\
    List.Forall
      (fun projectile =>
         Game.time game' - Projectile.createdAt projectile < 5)
      (Game.projectiles game').
Proof.
  apply (advanceTick_invariant (fun _ => 0.25) startedGame TICK_DURATION O).
  - exact createInitialGame_ok.
  - unfold TICK_DURATION. lra.
Defined.

Lemma updateMob_calls game dt mob k mob' k' :
  updateMob game dt mob k = Returned mob' k' -> k' = k.
Proof.
  unfold updateMob. intros H. split_run H; inv_run; reflexivity.
Qed.

Lemma mapM_updateMob_calls game dt mobs k mobs' k' :
  mapM (updateMob game dt) mobs k = Returned mobs' k' -> k' = k.
Proof.
  revert k mobs'. induction mobs as [|mob mobs IH]; intros k mobs' H;
    cbn [mapM] in H; inv_run; [reflexivity|].
  match goal with
  | Hone : updateMob _ _ _ _ = Returned _ _ |- _ =>
      apply updateMob_calls in Hone as ->
  end.
  eapply IH; eassumption.
Qed.

Lemma updateMobs_calls game dt k game' k' :
  updateMobs game dt k = Returned game' k' ->
  k' = k /\ game' = Game.with_mobs game (Game.mobs game').
Proof.
  unfold updateMobs. intros H. inv_run. split; [|reflexivity].
  eapply mapM_updateMob_calls; eassumption.
Qed.

(** X27.  What a tick never touches.  Whenever [advanceTick] returns, the
    wave counter (which only [startNextWave] moves), the number of waves, the
    map, the speed setting, the score and the fields of the user interface
    are as before; the towers are the towers before, one for one and in
    order, each as it was or with the time and target of a shot recorded;
    the waves are as many as before and every wave but the current one is
    as it was; and [Math.random] was called at most once for a spawn and
    once per tower. *)
Theorem advanceTick_frame (random : nat -> R) (game : Game.t) (dt : R)
        (k : nat) (game' : Game.t) (k' : nat) :
  advanceTick random game dt k = Returned game' k' ->
  setupOf game' = setupOf game /\
  List.Forall2 (towerStep (Game.time game + dt))
               (Game.towers game) (Game.towers game') /\
  length (Game.waves game') = length (Game.waves game) /\
  (forall i, i <> Game.currentWave game ->
             nthZ (Game.waves game') i = nthZ (Game.waves game) i) /\
  (k <= k' <= k + 1 + length (Game.towers game))%nat.
Proof.
  unfold advanceTick, beforeGameStateCheck. intros H. inv_run.
  match goal with
  | Hw : updateWaves _ _ _ _ = Returned ?g1 ?k1,
    Hm : updateMobs ?g1 _ ?k1 = Returned ?g2 ?k2,
    Ht : updateTowers _ ?g2 _ ?k2 = Returned ?g3 ?k3 |- _ =>
      rename g1 into game1, g2 into game2, g3 into game3;
      pose proof (updateWaves_frame _ _ _ _ _ _ Hw)
        as (Hsetup1 & Htime1 & _ & _ & _ & Htowers1 & _ & Hlen1 & Hother1);
      pose proof (updateWaves_mobs _ _ _ _ _ _ Hw) as Hcalls1;
      apply updateMobs_calls in Hm as [-> Egame2];
      unfold updateTowers in Ht; inv_run
  end.
  match goal with
  | Hrun : mapM _ _ _ = Returned ?results _ |- _ =>
      apply updateTowers_steps in Hrun as (Hsteps & Hk & Hlen)
  end.
  unfold updateProjectiles.
  match goal with
  | |- context [projectilesLoop dt ?pending ?g ?kept] =>
      destruct (projectilesLoop_step dt pending g kept)
        as (game4 & kept' & -> & Hframe & _ & _)
  end.
  destruct Hframe as [_ Hsetup4 _ _ _ _ Htowers4 Hwaves4 _ _ _].
  cbn [Game.towers Game.waves Game.with_towers Game.with_projectiles]
    in Htowers4, Hwaves4.
  match goal with
  | |- context [checkGameState ?g] =>
      destruct (checkGameState_frame g)
        as (Hsetup5 & Htowers5 & _ & Hlen5 & Hother5)
  end.
  unfold cleanupEntities in *.
  cbn [Game.towers Game.waves Game.currentWave Game.with_mobs
       Game.with_projectiles Game.with_towers] in *.
  assert (Hcur4 : Game.currentWave game4 = Game.currentWave game).
  { unfold setupOf in Hsetup4, Hsetup1. cbn in Hsetup4, Hsetup1.
    rewrite Egame2 in Hsetup4. cbn in Hsetup4. congruence. }
  assert (Hwaves2 : Game.waves game2 = Game.waves game1)
    by (rewrite Egame2; reflexivity).
  assert (Htowers2 : Game.towers game2 = Game.towers game1)
    by (rewrite Egame2; reflexivity).
  assert (Htime2 : Game.time game2 = Game.time game + dt)
    by (rewrite Egame2; cbn; rewrite Htime1; reflexivity).
  cbn [Game.towers Game.with_time] in Htowers1.
  cbn [Game.waves Game.with_time] in Hlen1, Hother1.
  cbn [Game.currentWave Game.with_time] in Hother1.
  split; [|split; [|split; [|split]]].
  - rewrite Hsetup5. unfold setupOf in *. cbn in *.
    rewrite Egame2 in Hsetup4. cbn in Hsetup4. congruence.
  - rewrite Htowers5, Htowers4, <- Htowers1, <- Htowers2, <- Htime2.
    exact Hsteps.
  - rewrite Hlen5, Hwaves4, Hwaves2. exact Hlen1.
  - intros i Hi. rewrite Hother5 by congruence.
    rewrite Hwaves4, Hwaves2. now apply Hother1.
  - rewrite Htowers2, Htowers1 in Hlen.
    destruct Hcalls1 as [[_ ->] | (_ & _ & _ & _ & ->)]; lia.
Qed.

Lemma advanceTick_frame_witness :
  setupOf (firstTickGame 0.25) = setupOf startedGame /\
  List.Forall2 (towerStep (Game.time startedGame + 16.666))
               (Game.towers startedGame) (Game.towers (firstTickGame 0.25)) /\
  length (Game.waves (firstTickGame 0.25)) = length (Game.waves startedGame) /\
  (forall i, i <> Game.currentWave startedGame ->
             nthZ (Game.waves (firstTickGame 0.25)) i
             = nthZ (Game.waves startedGame) i) /\
  (0 <= 1 <= 0 + 1 + length (Game.towers startedGame))%nat.
Proof.
  exact (advanceTick_frame (fun _ => 0.25) startedGame 16.666 O _ _
           (advanceTick_startedGame (fun _ => 0.25))).
Defined.

(** *** The game-state check *)

Lemma filter_reached_none (mobs : list Mob.t) :
  List.filter Mob.reachedEnd
    (List.filter (fun mob => negb (Mob.reachedEnd mob)) mobs) = [].
Proof.
  induction mobs as [|mob mobs IH]; [reflexivity|]. cbn [List.filter].
  destruct (Mob.reachedEnd mob) eqn:E; cbn [negb List.filter]; [exact IH|].
  now rewrite E.
Qed.

Lemma checkGameState_fields g :
  let g' := checkGameState g in
  Game.mobs g' = survivors g /\
  Game.lives g' = livesLeft g /\
  Game.state g'
  = (if won g then GameState.victory
     else if Rleb (livesLeft g) 0 then GameState.gameOver
     else Game.state g) /\
  Game.money g'
  = match bonusDue g with
    | Some wave => Game.money g + (25 + Wave.id wave * 5)
    | None => Game.money g
    end /\
  Game.waves g'
  = match bonusDue g with
    | Some wave =>
        <[Z.to_nat (Game.currentWave g) :=
            Wave.mk (Wave.id wave) (Wave.entries wave) (Wave.isActive wave)
                    (Wave.isComplete wave) (Wave.startTime wave)
                    (Wave.nextSpawnTime wave) (Wave.currentEntryIndex wave)
                    (Wave.currentSpawnCount wave) (Some true)]>
          (Game.waves g)
    | None => Game.waves g
    end.
Proof.
  unfold checkGameState, won, bonusDue, fieldClear, survivors, livesLeft,
         storeWave.
  cbv zeta.
  cbn [Game.mobs Game.lives Game.with_lives Game.with_mobs].
  rewrite fold_lives_count.
  set (mobs1 := List.filter (fun mob => negb (Mob.reachedEnd mob))
                            (Game.mobs g)).
  set (lives1 := Game.lives g
                 - INR (length (List.filter Mob.reachedEnd (Game.mobs g)))).
  repeat
    (cbn [Game.mobs Game.lives Game.waves Game.currentWave Game.totalWaves
          Game.projectiles Game.money Game.state Game.with_lives Game.with_mobs
          Game.with_state Game.with_money Game.with_waves andb];
     match goal with
     | H : ?b = true |- context [?b] => rewrite H
     | H : ?b = false |- context [?b] => rewrite H
     | H : nthZ ?l ?i = _ |- context [nthZ ?l ?i] => rewrite H
     | |- context [Rleb ?a 0] => destruct (Rleb a 0) eqn:?
     | |- context [match nthZ ?l ?i with _ => _ end] =>
         destruct (nthZ l i) as [wave|] eqn:?
     | |- context [Wave.isComplete ?w] => destruct (Wave.isComplete w) eqn:?
     | |- context [negb ?b] => destruct (negb b) eqn:?
     | |- context [Nat.eqb ?n 0] => destruct (Nat.eqb n 0) eqn:?
     | |- context [(?a <=? ?b)%Z] => destruct (a <=? b)%Z eqn:?
     end);
    cbn; now repeat split.
Qed.

Lemma Game_ext (g1 g2 : Game.t) :
  setupOf g1 = setupOf g2 ->
  Game.time g1 = Game.time g2 -> Game.tickCount g1 = Game.tickCount g2 ->
  Game.state g1 = Game.state g2 -> Game.mobs g1 = Game.mobs g2 ->
  Game.towers g1 = Game.towers g2 ->
  Game.projectiles g1 = Game.projectiles g2 ->
  Game.waves g1 = Game.waves g2 -> Game.money g1 = Game.money g2 ->
  Game.lives g1 = Game.lives g2 ->
  g1 = g2.
Proof.
  destruct g1, g2. unfold setupOf.
  cbn [Game.time Game.state Game.speed Game.mobs Game.towers
       Game.projectiles Game.waves Game.currentWave Game.totalWaves
       Game.money Game.lives Game.score Game.map Game.selectedTower
       Game.hoveredTile Game.buildMode Game.lastTickTime Game.frameTime
       Game.tickCount].
  intros [= -> -> -> -> -> -> -> -> -> ->] -> -> -> -> -> -> -> -> ->.
  reflexivity.
Qed.

Lemma checkGameState_again g :
  let g' := checkGameState g in
  survivors g' = survivors g /\ livesLeft g' = livesLeft g /\
  fieldClear g' = fieldClear g /\ won g' = won g /\ bonusDue g' = None.
Proof.
  cbv zeta.
  destruct (checkGameState_fields g) as (Emobs & Elives & _ & _ & Ewaves).
  destruct (checkGameState_frame g) as (Esetup & _ & Eproj & _ & _).
  cbv zeta in *.
  assert (Ecur : Game.currentWave (checkGameState g) = Game.currentWave g
                 /\ Game.totalWaves (checkGameState g) = Game.totalWaves g)
    by (unfold setupOf in Esetup; split; congruence).
  destruct Ecur as [Ecur Etotal].
  assert (Hs : survivors (checkGameState g) = survivors g)
    by (unfold survivors at 1; rewrite Emobs; apply filter_idempotent).
  assert (Hl : livesLeft (checkGameState g) = livesLeft g).
  { unfold livesLeft at 1. rewrite Emobs, Elives. unfold survivors.
    rewrite filter_reached_none. cbn. lra. }
  assert (Hf : fieldClear (checkGameState g) = fieldClear g)
    by (unfold fieldClear; now rewrite Hs, Eproj).
  repeat split; try assumption.
  - unfold won. now rewrite Hf, Ecur, Etotal.
  - unfold bonusDue at 1. rewrite Ewaves, Ecur, Hf.
    unfold bonusDue.
    destruct (nthZ (Game.waves g) (Game.currentWave g)) as [wave|] eqn:Hw.
    + destruct (Wave.isComplete wave && fieldClear g
                && negb (orElse (Wave.bonusGiven wave) false)) eqn:Hdue.
      * erewrite nthZ_insert_eq by exact Hw. cbn.
        now rewrite andb_false_r.
      * now rewrite Hw, Hdue.
    + now rewrite Hw.
Qed.

(** X28.  [checkGameState] settles the game: checking a checked game again
    changes nothing, so a mob at the end costs its life once and the clear
    bonus of a wave is paid once.  The state it sets is ['victory'] when all
    waves are started ([currentWave >= totalWaves]) and, the mobs at the end
    removed, no mob and no projectile is left, whether or not a life is
    left; otherwise ['gameOver'] when the lives left are 0 or less;
    otherwise the state as it was.  The money grows by [25 + 5 * id] of the
    current wave exactly when that wave is complete, the field is clear and
    its bonus has not been given. *)
Theorem checkGameState_settles (game : Game.t) :
  let checked := checkGameState game in
  checkGameState checked = checked /\
  Game.state checked
  = (if won game then GameState.victory
     else if Rleb (livesLeft game) 0 then GameState.gameOver
     else Game.state game) /\
  Game.money checked
  = match bonusDue game with
    | Some wave => Game.money game + (25 + Wave.id wave * 5)
    | None => Game.money game
    end /\
  bonusDue checked = None.
Proof.
  intros checked.
  destruct (checkGameState_fields game)
    as (Emobs & Elives & Estate & Emoney & Ewaves).
  destruct (checkGameState_again game)
    as (Hs & Hl & Hf & Hw & Hb).
  fold checked in Emobs, Elives, Estate, Emoney, Ewaves, Hs, Hl, Hf, Hw, Hb.
  split; [|now repeat split].
  destruct (checkGameState_fields checked)
    as (Emobs' & Elives' & Estate' & Emoney' & Ewaves').
  destruct (checkGameState_frame checked) as (Esetup' & Etowers' & Eproj' & _).
  destruct (checkGameState_spec checked) as (Etime' & Etick' & _).
  cbv zeta in *.
  apply Game_ext; try assumption.
  - rewrite Estate', Hw, Hl, Estate.
    destruct (won game); [reflexivity|]. now destruct (Rleb _ 0).
  - now rewrite Emobs', Hs.
  - now rewrite Ewaves', Hb.
  - now rewrite Emoney', Hb.
  - now rewrite Elives', Hl.
Qed.

(** ** store.ts: the driver and the pause *)

Lemma advanceTick_ok random game dt k :
  game_ok game -> 0 <= dt ->
  exists game' k',
    advanceTick random game dt k = Returned game' k' /\ game_ok game'.
Proof.
  intros Hok Hdt. unfold advanceTick.
  destruct (beforeGameStateCheck_ok random game dt k Hok Hdt)
    as (evaluated & k' & Hrun & [Hspawn Hmobs] & _ & _).
  exists (checkGameState evaluated), k'.
  unfold bind. rewrite Hrun. split; [reflexivity|].
  destruct (checkGameState_spec evaluated) as (_ & _ & _ & Emobs).
  destruct (checkGameState_frame evaluated) as (Hsetup & _).
  cbv zeta in *. unfold game_ok. rewrite Emobs. split.
  - now rewrite (setupOf_map _ _ Hsetup).
  - apply List.Forall_forall. intros mob Hin.
    apply filter_In in Hin as [Hin _].
    rewrite List.Forall_forall in Hmobs. now apply Hmobs.
Qed.

(** The loop of [update] on a game every tick can run on: it runs [n] ticks,
    each of [TICK_DURATION], until less than one tick of time is left. *)
Lemma tickLoop_runs random fuel game remainingTime k :
  game_ok game -> 0 <= remainingTime ->
  remainingTime < (INR fuel + 1) * TICK_DURATION ->
  exists game' left k' n,
    tickLoop random fuel game remainingTime k = Returned (game', left) k' /\
    left = remainingTime - INR n * TICK_DURATION /\
    0 <= left < TICK_DURATION /\
    Game.tickCount game' = (Game.tickCount game + Z.of_nat n)%Z /\
    Game.time game' = Game.time game + INR n * TICK_DURATION /\
    game_ok game'.
Proof.
  assert (HT : 0 < TICK_DURATION) by (unfold TICK_DURATION; lra).
  revert game remainingTime k.
  induction fuel as [|fuel IH]; intros game remainingTime k Hok Hpos Hlt;
    cbn [tickLoop].
  - destruct (Rleb TICK_DURATION remainingTime) eqn:E.
    + apply Rleb_true in E. cbn in Hlt. lra.
    + apply Rleb_false in E.
      exists game, remainingTime, k, O. cbn [INR].
      repeat split; try lra; try exact Hok; try (now rewrite Z.add_0_r);
        try apply Hok.
  - destruct (Rleb TICK_DURATION remainingTime) eqn:E.
    + apply Rleb_true in E. unfold bind.
      destruct (advanceTick_ok random game TICK_DURATION k Hok)
        as (g1 & k1 & Hrun & Hok1); [lra|].
      rewrite Hrun.
      destruct (advanceTick_clock _ _ _ _ _ _ Hrun) as [Htime Hcount].
      rewrite S_INR in Hlt.
      destruct (IH g1 (remainingTime - TICK_DURATION) k1 Hok1)
        as (g' & left & k' & n & Hloop & Hleft & Hrange & Hn & Ht & Hok');
        [lra|lra|].
      exists g', left, k', (S n). rewrite S_INR, Nat2Z.inj_succ.
      repeat split; try tauto; try lra; try lia; try apply Hok'.
    + apply Rleb_false in E.
      exists game, remainingTime, k, O. cbn [INR].
      repeat split; try lra; try exact Hok; try (now rewrite Z.add_0_r);
        try apply Hok.
Qed.

Lemma whole_ticks (acc left : R) (n : nat) :
  left = acc - INR n * TICK_DURATION -> 0 <= left < TICK_DURATION ->
  Zfloor (acc / TICK_DURATION) = Z.of_nat n.
Proof.
  intros -> [Hlo Hhi].
  assert (HT : 0 < TICK_DURATION) by (unfold TICK_DURATION; lra).
  apply Zfloor_eq. rewrite <- INR_IZR_INZ.
  split.
  - apply Rmult_le_reg_r with TICK_DURATION; [exact HT|].
    unfold Rdiv. rewrite Rmult_assoc, Rinv_l by lra. lra.
  - apply Rmult_lt_reg_r with TICK_DURATION; [exact HT|].
    unfold Rdiv. rewrite Rmult_assoc, Rinv_l by lra. lra.
Qed.

(** X29.  The store's [update] runs whole ticks.  On a running store whose
    game is ['playing'] and can be ticked, when the accumulated time
    [accumulator + deltaTime] is at most one second (1000) and lies between
    [n] and [n + 1] ticks, a microsecond (0.001) or more away from both:
    [update] returns, having run exactly [n] ticks, each advancing the clock
    by [TICK_DURATION]; it keeps the rest, less than one tick, as the new
    accumulator; the store is still running and the game can be ticked
    again.  The loop does not look at the game's state: a game that is lost
    or won on one of these ticks is still ticked by the rest.  (Within a
    microsecond of a whole number of ticks the store's count, computed with
    doubles, can differ by one from the count of exact numbers, and nothing is
    stated there.) *)
Theorem update_whole_ticks (random : nat -> R) (state : Store.t)
        (deltaTime : R) (n k : nat) :
  Store.isRunning state = true ->
  Game.state (Store.game state) = GameState.playing ->
  game_ok (Store.game state) ->
  INR n * TICK_DURATION + 0.001 <= Store.accumulator state + deltaTime
  <= (INR n + 1) * TICK_DURATION - 0.001 ->
  Store.accumulator state + deltaTime <= 1000 ->
  exists state' k',
    update random state deltaTime k = Returned state' k' /\
    Game.tickCount (Store.game state')
    = (Game.tickCount (Store.game state) + Z.of_nat n)%Z /\
    Game.time (Store.game state')
    = Game.time (Store.game state) + INR n * TICK_DURATION /\
    Store.accumulator state'
    = Store.accumulator state + deltaTime - INR n * TICK_DURATION /\
    0 <= Store.accumulator state' < TICK_DURATION /\
    Store.isRunning state' = true /\
    Store.lastFrameTime state' = Store.lastFrameTime state /\
    game_ok (Store.game state').
Proof.
  intros Hrun Hplaying Hok [Hlo Hhi] _.
  assert (HT : 0 < TICK_DURATION) by (unfold TICK_DURATION; lra).
  pose proof (pos_INR n) as Hn0.
  unfold update. rewrite Hrun, Hplaying. cbn [negb orb GameState.eqb].
  set (acc := Store.accumulator state + deltaTime) in *.
  assert (Hacc : 0 <= acc) by nra.
  destruct (tickLoop_runs random (Z.to_nat (Zfloor (acc / TICK_DURATION)))
              (Store.game state) acc k Hok Hacc)
    as (game' & left & k' & n' & Hloop & Hleft & Hrange & Hcount & Htime
        & Hok').
  { assert (0 <= Zfloor (acc / TICK_DURATION))%Z.
    { apply Zfloor_lub. cbn. unfold Rdiv.
      apply Rmult_le_pos; [exact Hacc|].
      apply Rlt_le. now apply Rinv_0_lt_compat. }
    pose proof (Zfloor_bound (acc / TICK_DURATION)) as [_ Hb].
    rewrite INR_IZR_INZ, Z2Nat.id by lia.
    apply Rmult_lt_reg_r with (/ TICK_DURATION);
      [now apply Rinv_0_lt_compat|].
    rewrite Rmult_assoc, Rinv_r by lra. unfold Rdiv in Hb. lra. }
  assert (En : n' = n).
  { apply Nat2Z.inj.
    rewrite <- (whole_ticks acc left n' Hleft Hrange).
    apply (whole_ticks acc (acc - INR n * TICK_DURATION) n);
      [reflexivity | lra]. }
  subst n'.
  exists (Store.mk game' true (Store.lastFrameTime state) left), k'.
  unfold bind. rewrite Hloop. cbn [fst snd]. split; [reflexivity|].
  cbn [Store.game Store.accumulator Store.isRunning Store.lastFrameTime].
  subst acc.
  repeat split; try tauto; try lra; try apply Hok'.
Qed.

(** The store [startGame] makes of the initial one, 20 ms into a frame: one
    tick. *)
Lemma update_whole_ticks_witness :
  exists state' k',
    update (fun _ => 0.25) (Store.mk startedGame true 0 0) 20 O
    = Returned state' k' /\
    Game.tickCount (Store.game state') = (0 + Z.of_nat 1)%Z /\
    Game.time (Store.game state') = 0 + INR 1 * TICK_DURATION /\
    Store.accumulator state' = 0 + 20 - INR 1 * TICK_DURATION /\
    0 <= Store.accumulator state' < TICK_DURATION /\
    Store.isRunning state' = true /\
    Store.lastFrameTime state' = 0 /\
    game_ok (Store.game state').
Proof.
  apply (update_whole_ticks (fun _ => 0.25) (Store.mk startedGame true 0 0)
           20 1 O).
  - reflexivity.
  - reflexivity.
  - split; [discriminate | constructor].
  - cbn. unfold TICK_DURATION. lra.
  - cbn. lra.
Defined.

Lemma togglePause_twice (game : Game.t) :
  togglePause (togglePause game) = game.
Proof.
  destruct game as [time state speed mobs towers projectiles waves currentWave
                    totalWaves money lives score map selectedTower
                    hoveredTile buildMode lastTickTime frameTime tickCount].
  unfold togglePause. cbn [Game.state].
  destruct state; reflexivity.
Qed.

(** X30.  Pausing in the store.  After [pauseGame] the driver does nothing:
    [update] returns the store as it is, whatever the game's state and the
    frame time, without a tick and without a call of [Math.random].
    [resumeGame] after [pauseGame] gives back the game as it was before the
    pause, state included, with the accumulator kept, the store running and
    the frame clock set to now.  [resumeGame] toggles as [pauseGame] does:
    called on a store that [startGame] has just set running, with no pause
    before, it makes the game ['paused'], and [update] does nothing although
    the store is running. *)
Theorem pauseGame_resumeGame (random : nat -> R) (now deltaTime : R)
        (state : Store.t) (k : nat) :
  let paused := useGameStore.pauseGame state in
  let resumed := useGameStore.resumeGame now paused in
  let stalled :=
    useGameStore.resumeGame now (useGameStore.startGame now state) in
  update random paused deltaTime k = Returned paused k /\
  Store.game resumed = Store.game state /\
  Store.accumulator resumed = Store.accumulator state /\
  Store.isRunning resumed = true /\
  Store.lastFrameTime resumed = now /\
  Store.isRunning stalled = true /\
  Game.state (Store.game stalled) = GameState.paused /\
  update random stalled deltaTime k = Returned stalled k.
Proof.
  cbv zeta.
  unfold useGameStore.resumeGame, useGameStore.pauseGame,
    useGameStore.startGame.
  cbn [Store.game Store.accumulator Store.isRunning Store.lastFrameTime].
  rewrite togglePause_twice.
  destruct (Store.game state).
  repeat split.
Qed.
